(** * Beamforming kernels and simulated point sources

    A shallow embedding of the numerical kernels of [acoular/fastFuncs.py]
    (cross spectral matrix accumulation, the frequency domain beamformers,
    the transfer function) and of the sample generators of
    [beamfpy/sources.py] (fixed and moving point source).

    Numeric model.  [float64] values are real numbers and [complex128]
    values are pairs of reals: every arithmetic operation of the source is
    the exact one.  IEEE rounding, infinities and NaN are outside the model;
    the one rounding step the source asks for explicitly, the cast
    [np.float32], is kept as an unspecified function [float32 : R -> R].

    Arrays.  An n-dimensional numpy array is a function from indices to
    values; its shape is passed next to it, as the source reads it from
    [.shape].  [for i in range(n)] is [for_range n], a fold that runs the loop
    body at 0, 1, ..., n-1 on the state the loop mutates. *)

From Stdlib Require Import String Reals Lra Lia List Arith ZArith Bool.
From Stdlib Require Import Permutation.
Import ListNotations.

Local Open Scope R_scope.

(** ** Complex numbers *)

Record complex128 : Set := Cplx { real : R; imag : R }.

Abbreviation float64 := R (only parsing).

Declare Scope C_scope.
Delimit Scope C_scope with C.
Bind Scope C_scope with complex128.

Definition RtoC (x : R) : complex128 := Cplx x 0.
Definition C0 : complex128 := Cplx 0 0.
Definition Ci : complex128 := Cplx 0 1.

Definition Cadd (a b : complex128) : complex128 :=
  Cplx (real a + real b) (imag a + imag b).
Definition Csub (a b : complex128) : complex128 :=
  Cplx (real a - real b) (imag a - imag b).
Definition Cmul (a b : complex128) : complex128 :=
  Cplx (real a * real b - imag a * imag b) (real a * imag b + imag a * real b).
Definition conjugate (a : complex128) : complex128 :=
  Cplx (real a) (- imag a).

(** A complex number divided by a real one, as in [z / distGridToAllMics[m]]. *)
Definition CdivR (a : complex128) (x : R) : complex128 :=
  Cplx (real a / x) (imag a / x).

Infix "+" := Cadd : C_scope.
Infix "-" := Csub : C_scope.
Infix "*" := Cmul : C_scope.

(** ** Loops and array updates *)

(** [for i in range(n): s = body i s] *)
Fixpoint for_range {S : Type} (n : nat) (body : nat -> S -> S) (s : S) : S :=
  match n with
  | O => s
  | Datatypes.S k => body k (for_range k body s)
  end.

(** [a[i] = v] *)
Definition upd1 {A : Type} (a : nat -> A) (i : nat) (v : A) : nat -> A :=
  fun i' => if Nat.eqb i' i then v else a i'.

(** [a[i, j] = v] *)
Definition upd2 {A : Type} (a : nat -> nat -> A) (i j : nat) (v : A)
  : nat -> nat -> A :=
  fun i' j' => if Nat.eqb i' i && Nat.eqb j' j then v else a i' j'.

(** [a[i, j, k] = v] *)
Definition upd3 {A : Type} (a : nat -> nat -> nat -> A) (i j k : nat) (v : A)
  : nat -> nat -> nat -> A :=
  fun i' j' k' =>
    if Nat.eqb i' i && Nat.eqb j' j && Nat.eqb k' k then v else a i' j' k'.

(** ** [fastFuncs.calcCSM] *)

Module fastFuncs.

(** [csm] is [complex128[nFreqs, nMics, nMics]], [SpecAllMics] is
    [complex128[nFreqs, nMics]]; [nFreqs = csm.shape[0]] and
    [nMics = csm.shape[1]].  The returned array is the mutated [csm]. *)
Definition calcCSM (nFreqs nMics : nat)
    (csm : nat -> nat -> nat -> complex128)
    (SpecAllMics : nat -> nat -> complex128)
  : nat -> nat -> nat -> complex128 :=
  for_range nFreqs (fun cntFreq csm =>
    for_range nMics (fun cntColumn csm =>
      let temp := conjugate (SpecAllMics cntFreq cntColumn) in
      for_range (cntColumn + 1) (fun cntRow csm =>
        upd3 csm cntFreq cntRow cntColumn
          (csm cntFreq cntRow cntColumn + temp * SpecAllMics cntFreq cntRow)%C)
        csm)
      csm)
    csm.


(** ** The beamformer kernels of [fastFuncs]

    Each kernel is a [numba.guvectorize] core: it sees one grid point, so
    [distGridToArrayCenter], [waveNumber], [signalLossNormalization] and
    [result] are the one-element arrays the source reads at index 0, here
    plain numbers, and [distGridToAllMics] is the row of one grid point. *)

Section Kernels.

(** The cast [np.float32] applied to the phase argument. *)
Variable float32 : R -> R.

(** [np.cos(expArg) - 1j * np.sin(expArg)] *)
Definition expMinusJ (expArg : R) : complex128 :=
  (RtoC (cos expArg) - Ci * RtoC (sin expArg))%C.

(** The matrix-vector loop that every direct [..._FullCSM] kernel runs on its
    steering vector (the same text in each of them). *)
Definition reduce_FullCSM (nMics : nat) (csm : nat -> nat -> complex128)
    (steerVec : nat -> complex128) : float64 :=
  for_range nMics (fun cntMics scalarProd =>
    let leftVecMatrixProd :=
      for_range cntMics (fun cntMics2 leftVecMatrixProd =>
        (leftVecMatrixProd + csm cntMics2 cntMics * conjugate (steerVec cntMics2))%C)
        C0 in
    let scalarProd :=
      scalarProd + 2 * real (leftVecMatrixProd * steerVec cntMics)%C in
    scalarProd
    + real (csm cntMics cntMics * conjugate (steerVec cntMics) * steerVec cntMics)%C)
    0.

(** The loop of every direct [..._CsmRemovedDiag] kernel: the line that adds
    the diagonal of the csm is absent. *)
Definition reduce_CsmRemovedDiag (nMics : nat) (csm : nat -> nat -> complex128)
    (steerVec : nat -> complex128) : float64 :=
  for_range nMics (fun cntMics scalarProd =>
    let leftVecMatrixProd :=
      for_range cntMics (fun cntMics2 leftVecMatrixProd =>
        (leftVecMatrixProd + csm cntMics2 cntMics * conjugate (steerVec cntMics2))%C)
        C0 in
    scalarProd + 2 * real (leftVecMatrixProd * steerVec cntMics)%C)
    0.

(** The spectral-decomposition loop of every [EigValProb_..._FullCSM] kernel;
    [nEV = len(eigVal)]. *)
Definition reduce_EigValProb_FullCSM (nEV nMics : nat)
    (eigVal : nat -> float64) (eigVec : nat -> nat -> complex128)
    (steerVec : nat -> complex128) : float64 :=
  for_range nEV (fun cntEigVal scalarProdFullCSM =>
    let scalarProdFullCSMperEigVal :=
      for_range nMics (fun cntMics scalarProdFullCSMperEigVal =>
        (scalarProdFullCSMperEigVal
         + conjugate (eigVec cntMics cntEigVal) * steerVec cntMics)%C)
        C0 in
    let scalarProdFullCSMAbsSquared :=
      real (scalarProdFullCSMperEigVal * conjugate scalarProdFullCSMperEigVal)%C in
    scalarProdFullCSM + scalarProdFullCSMAbsSquared * eigVal cntEigVal)
    0.

(** The loop of every [EigValProb_..._CsmRemovedDiag] kernel. *)
Definition reduce_EigValProb_CsmRemovedDiag (nEV nMics : nat)
    (eigVal : nat -> float64) (eigVec : nat -> nat -> complex128)
    (steerVec : nat -> complex128) : float64 :=
  for_range nEV (fun cntEigVal scalarProdReducedCSM =>
    let '(scalarProdFullCSMperEigVal, scalarProdDiagCSMperEigVal) :=
      for_range nMics
        (fun cntMics '(scalarProdFullCSMperEigVal, scalarProdDiagCSMperEigVal) =>
          let temp1 := (conjugate (eigVec cntMics cntEigVal) * steerVec cntMics)%C in
          ((scalarProdFullCSMperEigVal + temp1)%C,
           scalarProdDiagCSMperEigVal + real (temp1 * conjugate temp1)%C))
        (C0, 0) in
    let scalarProdFullCSMAbsSquared :=
      real (scalarProdFullCSMperEigVal * conjugate scalarProdFullCSMperEigVal)%C in
    scalarProdReducedCSM
    + (scalarProdFullCSMAbsSquared - scalarProdDiagCSMperEigVal) * eigVal cntEigVal)
    0.

(** Every kernel of Formulations I to IV starts with a loop that builds its
    steering vector ([..._steerVec] below; for III and IV the loop adds up
    [helpNormalize] on the way), runs one of the four loops above on it and
    normalizes. *)

Definition _freqBeamformer_Formulation1AkaClassic_FullCSM_steerVec (nMics : nat)
    (distGridToArrayCenter : float64) (distGridToAllMics : nat -> float64)
    (waveNumber : float64) : nat -> complex128 :=
  for_range nMics (fun cntMics steerVec =>
    let expArg := float32 (waveNumber * distGridToAllMics cntMics) in
    upd1 steerVec cntMics (expMinusJ expArg))
    (fun _ => C0).

Definition _freqBeamformer_Formulation1AkaClassic_FullCSM
    (nMics : nat) (csm : nat -> nat -> complex128)
    (distGridToArrayCenter : float64) (distGridToAllMics : nat -> float64)
    (waveNumber signalLossNormalization : float64)
  : float64 :=
  let steerVec :=
    _freqBeamformer_Formulation1AkaClassic_FullCSM_steerVec nMics distGridToArrayCenter distGridToAllMics
      waveNumber in
  let scalarProd := reduce_FullCSM nMics csm steerVec in
  let normalizeFactor := INR nMics in
  scalarProd / (normalizeFactor * normalizeFactor) * signalLossNormalization.

Definition _freqBeamformer_Formulation1AkaClassic_CsmRemovedDiag_steerVec (nMics : nat)
    (distGridToArrayCenter : float64) (distGridToAllMics : nat -> float64)
    (waveNumber : float64) : nat -> complex128 :=
  for_range nMics (fun cntMics steerVec =>
    let expArg := float32 (waveNumber * distGridToAllMics cntMics) in
    upd1 steerVec cntMics (expMinusJ expArg))
    (fun _ => C0).

Definition _freqBeamformer_Formulation1AkaClassic_CsmRemovedDiag
    (nMics : nat) (csm : nat -> nat -> complex128)
    (distGridToArrayCenter : float64) (distGridToAllMics : nat -> float64)
    (waveNumber signalLossNormalization : float64)
  : float64 :=
  let steerVec :=
    _freqBeamformer_Formulation1AkaClassic_CsmRemovedDiag_steerVec nMics distGridToArrayCenter distGridToAllMics
      waveNumber in
  let scalarProd := reduce_CsmRemovedDiag nMics csm steerVec in
  let normalizeFactor := INR nMics in
  scalarProd / (normalizeFactor * normalizeFactor) * signalLossNormalization.

Definition _freqBeamformer_Formulation2AkaInverse_FullCSM_steerVec (nMics : nat)
    (distGridToArrayCenter : float64) (distGridToAllMics : nat -> float64)
    (waveNumber : float64) : nat -> complex128 :=
  for_range nMics (fun cntMics steerVec =>
    let expArg := float32 (waveNumber * distGridToAllMics cntMics) in
    upd1 steerVec cntMics ((expMinusJ expArg * RtoC (distGridToAllMics cntMics))%C))
    (fun _ => C0).

Definition _freqBeamformer_Formulation2AkaInverse_FullCSM
    (nMics : nat) (csm : nat -> nat -> complex128)
    (distGridToArrayCenter : float64) (distGridToAllMics : nat -> float64)
    (waveNumber signalLossNormalization : float64)
  : float64 :=
  let steerVec :=
    _freqBeamformer_Formulation2AkaInverse_FullCSM_steerVec nMics distGridToArrayCenter distGridToAllMics
      waveNumber in
  let scalarProd := reduce_FullCSM nMics csm steerVec in
  let normalizeFactor := INR nMics * distGridToArrayCenter in
  scalarProd / (normalizeFactor * normalizeFactor) * signalLossNormalization.

Definition _freqBeamformer_Formulation2AkaInverse_CsmRemovedDiag_steerVec (nMics : nat)
    (distGridToArrayCenter : float64) (distGridToAllMics : nat -> float64)
    (waveNumber : float64) : nat -> complex128 :=
  for_range nMics (fun cntMics steerVec =>
    let expArg := float32 (waveNumber * distGridToAllMics cntMics) in
    upd1 steerVec cntMics ((expMinusJ expArg * RtoC (distGridToAllMics cntMics))%C))
    (fun _ => C0).

Definition _freqBeamformer_Formulation2AkaInverse_CsmRemovedDiag
    (nMics : nat) (csm : nat -> nat -> complex128)
    (distGridToArrayCenter : float64) (distGridToAllMics : nat -> float64)
    (waveNumber signalLossNormalization : float64)
  : float64 :=
  let steerVec :=
    _freqBeamformer_Formulation2AkaInverse_CsmRemovedDiag_steerVec nMics distGridToArrayCenter distGridToAllMics
      waveNumber in
  let scalarProd := reduce_CsmRemovedDiag nMics csm steerVec in
  let normalizeFactor := INR nMics * distGridToArrayCenter in
  scalarProd / (normalizeFactor * normalizeFactor) * signalLossNormalization.

Definition _freqBeamformer_Formulation3AkaTrueLevel_FullCSM_steerVec (nMics : nat)
    (distGridToArrayCenter : float64) (distGridToAllMics : nat -> float64)
    (waveNumber : float64) : float64 * (nat -> complex128) :=
  for_range nMics (fun cntMics '(helpNormalize, steerVec) =>
    let helpNormalize :=
      helpNormalize + 1 / (distGridToAllMics cntMics * distGridToAllMics cntMics) in
    let expArg := float32 (waveNumber * distGridToAllMics cntMics) in
    (helpNormalize, upd1 steerVec cntMics (CdivR (expMinusJ expArg) (distGridToAllMics cntMics))))
    (0, fun _ => C0).

Definition _freqBeamformer_Formulation3AkaTrueLevel_FullCSM
    (nMics : nat) (csm : nat -> nat -> complex128)
    (distGridToArrayCenter : float64) (distGridToAllMics : nat -> float64)
    (waveNumber signalLossNormalization : float64)
  : float64 :=
  let '(helpNormalize, steerVec) :=
    _freqBeamformer_Formulation3AkaTrueLevel_FullCSM_steerVec nMics distGridToArrayCenter distGridToAllMics
      waveNumber in
  let scalarProd := reduce_FullCSM nMics csm steerVec in
  let normalizeFactor := distGridToArrayCenter * helpNormalize in
  scalarProd / (normalizeFactor * normalizeFactor) * signalLossNormalization.

Definition _freqBeamformer_Formulation3AkaTrueLevel_CsmRemovedDiag_steerVec (nMics : nat)
    (distGridToArrayCenter : float64) (distGridToAllMics : nat -> float64)
    (waveNumber : float64) : float64 * (nat -> complex128) :=
  for_range nMics (fun cntMics '(helpNormalize, steerVec) =>
    let helpNormalize :=
      helpNormalize + 1 / (distGridToAllMics cntMics * distGridToAllMics cntMics) in
    let expArg := float32 (waveNumber * distGridToAllMics cntMics) in
    (helpNormalize, upd1 steerVec cntMics (CdivR (expMinusJ expArg) (distGridToAllMics cntMics))))
    (0, fun _ => C0).

Definition _freqBeamformer_Formulation3AkaTrueLevel_CsmRemovedDiag
    (nMics : nat) (csm : nat -> nat -> complex128)
    (distGridToArrayCenter : float64) (distGridToAllMics : nat -> float64)
    (waveNumber signalLossNormalization : float64)
  : float64 :=
  let '(helpNormalize, steerVec) :=
    _freqBeamformer_Formulation3AkaTrueLevel_CsmRemovedDiag_steerVec nMics distGridToArrayCenter distGridToAllMics
      waveNumber in
  let scalarProd := reduce_CsmRemovedDiag nMics csm steerVec in
  let normalizeFactor := distGridToArrayCenter * helpNormalize in
  scalarProd / (normalizeFactor * normalizeFactor) * signalLossNormalization.

Definition _freqBeamformer_Formulation4AkaTrueLocation_FullCSM_steerVec (nMics : nat)
    (distGridToArrayCenter : float64) (distGridToAllMics : nat -> float64)
    (waveNumber : float64) : float64 * (nat -> complex128) :=
  for_range nMics (fun cntMics '(helpNormalize, steerVec) =>
    let helpNormalize :=
      helpNormalize + 1 / (distGridToAllMics cntMics * distGridToAllMics cntMics) in
    let expArg := float32 (waveNumber * distGridToAllMics cntMics) in
    (helpNormalize, upd1 steerVec cntMics (CdivR (expMinusJ expArg) (distGridToAllMics cntMics))))
    (0, fun _ => C0).

Definition _freqBeamformer_Formulation4AkaTrueLocation_FullCSM
    (nMics : nat) (csm : nat -> nat -> complex128)
    (distGridToArrayCenter : float64) (distGridToAllMics : nat -> float64)
    (waveNumber signalLossNormalization : float64)
  : float64 :=
  let '(helpNormalize, steerVec) :=
    _freqBeamformer_Formulation4AkaTrueLocation_FullCSM_steerVec nMics distGridToArrayCenter distGridToAllMics
      waveNumber in
  let scalarProd := reduce_FullCSM nMics csm steerVec in
  let normalizeFactor := INR nMics * helpNormalize in
  scalarProd / normalizeFactor * signalLossNormalization.

Definition _freqBeamformer_Formulation4AkaTrueLocation_CsmRemovedDiag_steerVec (nMics : nat)
    (distGridToArrayCenter : float64) (distGridToAllMics : nat -> float64)
    (waveNumber : float64) : float64 * (nat -> complex128) :=
  for_range nMics (fun cntMics '(helpNormalize, steerVec) =>
    let helpNormalize :=
      helpNormalize + 1 / (distGridToAllMics cntMics * distGridToAllMics cntMics) in
    let expArg := float32 (waveNumber * distGridToAllMics cntMics) in
    (helpNormalize, upd1 steerVec cntMics (CdivR (expMinusJ expArg) (distGridToAllMics cntMics))))
    (0, fun _ => C0).

Definition _freqBeamformer_Formulation4AkaTrueLocation_CsmRemovedDiag
    (nMics : nat) (csm : nat -> nat -> complex128)
    (distGridToArrayCenter : float64) (distGridToAllMics : nat -> float64)
    (waveNumber signalLossNormalization : float64)
  : float64 :=
  let '(helpNormalize, steerVec) :=
    _freqBeamformer_Formulation4AkaTrueLocation_CsmRemovedDiag_steerVec nMics distGridToArrayCenter distGridToAllMics
      waveNumber in
  let scalarProd := reduce_CsmRemovedDiag nMics csm steerVec in
  let normalizeFactor := INR nMics * helpNormalize in
  scalarProd / normalizeFactor * signalLossNormalization.

Definition _freqBeamformer_SpecificSteerVec_FullCSM
    (nMics : nat) (csm : nat -> nat -> complex128)
    (steerVec : nat -> complex128) (signalLossNormalization : float64)
  : float64 :=
  let scalarProd := reduce_FullCSM nMics csm steerVec in
  scalarProd * signalLossNormalization.

Definition _freqBeamformer_SpecificSteerVec_CsmRemovedDiag
    (nMics : nat) (csm : nat -> nat -> complex128)
    (steerVec : nat -> complex128) (signalLossNormalization : float64)
  : float64 :=
  let scalarProd := reduce_CsmRemovedDiag nMics csm steerVec in
  scalarProd * signalLossNormalization.

Definition _freqBeamformer_EigValProb_Formulation1AkaClassic_FullCSM_steerVec (nMics : nat)
    (distGridToArrayCenter : float64) (distGridToAllMics : nat -> float64)
    (waveNumber : float64) : nat -> complex128 :=
  for_range nMics (fun cntMics steerVec =>
    let expArg := float32 (waveNumber * distGridToAllMics cntMics) in
    upd1 steerVec cntMics (expMinusJ expArg))
    (fun _ => C0).

Definition _freqBeamformer_EigValProb_Formulation1AkaClassic_FullCSM
    (nEV nMics : nat) (eigVal : nat -> float64) (eigVec : nat -> nat -> complex128)
    (distGridToArrayCenter : float64) (distGridToAllMics : nat -> float64)
    (waveNumber signalLossNormalization : float64)
  : float64 :=
  let steerVec :=
    _freqBeamformer_EigValProb_Formulation1AkaClassic_FullCSM_steerVec nMics distGridToArrayCenter distGridToAllMics
      waveNumber in
  let scalarProdFullCSM :=
    reduce_EigValProb_FullCSM nEV nMics eigVal eigVec steerVec in
  let normalizeFactor := INR nMics in
  scalarProdFullCSM / (normalizeFactor * normalizeFactor) * signalLossNormalization.

Definition _freqBeamformer_EigValProb_Formulation1AkaClassic_CsmRemovedDiag_steerVec (nMics : nat)
    (distGridToArrayCenter : float64) (distGridToAllMics : nat -> float64)
    (waveNumber : float64) : nat -> complex128 :=
  for_range nMics (fun cntMics steerVec =>
    let expArg := float32 (waveNumber * (distGridToAllMics cntMics - distGridToArrayCenter)) in
    upd1 steerVec cntMics (expMinusJ expArg))
    (fun _ => C0).

Definition _freqBeamformer_EigValProb_Formulation1AkaClassic_CsmRemovedDiag
    (nEV nMics : nat) (eigVal : nat -> float64) (eigVec : nat -> nat -> complex128)
    (distGridToArrayCenter : float64) (distGridToAllMics : nat -> float64)
    (waveNumber signalLossNormalization : float64)
  : float64 :=
  let steerVec :=
    _freqBeamformer_EigValProb_Formulation1AkaClassic_CsmRemovedDiag_steerVec nMics distGridToArrayCenter distGridToAllMics
      waveNumber in
  let scalarProdReducedCSM :=
    reduce_EigValProb_CsmRemovedDiag nEV nMics eigVal eigVec steerVec in
  let normalizeFactor := INR nMics in
  scalarProdReducedCSM / (normalizeFactor * normalizeFactor) * signalLossNormalization.

Definition _freqBeamformer_EigValProb_Formulation2AkaInverse_FullCSM_steerVec (nMics : nat)
    (distGridToArrayCenter : float64) (distGridToAllMics : nat -> float64)
    (waveNumber : float64) : nat -> complex128 :=
  for_range nMics (fun cntMics steerVec =>
    let expArg := float32 (waveNumber * (distGridToAllMics cntMics - distGridToArrayCenter)) in
    upd1 steerVec cntMics ((expMinusJ expArg * RtoC (distGridToAllMics cntMics))%C))
    (fun _ => C0).

Definition _freqBeamformer_EigValProb_Formulation2AkaInverse_FullCSM
    (nEV nMics : nat) (eigVal : nat -> float64) (eigVec : nat -> nat -> complex128)
    (distGridToArrayCenter : float64) (distGridToAllMics : nat -> float64)
    (waveNumber signalLossNormalization : float64)
  : float64 :=
  let steerVec :=
    _freqBeamformer_EigValProb_Formulation2AkaInverse_FullCSM_steerVec nMics distGridToArrayCenter distGridToAllMics
      waveNumber in
  let scalarProdFullCSM :=
    reduce_EigValProb_FullCSM nEV nMics eigVal eigVec steerVec in
  let normalizeFactor := INR nMics * distGridToArrayCenter in
  scalarProdFullCSM / (normalizeFactor * normalizeFactor) * signalLossNormalization.

Definition _freqBeamformer_EigValProb_Formulation2AkaInverse_CsmRemovedDiag_steerVec (nMics : nat)
    (distGridToArrayCenter : float64) (distGridToAllMics : nat -> float64)
    (waveNumber : float64) : nat -> complex128 :=
  for_range nMics (fun cntMics steerVec =>
    let expArg := float32 (waveNumber * (distGridToAllMics cntMics - distGridToArrayCenter)) in
    upd1 steerVec cntMics ((expMinusJ expArg * RtoC (distGridToAllMics cntMics))%C))
    (fun _ => C0).

Definition _freqBeamformer_EigValProb_Formulation2AkaInverse_CsmRemovedDiag
    (nEV nMics : nat) (eigVal : nat -> float64) (eigVec : nat -> nat -> complex128)
    (distGridToArrayCenter : float64) (distGridToAllMics : nat -> float64)
    (waveNumber signalLossNormalization : float64)
  : float64 :=
  let steerVec :=
    _freqBeamformer_EigValProb_Formulation2AkaInverse_CsmRemovedDiag_steerVec nMics distGridToArrayCenter distGridToAllMics
      waveNumber in
  let scalarProdReducedCSM :=
    reduce_EigValProb_CsmRemovedDiag nEV nMics eigVal eigVec steerVec in
  let normalizeFactor := INR nMics * distGridToArrayCenter in
  scalarProdReducedCSM / (normalizeFactor * normalizeFactor) * signalLossNormalization.

Definition _freqBeamformer_EigValProb_Formulation3AkaTrueLevel_FullCSM_steerVec (nMics : nat)
    (distGridToArrayCenter : float64) (distGridToAllMics : nat -> float64)
    (waveNumber : float64) : float64 * (nat -> complex128) :=
  for_range nMics (fun cntMics '(helpNormalize, steerVec) =>
    let helpNormalize :=
      helpNormalize + 1 / (distGridToAllMics cntMics * distGridToAllMics cntMics) in
    let expArg := float32 (waveNumber * (distGridToAllMics cntMics - distGridToArrayCenter)) in
    (helpNormalize, upd1 steerVec cntMics (CdivR (expMinusJ expArg) (distGridToAllMics cntMics))))
    (0, fun _ => C0).

Definition _freqBeamformer_EigValProb_Formulation3AkaTrueLevel_FullCSM
    (nEV nMics : nat) (eigVal : nat -> float64) (eigVec : nat -> nat -> complex128)
    (distGridToArrayCenter : float64) (distGridToAllMics : nat -> float64)
    (waveNumber signalLossNormalization : float64)
  : float64 :=
  let '(helpNormalize, steerVec) :=
    _freqBeamformer_EigValProb_Formulation3AkaTrueLevel_FullCSM_steerVec nMics distGridToArrayCenter distGridToAllMics
      waveNumber in
  let scalarProdFullCSM :=
    reduce_EigValProb_FullCSM nEV nMics eigVal eigVec steerVec in
  let normalizeFactor := distGridToArrayCenter * helpNormalize in
  scalarProdFullCSM / (normalizeFactor * normalizeFactor) * signalLossNormalization.

Definition _freqBeamformer_EigValProb_Formulation3AkaTrueLevel_CsmRemovedDiag_steerVec (nMics : nat)
    (distGridToArrayCenter : float64) (distGridToAllMics : nat -> float64)
    (waveNumber : float64) : float64 * (nat -> complex128) :=
  for_range nMics (fun cntMics '(helpNormalize, steerVec) =>
    let helpNormalize :=
      helpNormalize + 1 / (distGridToAllMics cntMics * distGridToAllMics cntMics) in
    let expArg := float32 (waveNumber * (distGridToAllMics cntMics - distGridToArrayCenter)) in
    (helpNormalize, upd1 steerVec cntMics (CdivR (expMinusJ expArg) (distGridToAllMics cntMics))))
    (0, fun _ => C0).

Definition _freqBeamformer_EigValProb_Formulation3AkaTrueLevel_CsmRemovedDiag
    (nEV nMics : nat) (eigVal : nat -> float64) (eigVec : nat -> nat -> complex128)
    (distGridToArrayCenter : float64) (distGridToAllMics : nat -> float64)
    (waveNumber signalLossNormalization : float64)
  : float64 :=
  let '(helpNormalize, steerVec) :=
    _freqBeamformer_EigValProb_Formulation3AkaTrueLevel_CsmRemovedDiag_steerVec nMics distGridToArrayCenter distGridToAllMics
      waveNumber in
  let scalarProdReducedCSM :=
    reduce_EigValProb_CsmRemovedDiag nEV nMics eigVal eigVec steerVec in
  let normalizeFactor := distGridToArrayCenter * helpNormalize in
  scalarProdReducedCSM / (normalizeFactor * normalizeFactor) * signalLossNormalization.

Definition _freqBeamformer_EigValProb_Formulation4AkaTrueLocation_FullCSM_steerVec (nMics : nat)
    (distGridToArrayCenter : float64) (distGridToAllMics : nat -> float64)
    (waveNumber : float64) : float64 * (nat -> complex128) :=
  for_range nMics (fun cntMics '(helpNormalize, steerVec) =>
    let helpNormalize :=
      helpNormalize + 1 / (distGridToAllMics cntMics * distGridToAllMics cntMics) in
    let expArg := float32 (waveNumber * (distGridToAllMics cntMics - distGridToArrayCenter)) in
    (helpNormalize, upd1 steerVec cntMics (CdivR (expMinusJ expArg) (distGridToAllMics cntMics))))
    (0, fun _ => C0).

Definition _freqBeamformer_EigValProb_Formulation4AkaTrueLocation_FullCSM
    (nEV nMics : nat) (eigVal : nat -> float64) (eigVec : nat -> nat -> complex128)
    (distGridToArrayCenter : float64) (distGridToAllMics : nat -> float64)
    (waveNumber signalLossNormalization : float64)
  : float64 :=
  let '(helpNormalize, steerVec) :=
    _freqBeamformer_EigValProb_Formulation4AkaTrueLocation_FullCSM_steerVec nMics distGridToArrayCenter distGridToAllMics
      waveNumber in
  let scalarProdFullCSM :=
    reduce_EigValProb_FullCSM nEV nMics eigVal eigVec steerVec in
  let normalizeFactor := INR nMics * helpNormalize in
  scalarProdFullCSM / normalizeFactor * signalLossNormalization.

Definition _freqBeamformer_EigValProb_Formulation4AkaTrueLocation_CsmRemovedDiag_steerVec (nMics : nat)
    (distGridToArrayCenter : float64) (distGridToAllMics : nat -> float64)
    (waveNumber : float64) : float64 * (nat -> complex128) :=
  for_range nMics (fun cntMics '(helpNormalize, steerVec) =>
    let helpNormalize :=
      helpNormalize + 1 / (distGridToAllMics cntMics * distGridToAllMics cntMics) in
    let expArg := float32 (waveNumber * (distGridToAllMics cntMics - distGridToArrayCenter)) in
    (helpNormalize, upd1 steerVec cntMics (CdivR (expMinusJ expArg) (distGridToAllMics cntMics))))
    (0, fun _ => C0).

Definition _freqBeamformer_EigValProb_Formulation4AkaTrueLocation_CsmRemovedDiag
    (nEV nMics : nat) (eigVal : nat -> float64) (eigVec : nat -> nat -> complex128)
    (distGridToArrayCenter : float64) (distGridToAllMics : nat -> float64)
    (waveNumber signalLossNormalization : float64)
  : float64 :=
  let '(helpNormalize, steerVec) :=
    _freqBeamformer_EigValProb_Formulation4AkaTrueLocation_CsmRemovedDiag_steerVec nMics distGridToArrayCenter distGridToAllMics
      waveNumber in
  let scalarProdReducedCSM :=
    reduce_EigValProb_CsmRemovedDiag nEV nMics eigVal eigVec steerVec in
  let normalizeFactor := INR nMics * helpNormalize in
  scalarProdReducedCSM / normalizeFactor * signalLossNormalization.

Definition _freqBeamformer_EigValProb_SpecificSteerVec_FullCSM
    (nEV nMics : nat) (eigVal : nat -> float64) (eigVec : nat -> nat -> complex128)
    (steerVec : nat -> complex128) (signalLossNormalization : float64)
  : float64 :=
  let scalarProdFullCSM :=
    reduce_EigValProb_FullCSM nEV nMics eigVal eigVec steerVec in
  scalarProdFullCSM * signalLossNormalization.

Definition _freqBeamformer_EigValProb_SpecificSteerVec_CsmRemovedDiag
    (nEV nMics : nat) (eigVal : nat -> float64) (eigVec : nat -> nat -> complex128)
    (steerVec : nat -> complex128) (signalLossNormalization : float64)
  : float64 :=
  let scalarProdReducedCSM :=
    reduce_EigValProb_CsmRemovedDiag nEV nMics eigVal eigVec steerVec in
  scalarProdReducedCSM * signalLossNormalization.


(** ** [fastFuncs.beamformerFreq] *)

(** The values [steerVecType] takes: a Python int or a Python string. *)
Inductive steerVecType : Set :=
| SteerInt (n : Z)
| SteerStr (s : string).

Definition is_specific (t : steerVecType) : bool :=
  match t with
  | SteerStr s => String.eqb s "specific"
  | SteerInt _ => false
  end.

(** The four shapes of [inputTuple] the docstring lists. *)
Inductive inputTuple : Type :=
| Input_Csm (distGridToArrayCenter : nat -> float64)
    (distGridToAllMics : nat -> nat -> float64)
    (wavenumber : nat -> complex128)
    (csm : nat -> nat -> nat -> complex128)
| Input_Specific_Csm (steeringVector : nat -> nat -> nat -> complex128)
    (csm : nat -> nat -> nat -> complex128)
| Input_Eig (distGridToArrayCenter : nat -> float64)
    (distGridToAllMics : nat -> nat -> float64)
    (wavenumber : nat -> complex128)
    (eigValues : nat -> nat -> float64)
    (eigVectors : nat -> nat -> nat -> complex128)
| Input_Specific_Eig (steeringVector : nat -> nat -> nat -> complex128)
    (eigValues : nat -> nat -> float64)
    (eigVectors : nat -> nat -> nat -> complex128).

(** The values of [beamformerDict], by signature. *)
Inductive coreFunc : Type :=
| Core_Csm (f : nat -> (nat -> nat -> complex128) -> float64 ->
                (nat -> float64) -> float64 -> float64 -> float64)
| Core_Specific_Csm (f : nat -> (nat -> nat -> complex128) ->
                (nat -> complex128) -> float64 -> float64)
| Core_Eig (f : nat -> nat -> (nat -> float64) -> (nat -> nat -> complex128) ->
                float64 -> (nat -> float64) -> float64 -> float64 -> float64)
| Core_Specific_Eig (f : nat -> nat -> (nat -> float64) ->
                (nat -> nat -> complex128) -> (nat -> complex128) ->
                float64 -> float64).

(** [beamformerDict[(boolIsEigValProb, steerVecType, boolRemovedDiagOfCSM)]];
    [None] is the [KeyError] of a key the dictionary does not hold. *)
Definition beamformerDict (boolIsEigValProb : bool) (t : steerVecType)
    (boolRemovedDiagOfCSM : bool) : option coreFunc :=
  match boolIsEigValProb, t, boolRemovedDiagOfCSM with
  | false, SteerInt 1, false =>
      Some (Core_Csm _freqBeamformer_Formulation1AkaClassic_FullCSM)
  | false, SteerInt 1, true =>
      Some (Core_Csm _freqBeamformer_Formulation1AkaClassic_CsmRemovedDiag)
  | false, SteerInt 2, false =>
      Some (Core_Csm _freqBeamformer_Formulation2AkaInverse_FullCSM)
  | false, SteerInt 2, true =>
      Some (Core_Csm _freqBeamformer_Formulation2AkaInverse_CsmRemovedDiag)
  | false, SteerInt 3, false =>
      Some (Core_Csm _freqBeamformer_Formulation3AkaTrueLevel_FullCSM)
  | false, SteerInt 3, true =>
      Some (Core_Csm _freqBeamformer_Formulation3AkaTrueLevel_CsmRemovedDiag)
  | false, SteerInt 4, false =>
      Some (Core_Csm _freqBeamformer_Formulation4AkaTrueLocation_FullCSM)
  | false, SteerInt 4, true =>
      Some (Core_Csm _freqBeamformer_Formulation4AkaTrueLocation_CsmRemovedDiag)
  | true, SteerInt 1, false =>
      Some (Core_Eig _freqBeamformer_EigValProb_Formulation1AkaClassic_FullCSM)
  | true, SteerInt 1, true =>
      Some (Core_Eig _freqBeamformer_EigValProb_Formulation1AkaClassic_CsmRemovedDiag)
  | true, SteerInt 2, false =>
      Some (Core_Eig _freqBeamformer_EigValProb_Formulation2AkaInverse_FullCSM)
  | true, SteerInt 2, true =>
      Some (Core_Eig _freqBeamformer_EigValProb_Formulation2AkaInverse_CsmRemovedDiag)
  | true, SteerInt 3, false =>
      Some (Core_Eig _freqBeamformer_EigValProb_Formulation3AkaTrueLevel_FullCSM)
  | true, SteerInt 3, true =>
      Some (Core_Eig _freqBeamformer_EigValProb_Formulation3AkaTrueLevel_CsmRemovedDiag)
  | true, SteerInt 4, false =>
      Some (Core_Eig _freqBeamformer_EigValProb_Formulation4AkaTrueLocation_FullCSM)
  | true, SteerInt 4, true =>
      Some (Core_Eig _freqBeamformer_EigValProb_Formulation4AkaTrueLocation_CsmRemovedDiag)
  | false, SteerStr s, false =>
      if String.eqb s "specific"
      then Some (Core_Specific_Csm _freqBeamformer_SpecificSteerVec_FullCSM)
      else None
  | false, SteerStr s, true =>
      if String.eqb s "specific"
      then Some (Core_Specific_Csm _freqBeamformer_SpecificSteerVec_CsmRemovedDiag)
      else None
  | true, SteerStr s, false =>
      if String.eqb s "specific"
      then Some (Core_Specific_Eig _freqBeamformer_EigValProb_SpecificSteerVec_FullCSM)
      else None
  | true, SteerStr s, true =>
      if String.eqb s "specific"
      then Some (Core_Specific_Eig
                   _freqBeamformer_EigValProb_SpecificSteerVec_CsmRemovedDiag)
      else None
  | _, SteerInt _, _ => None
  end.

(** What [guvectorize] does with a core whose output is one number per grid
    point: it runs the core at every grid point and stores into [result]. *)
Definition gufunc_loop (nGridPoints : nat) (core : nat -> float64)
    (result : nat -> float64) : nat -> float64 :=
  for_range nGridPoints (fun cntGrid result => upd1 result cntGrid (core cntGrid))
    result.

(** [a[i, :] = row] *)
Definition upd_row {A : Type} (a : nat -> nat -> A) (i : nat) (row : nat -> A)
  : nat -> nat -> A :=
  fun i' j => if Nat.eqb i' i then row j else a i' j.

(** [nFreqs], [nGridPoints] are the shapes the source reads from
    [wavenumber]/[distGridToAllMics] (or [steerVec]); [nMics] and [nEV] are
    the shapes the kernels read.  [None] stands for the exception of an
    unknown key, or of an [inputTuple] that is not the one the key asks for. *)
Definition beamformerFreq (nFreqs nGridPoints nMics nEV : nat)
    (boolIsEigValProb : bool) (t : steerVecType) (boolRemovedDiagOfCSM : bool)
    (normFactor : float64) (input : inputTuple)
  : option (nat -> nat -> float64) :=
  match beamformerDict boolIsEigValProb t boolRemovedDiagOfCSM with
  | None => None
  | Some coreFunc =>
      let run (core : nat -> nat -> float64) :=
        Some (for_range nFreqs (fun cntFreqs beamformOutput =>
                let result :=
                  gufunc_loop nGridPoints (core cntFreqs) (fun _ => 0) in
                upd_row beamformOutput cntFreqs result)
                (fun _ _ => 0)) in
      match coreFunc, input with
      | Core_Specific_Eig f, Input_Specific_Eig steerVec eigVal eigVec =>
          run (fun cntFreqs cntGrid =>
                 f nEV nMics (eigVal cntFreqs) (eigVec cntFreqs)
                   (steerVec cntFreqs cntGrid) normFactor)
      | Core_Specific_Csm f, Input_Specific_Csm steerVec csm =>
          run (fun cntFreqs cntGrid =>
                 f nMics (csm cntFreqs) (steerVec cntFreqs cntGrid) normFactor)
      | Core_Eig f,
        Input_Eig distGridToArrayCenter distGridToAllMics wavenumber eigVal eigVec =>
          run (fun cntFreqs cntGrid =>
                 f nEV nMics (eigVal cntFreqs) (eigVec cntFreqs)
                   (distGridToArrayCenter cntGrid) (distGridToAllMics cntGrid)
                   (imag (wavenumber cntFreqs)) normFactor)
      | Core_Csm f,
        Input_Csm distGridToArrayCenter distGridToAllMics wavenumber csm =>
          run (fun cntFreqs cntGrid =>
                 f nMics (csm cntFreqs)
                   (distGridToArrayCenter cntGrid) (distGridToAllMics cntGrid)
                   (imag (wavenumber cntFreqs)) normFactor)
      | _, _ => None
      end
  end.

(** ** [fastFuncs.transfer] *)

(** The core fills the row [result] of one grid point. *)
Definition _transferCoreFunc (nMics : nat)
    (distGridToArrayCenter : float64) (distGridToAllMics : nat -> float64)
    (waveNumber : float64) (result : nat -> complex128) : nat -> complex128 :=
  for_range nMics (fun cntMics result =>
    let expArg :=
      float32 (waveNumber * (distGridToAllMics cntMics - distGridToArrayCenter)) in
    upd1 result cntMics
      (CdivR (expMinusJ expArg * RtoC distGridToArrayCenter)%C
         (distGridToAllMics cntMics)))
    result.

(** [a[i, :, :] = slice] *)
Definition upd_slice {A : Type} (a : nat -> nat -> nat -> A) (i : nat)
    (slice : nat -> nat -> A) : nat -> nat -> nat -> A :=
  fun i' j k => if Nat.eqb i' i then slice j k else a i' j k.

Definition transfer (nFreqs nGridPoints nMics : nat)
    (distGridToArrayCenter : nat -> float64)
    (distGridToAllMics : nat -> nat -> float64)
    (wavenumber : nat -> complex128) : nat -> nat -> nat -> complex128 :=
  for_range nFreqs (fun cntFreqs transferOutput =>
    let result :=
      for_range nGridPoints (fun cntGrid result =>
        upd_row result cntGrid
          (_transferCoreFunc nMics (distGridToArrayCenter cntGrid)
             (distGridToAllMics cntGrid) (imag (wavenumber cntFreqs))
             (result cntGrid)))
        (fun _ _ => C0) in
    upd_slice transferOutput cntFreqs result)
    (fun _ _ _ => C0).

End Kernels.

End fastFuncs.

(** ** [beamfpy.sources]

    An array over the microphones (shape [(num_mics,)]) is a list with one
    entry per microphone, and numpy's elementwise operations are [map] and
    [map2]; an array of shape [(3, num_mics)] is a list of points.  The
    generator [result] is the list of the blocks it yields, each block as it
    is at the time of the [yield]: [out] is one buffer, written again for
    every block. *)

Module sources.

Definition vec3 : Set := (R * R * R)%type.

Definition sub3 (a b : vec3) : vec3 :=
  let '(a0, a1, a2) := a in let '(b0, b1, b2) := b in (a0 - b0, a1 - b1, a2 - b2).
Definition dot3 (a b : vec3) : R :=
  let '(a0, a1, a2) := a in let '(b0, b1, b2) := b in a0 * b0 + a1 * b1 + a2 * b2.
Definition div3 (a : vec3) (x : R) : vec3 :=
  let '(a0, a1, a2) := a in (a0 / x, a1 / x, a2 / x).
(** [sqrt((a*a).sum(0))] *)
Definition norm3 (a : vec3) : R := sqrt (dot3 a a).

Fixpoint map2 {A B C : Type} (f : A -> B -> C) (l : list A) (l' : list B)
  : list C :=
  match l, l' with
  | a :: l, b :: l' => f a b :: map2 f l l'
  | _, _ => []
  end.

(** The exceptions that can leave a generator. *)
Inductive exn : Set := IndexError | NameError | ValueError | ZeroDivisionError.

(** [array(x, dtype=long)]: the conversion drops the fractional part. *)
Definition to_long (x : R) : Z :=
  if Rle_dec 0 x then Int_part x else (- Int_part (- x))%Z.

(** [signal[i]] for one integer: numpy counts a negative index from the end
    and raises [IndexError] (here [None]) outside [-len, len). *)
Definition getitem (signal : list R) (i : Z) : option R :=
  let n := Z.of_nat (List.length signal) in
  if ((0 <=? i) && (i <? n))%Z then nth_error signal (Z.to_nat i)
  else if ((- n <=? i) && (i <? 0))%Z then nth_error signal (Z.to_nat (n + i))
  else None.

(** [signal[idx]] for an integer array: one out of range index fails the
    whole lookup. *)
Fixpoint take (signal : list R) (idx : list Z) : option (list R) :=
  match idx with
  | [] => Some []
  | i :: idx =>
      match getitem signal i, take signal idx with
      | Some x, Some xs => Some (x :: xs)
      | _, _ => None
      end
  end.

(** The block a [yield out[:i]] hands over. *)
Definition rows (out : nat -> list R) (i : nat) : list (list R) :=
  map out (seq 0 i).

(** The traits of a [PointSource] that [result] reads.  [usignal] is
    [self.signal.usignal], [numsamples] and [sample_freq] are delegated to
    the signal, [mpos] is [self.mpos.mpos] with one point per microphone, and
    [env_r] is [self.env.r]; [timedomain], [microphones], [environments] and
    [signals] are not part of these sources. *)
Record PointSource : Type := {
  usignal : Z -> list R;
  numsamples : nat;
  sample_freq : R;
  loc : vec3;
  mpos : list vec3;
  env_r : R -> vec3 -> list vec3 -> list R;
  c : R;
  start_t : R;
  start : R;
  up : Z
}.

(** [signal[array(0.5+ind*self.up, dtype=long)]] *)
Definition lookup (self : PointSource) (signal ind : list R) : option (list R) :=
  take signal (map (fun x => to_long (0.5 + x * IZR (up self))) ind).

(** The loop [while n: ...] of [PointSource.result], with the final
    [yield out[:i]].  [out[i] = ...] raises [IndexError] when [i] is not
    below [num]; the handler breaks then, as it does for [signal[...]]. *)
Fixpoint PointSource_loop (self : PointSource) (num : nat)
    (signal rm : list R) (n : nat) (ind : list R) (i : nat)
    (out : nat -> list R) : list (list (list R)) :=
  match n with
  | O => [rows out i]
  | S n =>
      match lookup self signal ind with
      | None => [rows out i]
      | Some samples =>
          if (i <? num)%nat then
            let out := upd1 out i (map2 Rdiv samples rm) in
            let ind := map (fun x => x + 1) ind in
            let i := S i in
            if (i =? num)%nat
            then rows out num :: PointSource_loop self num signal rm n ind O out
            else PointSource_loop self num signal rm n ind i out
          else [rows out i]
      end
  end.

(** [PointSource.result(self, num)]; [empty] is the content of the buffer
    [empty((num, self.numchannels))], whatever the memory holds. *)
Definition PointSource_result (self : PointSource) (num : nat)
    (empty : nat -> list R) : list (list (list R)) :=
  let signal := usignal self (up self) in
  let out := empty in
  let rm := env_r self (c self) (loc self) (mpos self) in
  let ind :=
    map (fun r => (- r / c self - start_t self + start self) * sample_freq self)
      rm in
  let i := O in
  let n := numsamples self in
  PointSource_loop self num signal rm n ind i out.

(** A [MovingPointSource] is a [PointSource] with a trajectory:
    [location te] is [tr.location(te)] and [velocity te] is
    [tr.location(te, der=1)], for one emission time. *)
Record MovingPointSource : Type := {
  base :> PointSource;
  location : R -> vec3;
  velocity : R -> vec3
}.

(** [abs(eps).max()]; numpy raises [ValueError] on an empty array. *)
Definition max_abs (eps : list R) : option R :=
  match eps with
  | [] => None
  | x :: xs => Some (fold_left Rmax (map Rabs xs) (Rabs x))
  end.

(** The body of the Newton-Raphson loop: the new [rm], [eps] and [te]. *)
Definition newton_body (self : MovingPointSource) (c0 : R) (t te : list R)
  : list R * list R * list R :=
  let loc := map (location self) te in
  let rm := map2 sub3 loc (mpos self) in
  let rm := map norm3 rm in
  let loc := map (fun l => div3 l (norm3 l)) loc in
  let der := map (velocity self) te in
  let Mr := map (fun x => x / c0) (map2 dot3 der loc) in
  let eps :=
    map2 Rdiv (map2 Rminus (map2 Rplus te (map (fun r => r / c0) rm)) t)
      (map (fun x => 1 + x) Mr) in
  let te := map2 Rminus te eps in
  (rm, eps, te).

(** [while abs(eps).max()>epslim and j<100]; [fuel] is [100 - j], and [rm]
    is [None] as long as the name is not bound.  The result is [None] when
    the loop test raises. *)
Fixpoint newton (self : MovingPointSource) (epslim c0 : R) (t : list R)
    (fuel : nat) (rm : option (list R)) (eps te : list R)
  : option (option (list R) * list R * list R) :=
  match max_abs eps with
  | None => None
  | Some m =>
      if Rgt_dec m epslim then
        match fuel with
        | O => Some (rm, eps, te)
        | S fuel =>
            let '(rm', eps', te') := newton_body self c0 t te in
            newton self epslim c0 t fuel (Some rm') eps' te'
        end
      else Some (rm, eps, te)
  end.

(** The loop [while n: ...] of [MovingPointSource.result], with the final
    [yield out[:i]]: the blocks yielded, and the exception that ended the
    generator, if one did. *)
Fixpoint MovingPointSource_loop (self : MovingPointSource) (num : nat)
    (signal : list R) (epslim c0 : R) (n : nat) (t : list R)
    (rm : option (list R)) (i : nat) (out : nat -> list R)
  : list (list (list R)) * option exn :=
  match n with
  | O => ([rows out i], None)
  | S n =>
      let eps := map (fun _ => 1) (mpos self) in
      let te := t in
      match newton self epslim c0 t 100 rm eps te with
      | None => ([], Some ValueError)
      | Some (rm, eps, te) =>
          let t := map (fun x => x + 1 / sample_freq self) t in
          let ind :=
            map (fun x => (x - start_t self + start self) * sample_freq self)
              te in
          match lookup self signal ind with
          | None => ([rows out i], None)
          | Some samples =>
              match rm with
              | None => ([], Some NameError)
              | Some rmv =>
                  if (i <? num)%nat then
                    let out := upd1 out i (map2 Rdiv samples rmv) in
                    let i := S i in
                    if (i =? num)%nat
                    then
                      let '(blocks, e) :=
                        MovingPointSource_loop self num signal epslim c0 n t
                          rm O out in
                      (rows out num :: blocks, e)
                    else
                      MovingPointSource_loop self num signal epslim c0 n t
                        rm i out
                  else ([rows out i], None)
              end
          end
      end
  end.

(** [MovingPointSource.result(self, num)].  [0.1/self.up/self.sample_freq]
    divides Python numbers, which raises on a zero divisor. *)
Definition MovingPointSource_result (self : MovingPointSource) (num : nat)
    (empty : nat -> list R) : list (list (list R)) * option exn :=
  let signal := usignal self (up self) in
  let out := empty in
  let t := map (fun _ => start self * 1) (mpos self) in
  let i := O in
  if (up self =? 0)%Z then ([], Some ZeroDivisionError)
  else if Req_dec_T (sample_freq self) 0 then ([], Some ZeroDivisionError)
  else
    let epslim := 0.1 / IZR (up self) / sample_freq self in
    let c0 := c self in
    let n := numsamples self in
    MovingPointSource_loop self num signal epslim c0 n t None i out.

End sources.

(** * Vocabulary of the specification

    The quantities the specification names and the source has no function
    for: sums, the Hermitian completion of an upper triangle, the quadratic
    form [h^H C h], the spectral reconstruction of a csm and the steering
    vectors and normalizations of Formulations I to IV as section 4.2 of the
    specification gives them. *)

Definition Cone : complex128 := Cplx 1 0.
Definition Copp (a : complex128) : complex128 := Cplx (- real a) (- imag a).

(** A complex number times a real one. *)
Definition CmulR (a : complex128) (x : R) : complex128 :=
  Cplx (real a * x) (imag a * x).

(** [|z|^2] *)
Definition Cnorm2 (a : complex128) : R := real a * real a + imag a * imag a.

(** The complex exponential. *)
Definition Cexp (z : complex128) : complex128 :=
  Cplx (exp (real z) * cos (imag z)) (exp (real z) * sin (imag z)).

(** Sums over [0 <= i < n]. *)
Definition Csum (n : nat) (f : nat -> complex128) : complex128 :=
  for_range n (fun i acc => (acc + f i)%C) C0.
Definition Rsum (n : nat) (f : nat -> R) : R :=
  for_range n (fun i acc => acc + f i) 0.

(** The matrix whose upper triangle is the one of [csm] and whose strict
    lower triangle is the conjugate transpose of the strict upper one. *)
Definition hermitian_completion (csm : nat -> nat -> complex128)
  : nat -> nat -> complex128 :=
  fun r c => if (r <=? c)%nat then csm r c else conjugate (csm c r).

(** [h^H . C . h] for [nMics] microphones. *)
Definition quadratic_form (nMics : nat) (C : nat -> nat -> complex128)
    (h : nat -> complex128) : complex128 :=
  Csum nMics (fun r => Csum nMics (fun c => (conjugate (h r) * C r c * h c)%C)).

(** [sum_i eigVal[i] * eigVec[:, i] * eigVec[:, i]^H] *)
Definition spectral_reconstruction (nEV : nat) (eigVal : nat -> R)
    (eigVec : nat -> nat -> complex128) : nat -> nat -> complex128 :=
  fun r c =>
    Csum nEV (fun i => (RtoC (eigVal i) * eigVec r i * conjugate (eigVec c i))%C).

(** [sum_m csm[m, m] * |steer[m]|^2] *)
Definition diagonal_contribution (nMics : nat) (csm : nat -> nat -> complex128)
    (steer : nat -> complex128) : complex128 :=
  Csum nMics (fun m => CmulR (csm m m) (Cnorm2 (steer m))).

(** [sum_i eigVal[i] * sum_m |conj(eigVec[m, i]) * steer[m]|^2] *)
Definition eig_diagonal_contribution (nEV nMics : nat) (eigVal : nat -> R)
    (eigVec : nat -> nat -> complex128) (steer : nat -> complex128) : R :=
  Rsum nEV (fun i =>
    eigVal i * Rsum nMics (fun m => Cnorm2 (conjugate (eigVec m i) * steer m)%C)).

(** [sum_i eigVal[i] * |sum_m conj(eigVec[m, i]) * steer[m]|^2] *)
Definition eig_power (nEV nMics : nat) (eigVal : nat -> R)
    (eigVec : nat -> nat -> complex128) (steer : nat -> complex128) : R :=
  Rsum nEV (fun i =>
    eigVal i * Cnorm2 (Csum nMics (fun m => (conjugate (eigVec m i) * steer m)%C))).

Section Formulations.

Variable float32 : R -> R.

(** The phase of a phasor, rounded: [k * d[m]], or [k * (d[m] - d0)] when
    the distance is taken relative to the array center. *)
Definition phase_argument (centered : bool) (k d0 : R) (d : nat -> R) (m : nat)
  : R :=
  float32 (k * (if centered then d m - d0 else d m)).

(** The steering vector of formulation [t]: the phasor [exp(-j phase)],
    times [d[m]] for II, divided by [d[m]] for III and IV. *)
Definition steering_vector (t : Z) (centered : bool) (k d0 : R) (d : nat -> R)
  : nat -> complex128 :=
  fun m =>
    let phasor := Cexp (Ci * RtoC (- phase_argument centered k d0 d m)) in
    match t with
    | 2%Z => (phasor * RtoC (d m))%C
    | 3%Z | 4%Z => CdivR phasor (d m)
    | _ => phasor
    end.

End Formulations.

(** What the assembled scalar of formulation [t] is divided by. *)
Definition normalization (t : Z) (nMics : nat) (d0 : R) (d : nat -> R) : R :=
  let helpNormalize := Rsum nMics (fun m => 1 / (d m * d m)) in
  match t with
  | 1%Z => INR nMics * INR nMics
  | 2%Z => (INR nMics * d0) * (INR nMics * d0)
  | 3%Z => (d0 * helpNormalize) * (d0 * helpNormalize)
  | 4%Z => INR nMics * helpNormalize
  | _ => 1
  end.

(** Whether the eigenvalue kernel of formulation [z] takes the phase relative
    to the array center: of the eight, the full-csm kernel of Formulation I
    alone does not. *)
Definition EigValProb_centered (z : Z) (removedDiag : bool) : bool :=
  negb ((z =? 1)%Z && negb removedDiag).

(** ** Point sources

    The rows a generator produces, one per receiving time, without the
    blocks: generation ends with the first row the signal has no sample
    for, or after [n] rows. *)

Section PointSources.

Import sources.

Fixpoint PointSource_samples (self : PointSource)
    (signal rm : list R) (n : nat) (ind : list R) : list (list R) :=
  match n with
  | O => []
  | S n =>
      match lookup self signal ind with
      | None => []
      | Some samples =>
          map2 Rdiv samples rm
          :: PointSource_samples self signal rm n (map (fun x => x + 1) ind)
      end
  end.

Fixpoint MovingPointSource_samples (self : MovingPointSource)
    (signal : list R) (epslim c0 : R) (n : nat) (t : list R)
    (rm : option (list R)) : list (list R) :=
  match n with
  | O => []
  | S n =>
      match newton self epslim c0 t 100 rm
              (map (fun _ => 1) (mpos self)) t with
      | Some (Some rmv, _, te) =>
          let ind :=
            map (fun x => (x - start_t self + start self)
                          * sample_freq self) te in
          match lookup self signal ind with
          | None => []
          | Some samples =>
              map2 Rdiv samples rmv
              :: MovingPointSource_samples self signal epslim c0 n
                   (map (fun x => x + 1 / sample_freq self) t)
                   (Some rmv)
          end
      | _ => []
      end
  end.


(** One run of the body of the Newton-Raphson loop on the state
    [(rm, eps, te)], and [k] runs. *)
Definition newton_step (self : MovingPointSource) (c0 : R) (t : list R)
    (st : option (list R) * list R * list R)
  : option (list R) * list R * list R :=
  let '(_, _, te) := st in
  let '(rm', eps', te') := newton_body self c0 t te in
  (Some rm', eps', te').

Fixpoint newton_iterate (self : MovingPointSource) (c0 : R)
    (t : list R) (k : nat) (st : option (list R) * list R * list R)
  : option (list R) * list R * list R :=
  match k with
  | O => st
  | S k => newton_step self c0 t (newton_iterate self c0 t k st)
  end.

(** The loop test [abs(eps).max() > epslim] on a state, and its negation. *)
Definition above_tolerance (epslim : R)
    (st : option (list R) * list R * list R) : Prop :=
  exists m, max_abs (snd (fst st)) = Some m /\ m > epslim.
Definition within_tolerance (epslim : R)
    (st : option (list R) * list R * list R) : Prop :=
  exists m, max_abs (snd (fst st)) = Some m /\ m <= epslim.

End PointSources.

(** ** Example data

    Small inputs on which the statements below are instantiated: two
    microphones at distances 1 and 2 from the grid point, an upper triangle
    with a real diagonal, one eigenpair, and the cast that rounds nothing. *)

Definition example_float32 : R -> R := fun x => x.
Definition example_dist : nat -> R := fun m => INR m + 1.
Definition example_csm : nat -> nat -> complex128 :=
  fun r c => Cplx (INR (r + c)) (INR c - INR r).
Definition example_eigVal : nat -> R := fun _ => 2.
Definition example_eigVec : nat -> nat -> complex128 :=
  fun m _ => Cplx 1 (INR m).
Definition example_steerVec : nat -> complex128 :=
  fun m => Cplx (INR m) 1.

(** A medium at rest: the distance is the Euclidean one. *)
Definition example_env_r (c : R) (loc : sources.vec3)
    (mpos : list sources.vec3) : list R :=
  map (fun mic => sources.norm3 (sources.sub3 loc mic)) mpos.

(** A fixed source 2 m above one microphone, with a signal of two samples:
    the first sample received was emitted 2 s before the signal starts. *)
Definition example_fixed : sources.PointSource :=
  {| sources.usignal := fun _ => [5; 7];
     sources.numsamples := 1;
     sources.sample_freq := 1;
     sources.loc := (0, 0, 2);
     sources.mpos := [(0, 0, 0)];
     sources.env_r := example_env_r;
     sources.c := 1;
     sources.start_t := 0;
     sources.start := 0;
     sources.up := 1 |}.

(** A source that moves away from one microphone along the first axis, at
    [5 + te] at time [te], with the speed of sound 9 and 5 s per sample. *)
Definition example_moving : sources.MovingPointSource :=
  {| sources.base :=
       {| sources.usignal := fun _ => [45];
          sources.numsamples := 1;
          sources.sample_freq := 1 / 5;
          sources.loc := (5, 0, 0);
          sources.mpos := [(0, 0, 0)];
          sources.env_r := example_env_r;
          sources.c := 9;
          sources.start_t := 0;
          sources.start := 0;
          sources.up := 1 |};
     sources.location := fun te => (5 + te, 0, 0);
     sources.velocity := fun _ => (1, 0, 0) |}.

(** A source at rest at distance 5 from one microphone, with the speed of
    sound 1, at the sample rate [sample_freq]. *)
Definition example_at_rest (sample_freq : R) : sources.MovingPointSource :=
  {| sources.base :=
       {| sources.usignal := fun _ => [1];
          sources.numsamples := 1;
          sources.sample_freq := sample_freq;
          sources.loc := (5, 0, 0);
          sources.mpos := [(0, 0, 0)];
          sources.env_r := example_env_r;
          sources.c := 1;
          sources.start_t := 0;
          sources.start := 0;
          sources.up := 1 |};
     sources.location := fun _ => (5, 0, 0);
     sources.velocity := fun _ => (0, 0, 0) |}.

(** ** Ensembles

    [calcCSM] is called once per ensemble: the csm after the spectra of a
    list of ensembles were added, one call after the other. *)

Definition accumulate (nFreqs nMics : nat)
    (csm : nat -> nat -> nat -> complex128)
    (spectra : list (nat -> nat -> complex128))
  : nat -> nat -> nat -> complex128 :=
  fold_left (fun csm SpecAllMics => fastFuncs.calcCSM nFreqs nMics csm SpecAllMics)
    spectra csm.

(** The spectrum of ensemble [e], and the array [np.zeros]. *)
Definition ensemble (spectra : list (nat -> nat -> complex128)) (e : nat)
  : nat -> nat -> complex128 :=
  nth e spectra (fun _ _ => C0).

Definition zeros3 : nat -> nat -> nat -> complex128 := fun _ _ _ => C0.

(** Example data: the spectra of two ensembles at three microphones. *)
Definition example_spectrum_1 : nat -> nat -> complex128 :=
  fun _ m => Cplx 1 (INR m).
Definition example_spectrum_2 : nat -> nat -> complex128 :=
  fun _ m => Cplx (INR m) 2.

(** The fixed source [self] with another sample start time [self.start]. *)
Definition with_start (self : sources.PointSource) (s : R)
  : sources.PointSource :=
  {| sources.usignal := sources.usignal self;
     sources.numsamples := sources.numsamples self;
     sources.sample_freq := sources.sample_freq self;
     sources.loc := sources.loc self;
     sources.mpos := sources.mpos self;
     sources.env_r := sources.env_r self;
     sources.c := sources.c self;
     sources.start_t := sources.start_t self;
     sources.start := s;
     sources.up := sources.up self |}.

(** The factor a steering vector takes when all distances are multiplied by
    [lam] and the wavenumber is divided by it. *)
Definition length_factor (z : Z) (lam : R) : R :=
  match z with
  | 2%Z => lam
  | 3%Z | 4%Z => / lam
  | _ => 1
  end.

(** The radial Mach number: the velocity of the source along the distance
    unit vector, the direction from the microphone to the source, over the
    speed of sound. *)
Definition radial_Mach_number (position velocity mic : sources.vec3) (c : R)
  : R :=
  sources.dot3 velocity
    (sources.div3 (sources.sub3 position mic)
       (sources.norm3 (sources.sub3 position mic)))
  / c.

(** A source that passes a microphone at [(3, 0, 0)] at the distance 4, at
    the speed 5 along the first axis, with the speed of sound 10 and one
    sample per second: at the time 0 it is at [(3, 4, 0)], at the distance 5
    from the origin, and moves at a right angle to the line to the
    microphone. *)
Definition example_passing : sources.MovingPointSource :=
  {| sources.base :=
       {| sources.usignal := fun _ => [1];
          sources.numsamples := 1;
          sources.sample_freq := 1;
          sources.loc := (3, 4, 0);
          sources.mpos := [(3, 0, 0)];
          sources.env_r := example_env_r;
          sources.c := 10;
          sources.start_t := 0;
          sources.start := 0;
          sources.up := 1 |};
     sources.location := fun te => (3 + 5 * te, 4, 0);
     sources.velocity := fun _ => (5, 0, 0) |}.

(** * Properties *)

(** ** Loops *)

Lemma for_range_S {S : Type} (n : nat) (body : nat -> S -> S) (s : S) :
  for_range (Datatypes.S n) body s = body n (for_range n body s).
Proof. reflexivity. Qed.

(** Two loop bodies that agree below the bound run the same loop. *)
Lemma for_range_ext {S : Type} (n : nat) (body body' : nat -> S -> S) (s : S) :
  (forall i x, (i < n)%nat -> body i x = body' i x) ->
  for_range n body s = for_range n body' s.
Proof.
  induction n as [|n IH]; intros Hb; simpl.
  - reflexivity.
  - rewrite IH by (intros; apply Hb; lia). apply Hb; lia.
Qed.

(** A loop that stores [entry i] at index [i] leaves [entry] below the bound
    and the initial array elsewhere. *)
Lemma for_range_fill {A : Type} (n : nat) (entry : nat -> A) (a : nat -> A) i :
  for_range n (fun k a => upd1 a k (entry k)) a i
  = if (i <? n)%nat then entry i else a i.
Proof.
  induction n as [|n IH]; simpl.
  - reflexivity.
  - unfold upd1 at 1. rewrite IH.
    destruct (Nat.eqb_spec i n) as [->|Hne].
    + rewrite (proj2 (Nat.ltb_lt n (S n))) by lia. reflexivity.
    + destruct (Nat.ltb_spec i n), (Nat.ltb_spec i (S n)); try lia; reflexivity.
Qed.

(** ** Complex arithmetic *)


Lemma C_eq (a b : complex128) : real a = real b -> imag a = imag b -> a = b.
Proof. destruct a, b; simpl; intros -> ->; reflexivity. Qed.

Ltac calg := intros; apply C_eq; simpl; ring.

Lemma Cadd_0_l a : (C0 + a)%C = a. Proof. calg. Qed.
Lemma Cadd_comm a b : (a + b)%C = (b + a)%C. Proof. calg. Qed.
Lemma Cadd_assoc a b c : (a + (b + c))%C = (a + b + c)%C. Proof. calg. Qed.
Lemma Cmul_1_l a : (Cone * a)%C = a. Proof. calg. Qed.
Lemma Cmul_comm a b : (a * b)%C = (b * a)%C. Proof. calg. Qed.
Lemma Cmul_assoc a b c : (a * (b * c))%C = (a * b * c)%C. Proof. calg. Qed.
Lemma Cmul_add_distr_r a b c : ((a + b) * c)%C = (a * c + b * c)%C.
Proof. calg. Qed.
Lemma Csub_def a b : (a - b)%C = (a + Copp b)%C. Proof. calg. Qed.
Lemma Cadd_opp_r a : (a + Copp a)%C = C0. Proof. calg. Qed.

Definition C_ring_theory : ring_theory C0 Cone Cadd Cmul Csub Copp eq :=
  mk_rt C0 Cone Cadd Cmul Csub Copp eq
    Cadd_0_l Cadd_comm Cadd_assoc Cmul_1_l Cmul_comm Cmul_assoc
    Cmul_add_distr_r Csub_def Cadd_opp_r.

Add Ring complex128_ring : C_ring_theory.

Lemma conjugate_add a b : conjugate (a + b) = (conjugate a + conjugate b)%C.
Proof. calg. Qed.
Lemma conjugate_mul a b : conjugate (a * b) = (conjugate a * conjugate b)%C.
Proof. calg. Qed.
Lemma conjugate_invol a : conjugate (conjugate a) = a.
Proof. calg. Qed.
Lemma add_conjugate a : (a + conjugate a)%C = RtoC (2 * real a).
Proof. unfold RtoC. calg. Qed.

(** ** Sums *)

Lemma Csum_S n f : Csum (S n) f = (Csum n f + f n)%C.
Proof. reflexivity. Qed.

Lemma Rsum_S n f : Rsum (S n) f = Rsum n f + f n.
Proof. reflexivity. Qed.

Lemma Csum_ext n f g :
  (forall i, (i < n)%nat -> f i = g i) -> Csum n f = Csum n g.
Proof.
  intros H. apply for_range_ext. intros i x Hi. rewrite H by exact Hi. reflexivity.
Qed.

Lemma Rsum_ext n f g :
  (forall i, (i < n)%nat -> f i = g i) -> Rsum n f = Rsum n g.
Proof.
  intros H. apply for_range_ext. intros i x Hi. rewrite H by exact Hi. reflexivity.
Qed.

Lemma Csum_add n f g :
  Csum n (fun i => (f i + g i)%C) = (Csum n f + Csum n g)%C.
Proof.
  induction n as [|n IH].
  - calg.
  - rewrite !Csum_S, IH. ring.
Qed.

Lemma Csum_mul_r n f z :
  (Csum n f * z)%C = Csum n (fun i => (f i * z)%C).
Proof.
  induction n as [|n IH].
  - calg.
  - rewrite !Csum_S, <- IH. ring.
Qed.

Lemma Csum_mul_l n f z :
  (z * Csum n f)%C = Csum n (fun i => (z * f i)%C).
Proof.
  induction n as [|n IH].
  - calg.
  - rewrite !Csum_S, <- IH. ring.
Qed.

Lemma Csum_conjugate n f :
  conjugate (Csum n f) = Csum n (fun i => conjugate (f i)).
Proof.
  induction n as [|n IH].
  - calg.
  - rewrite !Csum_S, conjugate_add, IH. reflexivity.
Qed.

Lemma real_Csum n f : real (Csum n f) = Rsum n (fun i => real (f i)).
Proof.
  induction n as [|n IH].
  - reflexivity.
  - rewrite Csum_S, Rsum_S, <- IH. reflexivity.
Qed.

Lemma imag_Csum n f : imag (Csum n f) = Rsum n (fun i => imag (f i)).
Proof.
  induction n as [|n IH].
  - reflexivity.
  - rewrite Csum_S, Rsum_S, <- IH. reflexivity.
Qed.

Lemma Rsum_zero n f : (forall i, (i < n)%nat -> f i = 0) -> Rsum n f = 0.
Proof.
  induction n as [|n IH]; intros H.
  - reflexivity.
  - rewrite Rsum_S, IH, H by (intros; auto with arith). ring.
Qed.

Lemma Rsum_add n f g : Rsum n (fun i => f i + g i) = Rsum n f + Rsum n g.
Proof.
  induction n as [|n IH].
  - unfold Rsum. simpl. ring.
  - rewrite !Rsum_S, IH. ring.
Qed.

Lemma Rsum_sub n f g : Rsum n (fun i => f i - g i) = Rsum n f - Rsum n g.
Proof.
  induction n as [|n IH].
  - unfold Rsum. simpl. ring.
  - rewrite !Rsum_S, IH. ring.
Qed.

Lemma real_mul_conjugate a : real (a * conjugate a)%C = Cnorm2 a.
Proof. unfold Cnorm2. simpl. ring. Qed.

Lemma mul_conjugate a : (a * conjugate a)%C = RtoC (Cnorm2 a).
Proof. unfold Cnorm2, RtoC. apply C_eq; simpl; ring. Qed.

(** A loop on a pair of accumulators is the pair of the two sums. *)
Lemma for_range_pair_sum n (f : nat -> complex128) (g : nat -> R) :
  for_range n (fun m '(a, b) => ((a + f m)%C, b + g m)) (C0, 0)
  = (Csum n f, Rsum n g).
Proof.
  induction n as [|n IH].
  - reflexivity.
  - rewrite for_range_S, IH. reflexivity.
Qed.

(** A loop that adds to a number and fills an array does both. *)
Lemma for_range_pair_fill {A : Type} n (g : nat -> R) (entry : nat -> A) a0 :
  for_range n (fun m '(h, a) => (h + g m, upd1 a m (entry m))) (0, a0)
  = (Rsum n g, for_range n (fun m a => upd1 a m (entry m)) a0).
Proof.
  induction n as [|n IH].
  - reflexivity.
  - rewrite !for_range_S, IH. reflexivity.
Qed.

(** ** The accumulator [calcCSM] *)

Section CalcCSM.

Import fastFuncs.

Variable SpecAllMics : nat -> nat -> complex128.

(** The innermost loop, over the rows of one column. *)
Lemma calcCSM_rows n f c (temp : complex128) csm f' r' c' :
  for_range n (fun cntRow csm =>
      upd3 csm f cntRow c (csm f cntRow c + temp * SpecAllMics f cntRow)%C)
    csm f' r' c'
  = if Nat.eqb f' f && Nat.eqb c' c && (r' <? n)%nat
    then (csm f' r' c' + temp * SpecAllMics f r')%C
    else csm f' r' c'.
Proof.
  revert f' r' c'. induction n as [|n IH]; intros f' r' c'; simpl.
  - rewrite andb_false_r. reflexivity.
  - unfold upd3 at 1. rewrite !IH.
    rewrite !Nat.eqb_refl, Nat.ltb_irrefl. simpl.
    destruct (Nat.eqb_spec f' f) as [->|Hf]; simpl; [|reflexivity].
    destruct (Nat.eqb_spec c' c) as [->|Hc]; simpl;
      [|rewrite andb_false_r; reflexivity].
    rewrite andb_true_r.
    destruct (Nat.eqb_spec r' n) as [->|Hr].
    + rewrite (proj2 (Nat.ltb_lt n (S n))) by lia. reflexivity.
    + destruct (Nat.ltb_spec r' n), (Nat.ltb_spec r' (S n)); try lia; reflexivity.
Qed.

(** The loop over the columns of one frequency slice. *)
Lemma calcCSM_columns m f csm f' r' c' :
  for_range m (fun cntColumn csm =>
      let temp := conjugate (SpecAllMics f cntColumn) in
      for_range (cntColumn + 1) (fun cntRow csm =>
          upd3 csm f cntRow cntColumn
            (csm f cntRow cntColumn + temp * SpecAllMics f cntRow)%C)
        csm)
    csm f' r' c'
  = if Nat.eqb f' f && (c' <? m)%nat && (r' <=? c')%nat
    then (csm f' r' c' + conjugate (SpecAllMics f c') * SpecAllMics f r')%C
    else csm f' r' c'.
Proof.
  revert f' r' c'. induction m as [|m IH]; intros f' r' c'; simpl.
  - rewrite andb_false_r. reflexivity.
  - rewrite calcCSM_rows, IH.
    destruct (Nat.eqb_spec f' f) as [->|Hf]; simpl; [|reflexivity].
    destruct (Nat.eqb_spec c' m) as [->|Hc]; simpl.
    + rewrite Nat.ltb_irrefl. simpl.
      rewrite (proj2 (Nat.ltb_lt m (S m))) by lia. simpl.
      destruct (Nat.ltb_spec r' (m + 1)), (Nat.leb_spec r' m); try lia; reflexivity.
    + destruct (Nat.ltb_spec c' m), (Nat.ltb_spec c' (S m)); try lia; reflexivity.
Qed.

(** The whole accumulator, entry by entry. *)
Lemma calcCSM_entry nFreqs nMics csm f r c :
  calcCSM nFreqs nMics csm SpecAllMics f r c
  = if (f <? nFreqs)%nat && (c <? nMics)%nat && (r <=? c)%nat
    then (csm f r c + conjugate (SpecAllMics f c) * SpecAllMics f r)%C
    else csm f r c.
Proof.
  unfold calcCSM. revert f r c.
  induction nFreqs as [|n IH]; intros f r c; simpl.
  - reflexivity.
  - rewrite calcCSM_columns, IH.
    destruct (Nat.eqb_spec f n) as [->|Hf]; simpl.
    + rewrite Nat.ltb_irrefl. simpl.
      rewrite (proj2 (Nat.ltb_lt n (S n))) by lia. reflexivity.
    + destruct (Nat.ltb_spec f n), (Nat.ltb_spec f (S n)); try lia; reflexivity.
Qed.

(** C4. One call of [calcCSM] adds [conj(spectrum[f, c]) * spectrum[f, r]] to
    every entry [csm[f, r, c]] with [r <= c] of every frequency slice, and
    leaves every entry with [r > c], the strict lower triangle, as it was. *)
Theorem calcCSM_upper_triangle nFreqs nMics csm f r c :
  (f < nFreqs)%nat -> (r < nMics)%nat -> (c < nMics)%nat ->
  ((r <= c)%nat ->
     calcCSM nFreqs nMics csm SpecAllMics f r c
     = (csm f r c + conjugate (SpecAllMics f c) * SpecAllMics f r)%C)
  /\ ((c < r)%nat ->
     calcCSM nFreqs nMics csm SpecAllMics f r c = csm f r c).
Proof.
  intros Hf Hr Hc. rewrite calcCSM_entry.
  rewrite (proj2 (Nat.ltb_lt f nFreqs) Hf), (proj2 (Nat.ltb_lt c nMics) Hc).
  simpl. split; intros H.
  - rewrite (proj2 (Nat.leb_le r c) H). reflexivity.
  - rewrite (proj2 (Nat.leb_gt r c) H). reflexivity.
Qed.

End CalcCSM.

(** The accumulator at two microphones and one frequency: the entry [0, 1]
    of the upper triangle receives its product, the entry [1, 0] stays. *)
Lemma calcCSM_upper_triangle_witness :
  let spectrum := fun (_ m : nat) => Cplx 1 (INR m) in
  let csm := fun (_ _ _ : nat) => C0 in
  fastFuncs.calcCSM 1 2 csm spectrum 0 0 1
    = (csm 0 0 1 + conjugate (spectrum 0 1) * spectrum 0 0)%C%nat
  /\ fastFuncs.calcCSM 1 2 csm spectrum 0 1 0 = (csm 0 1 0)%nat.
Proof.
  split.
  - apply (calcCSM_upper_triangle (fun _ m => Cplx 1 (INR m))
             1 2 (fun _ _ _ => C0) 0 0 1); lia.
  - apply (calcCSM_upper_triangle (fun _ m => Cplx 1 (INR m))
             1 2 (fun _ _ _ => C0) 0 1 0); lia.
Defined.

(** ** The direct kernels *)

Section Reductions.

Import fastFuncs.

(** The loop of the full-csm kernels as a sum over the columns. *)
Lemma reduce_FullCSM_sum n csm h :
  reduce_FullCSM n csm h
  = Rsum n (fun c =>
      2 * real (Csum c (fun r => csm r c * conjugate (h r)) * h c)%C
      + real (csm c c * conjugate (h c) * h c)%C).
Proof.
  unfold reduce_FullCSM.
  induction n as [|n IH].
  - reflexivity.
  - rewrite for_range_S, IH, Rsum_S. unfold Csum. ring.
Qed.

Lemma reduce_CsmRemovedDiag_sum n csm h :
  reduce_CsmRemovedDiag n csm h
  = Rsum n (fun c =>
      2 * real (Csum c (fun r => csm r c * conjugate (h r)) * h c)%C).
Proof.
  unfold reduce_CsmRemovedDiag.
  induction n as [|n IH].
  - reflexivity.
  - rewrite for_range_S, IH, Rsum_S. unfold Csum. ring.
Qed.

(** The quadratic form grows by one row, one column and the corner. *)
Lemma quadratic_form_S n C h :
  quadratic_form (S n) C h
  = (quadratic_form n C h
     + Csum n (fun r => conjugate (h r) * C r n * h n)
     + Csum n (fun c => conjugate (h n) * C n c * h c)
     + conjugate (h n) * C n n * h n)%C.
Proof.
  unfold quadratic_form.
  rewrite Csum_S.
  rewrite (Csum_ext n _
    (fun r => (Csum n (fun c => conjugate (h r) * C r c * h c)
               + conjugate (h r) * C r n * h n)%C)) by (intros; apply Csum_S).
  rewrite Csum_add, Csum_S. ring.
Qed.

(** The identity [h^H C h = h^H C_D h + 2 Re(h^H C_U h)] on the completion
    of an upper triangle: the real part is what the kernel loop adds up, the
    imaginary part comes from the diagonal alone. *)
Lemma quadratic_form_completion n csm h :
  quadratic_form n (hermitian_completion csm) h
  = Cplx (reduce_FullCSM n csm h)
         (Rsum n (fun c => imag (csm c c * conjugate (h c) * h c)%C)).
Proof.
  rewrite reduce_FullCSM_sum.
  induction n as [|n IH].
  - reflexivity.
  - rewrite quadratic_form_S, IH, !Rsum_S.
    set (L := Csum n (fun r => (csm r n * conjugate (h r))%C)).
    assert (Hrow : Csum n (fun r =>
                (conjugate (h r) * hermitian_completion csm r n * h n)%C)
              = (L * h n)%C).
    { unfold L. rewrite Csum_mul_r. apply Csum_ext. intros r Hr.
      unfold hermitian_completion.
      rewrite (proj2 (Nat.leb_le r n)) by lia. ring. }
    assert (Hcol : Csum n (fun c =>
                (conjugate (h n) * hermitian_completion csm n c * h c)%C)
              = conjugate (L * h n)).
    { unfold L. rewrite conjugate_mul, Csum_conjugate, Csum_mul_r.
      apply Csum_ext. intros c Hc. unfold hermitian_completion.
      rewrite (proj2 (Nat.leb_gt n c)) by lia.
      rewrite conjugate_mul, conjugate_invol. ring. }
    rewrite Hrow, Hcol. unfold hermitian_completion. rewrite Nat.leb_refl.
    apply C_eq; simpl; ring.
Qed.



(** The loops read the steering vector below [n] and the csm on the upper
    triangle only. *)
Lemma reduce_FullCSM_ext n csm csm' h h' :
  (forall r c, (r <= c)%nat -> (c < n)%nat -> csm' r c = csm r c) ->
  (forall m, (m < n)%nat -> h' m = h m) ->
  reduce_FullCSM n csm' h' = reduce_FullCSM n csm h.
Proof.
  intros Hc Hh. rewrite !reduce_FullCSM_sum. apply Rsum_ext. intros c Hlt.
  rewrite (Csum_ext c (fun r => (csm' r c * conjugate (h' r))%C)
             (fun r => (csm r c * conjugate (h r))%C))
    by (intros r Hr; rewrite Hc, Hh by lia; reflexivity).
  rewrite Hc, Hh by lia. reflexivity.
Qed.

Lemma reduce_CsmRemovedDiag_ext n csm csm' h h' :
  (forall r c, (r < c)%nat -> (c < n)%nat -> csm' r c = csm r c) ->
  (forall m, (m < n)%nat -> h' m = h m) ->
  reduce_CsmRemovedDiag n csm' h' = reduce_CsmRemovedDiag n csm h.
Proof.
  intros Hc Hh. rewrite !reduce_CsmRemovedDiag_sum. apply Rsum_ext. intros c Hlt.
  rewrite (Csum_ext c (fun r => (csm' r c * conjugate (h' r))%C)
             (fun r => (csm r c * conjugate (h r))%C))
    by (intros r Hr; rewrite Hc, Hh by lia; reflexivity).
  rewrite Hh by lia. reflexivity.
Qed.


End Reductions.

Import fastFuncs.

Section Eig.

Variables nEV nMics : nat.
Variable eigVal : nat -> R.
Variable eigVec : nat -> nat -> complex128.

Lemma reduce_EigValProb_FullCSM_sum h :
  reduce_EigValProb_FullCSM nEV nMics eigVal eigVec h
  = eig_power nEV nMics eigVal eigVec h.
Proof.
  unfold reduce_EigValProb_FullCSM, eig_power.
  induction nEV as [|n IH].
  - reflexivity.
  - rewrite for_range_S, IH, Rsum_S. cbv zeta.
    rewrite real_mul_conjugate. unfold Csum. ring.
Qed.

Lemma reduce_EigValProb_CsmRemovedDiag_sum h :
  reduce_EigValProb_CsmRemovedDiag nEV nMics eigVal eigVec h
  = eig_power nEV nMics eigVal eigVec h
    - eig_diagonal_contribution nEV nMics eigVal eigVec h.
Proof.
  unfold reduce_EigValProb_CsmRemovedDiag, eig_power, eig_diagonal_contribution.
  rewrite <- Rsum_sub.
  induction nEV as [|n IH].
  - reflexivity.
  - rewrite for_range_S, IH, Rsum_S.
    rewrite (for_range_pair_sum nMics
               (fun m => (conjugate (eigVec m n) * h m)%C)
               (fun m => real ((conjugate (eigVec m n) * h m)
                               * conjugate (conjugate (eigVec m n) * h m))%C)).
    rewrite real_mul_conjugate.
    rewrite (Rsum_ext nMics _
               (fun m => Cnorm2 (conjugate (eigVec m n) * h m)%C))
      by (intros; apply real_mul_conjugate).
    ring.
Qed.

Lemma reduce_EigValProb_FullCSM_ext h h' :
  (forall m, (m < nMics)%nat -> h' m = h m) ->
  reduce_EigValProb_FullCSM nEV nMics eigVal eigVec h'
  = reduce_EigValProb_FullCSM nEV nMics eigVal eigVec h.
Proof.
  intros Hh. rewrite !reduce_EigValProb_FullCSM_sum. unfold eig_power.
  apply Rsum_ext. intros i _. f_equal. f_equal.
  apply Csum_ext. intros m Hm. rewrite Hh by exact Hm. reflexivity.
Qed.

Lemma eig_diagonal_contribution_ext h h' :
  (forall m, (m < nMics)%nat -> h' m = h m) ->
  eig_diagonal_contribution nEV nMics eigVal eigVec h'
  = eig_diagonal_contribution nEV nMics eigVal eigVec h.
Proof.
  intros Hh. unfold eig_diagonal_contribution.
  apply Rsum_ext. intros i _. f_equal.
  apply Rsum_ext. intros m Hm. rewrite Hh by exact Hm. reflexivity.
Qed.

Lemma reduce_EigValProb_CsmRemovedDiag_ext h h' :
  (forall m, (m < nMics)%nat -> h' m = h m) ->
  reduce_EigValProb_CsmRemovedDiag nEV nMics eigVal eigVec h'
  = reduce_EigValProb_CsmRemovedDiag nEV nMics eigVal eigVec h.
Proof.
  intros Hh. rewrite !reduce_EigValProb_CsmRemovedDiag_sum.
  rewrite (eig_diagonal_contribution_ext h h' Hh).
  rewrite <- !reduce_EigValProb_FullCSM_sum.
  rewrite (reduce_EigValProb_FullCSM_ext h h' Hh). reflexivity.
Qed.

End Eig.

(** ** The quadratic form of a spectral reconstruction *)

Lemma quadratic_form_ext n C C' h :
  (forall r c, (r < n)%nat -> (c < n)%nat -> C' r c = C r c) ->
  quadratic_form n C' h = quadratic_form n C h.
Proof.
  intros H. unfold quadratic_form. apply Csum_ext. intros r Hr.
  apply Csum_ext. intros c Hc. rewrite H by assumption. reflexivity.
Qed.

Lemma quadratic_form_add n A B h :
  quadratic_form n (fun r c => (A r c + B r c)%C) h
  = (quadratic_form n A h + quadratic_form n B h)%C.
Proof.
  unfold quadratic_form. rewrite <- Csum_add. apply Csum_ext. intros r _.
  rewrite <- Csum_add. apply Csum_ext. intros c _. ring.
Qed.

Lemma Csum_zero n f : (forall i, (i < n)%nat -> f i = C0) -> Csum n f = C0.
Proof.
  induction n as [|n IH]; intros H.
  - reflexivity.
  - rewrite Csum_S, IH, H by (intros; auto with arith). ring.
Qed.

Lemma quadratic_form_zero n h : quadratic_form n (fun _ _ => C0) h = C0.
Proof.
  unfold quadratic_form. apply Csum_zero. intros r _.
  apply Csum_zero. intros c _. ring.
Qed.

(** One eigenpair: [h^H (lam v v^H) h = lam |v^H h|^2]. *)
Lemma quadratic_form_rank_one n lam (v : nat -> complex128) h :
  quadratic_form n (fun r c => (RtoC lam * v r * conjugate (v c))%C) h
  = RtoC (lam * Cnorm2 (Csum n (fun m => (conjugate (v m) * h m)%C))).
Proof.
  set (P := Csum n (fun m => (conjugate (v m) * h m)%C)).
  unfold quadratic_form.
  rewrite (Csum_ext n _ (fun r => (conjugate (conjugate (v r) * h r) * (RtoC lam * P))%C)).
  - rewrite <- Csum_mul_r, <- Csum_conjugate. fold P.
    replace (conjugate P * (RtoC lam * P))%C with (RtoC lam * (P * conjugate P))%C by ring.
    rewrite mul_conjugate. unfold RtoC. apply C_eq; simpl; ring.
  - intros r _. unfold P. rewrite conjugate_mul, conjugate_invol.
    rewrite Cmul_assoc, Csum_mul_l.
    apply Csum_ext. intros c _. ring.
Qed.

Lemma spectral_reconstruction_S k eigVal eigVec r c :
  spectral_reconstruction (S k) eigVal eigVec r c
  = (spectral_reconstruction k eigVal eigVec r c
     + RtoC (eigVal k) * eigVec r k * conjugate (eigVec c k))%C.
Proof. reflexivity. Qed.

(** [h^H C h = sum_i eigVal[i] |sum_m conj(eigVec[m, i]) h[m]|^2] when [C]
    is the spectral reconstruction. *)
Lemma quadratic_form_reconstruction nEV n eigVal eigVec h :
  quadratic_form n (spectral_reconstruction nEV eigVal eigVec) h
  = RtoC (eig_power nEV n eigVal eigVec h).
Proof.
  induction nEV as [|k IH].
  - unfold spectral_reconstruction, eig_power. simpl.
    apply quadratic_form_zero.
  - rewrite (quadratic_form_ext n
      (fun r c => (spectral_reconstruction k eigVal eigVec r c
                   + RtoC (eigVal k) * eigVec r k * conjugate (eigVec c k))%C))
      by (intros; apply spectral_reconstruction_S).
    rewrite quadratic_form_add, IH, quadratic_form_rank_one.
    unfold eig_power. rewrite Rsum_S. unfold RtoC. apply C_eq; simpl; ring.
Qed.

(** A spectral reconstruction with real eigenvalues is Hermitian. *)
Lemma spectral_reconstruction_hermitian nEV eigVal eigVec r c :
  conjugate (spectral_reconstruction nEV eigVal eigVec c r)
  = spectral_reconstruction nEV eigVal eigVec r c.
Proof.
  unfold spectral_reconstruction. rewrite Csum_conjugate.
  apply Csum_ext. intros i _.
  rewrite !conjugate_mul, conjugate_invol. unfold RtoC. apply C_eq; simpl; ring.
Qed.

Lemma hermitian_completion_reconstruction nEV eigVal eigVec r c :
  hermitian_completion (spectral_reconstruction nEV eigVal eigVec) r c
  = spectral_reconstruction nEV eigVal eigVec r c.
Proof.
  unfold hermitian_completion. destruct (r <=? c)%nat; [reflexivity|].
  apply spectral_reconstruction_hermitian.
Qed.

(** The diagonal of a spectral reconstruction. *)
Lemma diagonal_reconstruction nEV n eigVal eigVec h :
  diagonal_contribution n (spectral_reconstruction nEV eigVal eigVec) h
  = RtoC (eig_diagonal_contribution nEV n eigVal eigVec h).
Proof.
  unfold diagonal_contribution, eig_diagonal_contribution.
  induction nEV as [|k IH].
  - simpl. unfold Rsum at 1. simpl.
    induction n as [|n IHn]; [reflexivity|].
    rewrite Csum_S, IHn. unfold spectral_reconstruction, Csum, CmulR, RtoC.
    apply C_eq; simpl; ring.
  - rewrite Rsum_S.
    rewrite (Csum_ext n _ (fun m =>
      (CmulR (spectral_reconstruction k eigVal eigVec m m) (Cnorm2 (h m))
       + RtoC (eigVal k * Cnorm2 (conjugate (eigVec m k) * h m)))%C)).
    + rewrite Csum_add, IH.
      assert (Hs : Csum n (fun m => RtoC (eigVal k * Cnorm2 (conjugate (eigVec m k) * h m)%C))
                   = RtoC (eigVal k * Rsum n (fun m => Cnorm2 (conjugate (eigVec m k) * h m)%C))).
      { clear IH. induction n as [|n IHn].
        - unfold RtoC, Rsum. apply C_eq; simpl; ring.
        - rewrite Csum_S, Rsum_S, IHn. unfold RtoC. apply C_eq; simpl; ring. }
      rewrite Hs. unfold RtoC. apply C_eq; simpl; ring.
    + intros m _. rewrite spectral_reconstruction_S.
      unfold CmulR, Cnorm2, RtoC. apply C_eq; simpl; ring.
Qed.

(** ** The kernels of Formulations I to IV *)

Section KernelFacts.

Variable float32 : R -> R.

(** [np.cos(x) - 1j*np.sin(x)] is [exp(-j x)]. *)
Lemma expMinusJ_exp x : expMinusJ x = Cexp (Ci * RtoC (- x)).
Proof.
  unfold expMinusJ, Cexp. apply C_eq; simpl.
  - replace (0 * - x - 1 * 0) with 0 by ring.
    replace (0 * 0 + 1 * - x) with (- x) by ring.
    rewrite exp_0, cos_neg. ring.
  - replace (0 * - x - 1 * 0) with 0 by ring.
    replace (0 * 0 + 1 * - x) with (- x) by ring.
    rewrite exp_0, sin_neg. ring.
Qed.

(** The entry a steering loop stores at [m], by formulation. *)
Lemma steering_vector_1 c k d0 d m :
  steering_vector float32 1 c k d0 d m
  = expMinusJ (float32 (k * (if c then d m - d0 else d m))).
Proof. unfold steering_vector, phase_argument. rewrite expMinusJ_exp. reflexivity. Qed.

Lemma steering_vector_2 c k d0 d m :
  steering_vector float32 2 c k d0 d m
  = (expMinusJ (float32 (k * (if c then d m - d0 else d m))) * RtoC (d m))%C.
Proof. unfold steering_vector, phase_argument. rewrite expMinusJ_exp. reflexivity. Qed.

Lemma steering_vector_3 c k d0 d m :
  steering_vector float32 3 c k d0 d m
  = CdivR (expMinusJ (float32 (k * (if c then d m - d0 else d m)))) (d m).
Proof. unfold steering_vector, phase_argument. rewrite expMinusJ_exp. reflexivity. Qed.

Lemma steering_vector_4 c k d0 d m :
  steering_vector float32 4 c k d0 d m
  = CdivR (expMinusJ (float32 (k * (if c then d m - d0 else d m)))) (d m).
Proof. unfold steering_vector, phase_argument. rewrite expMinusJ_exp. reflexivity. Qed.

(** A loop that fills a fresh array with the entries of a steering vector
    holds that steering vector below [nMics]. *)
Lemma steer_loop nMics (entry h : nat -> complex128) m :
  (forall i, h i = entry i) -> (m < nMics)%nat ->
  for_range nMics (fun k a => upd1 a k (entry k)) (fun _ => C0) m = h m.
Proof.
  intros He Hm. rewrite for_range_fill, (proj2 (Nat.ltb_lt m nMics) Hm).
  symmetry. apply He.
Qed.

(** The same for the loops of III and IV, which add up [helpNormalize]. *)
Lemma steer_loop_pair nMics (g : nat -> R) (entry h : nat -> complex128) :
  (forall i, h i = entry i) ->
  exists steerVec,
    for_range nMics (fun m '(s, a) => (s + g m, upd1 a m (entry m)))
      (0, fun _ => C0)
    = (Rsum nMics g, steerVec)
    /\ forall m, (m < nMics)%nat -> steerVec m = h m.
Proof.
  intros He. eexists. split.
  - apply for_range_pair_fill.
  - intros m Hm. apply steer_loop; assumption.
Qed.

(** Each kernel is its loop on the steering vector of its formulation, over
    the normalization of its formulation, times [signalLossNormalization]. *)

Lemma Formulation1_FullCSM_spec nMics csm d0 d k nf :
  _freqBeamformer_Formulation1AkaClassic_FullCSM float32 nMics csm d0 d k nf
  = reduce_FullCSM nMics csm (steering_vector float32 1 false k d0 d)
    / normalization 1 nMics d0 d * nf.
Proof.
  unfold _freqBeamformer_Formulation1AkaClassic_FullCSM.
  unfold _freqBeamformer_Formulation1AkaClassic_FullCSM_steerVec.
  cbv beta iota zeta.
  change (normalization 1 nMics d0 d) with (INR nMics * INR nMics).
  f_equal. f_equal.
  apply reduce_FullCSM_ext; [reflexivity|].
  intros m Hm. rewrite steering_vector_1, for_range_fill.
  rewrite (proj2 (Nat.ltb_lt m nMics) Hm). reflexivity.
Qed.

Lemma Formulation1_CsmRemovedDiag_spec nMics csm d0 d k nf :
  _freqBeamformer_Formulation1AkaClassic_CsmRemovedDiag float32 nMics csm d0 d k nf
  = reduce_CsmRemovedDiag nMics csm (steering_vector float32 1 false k d0 d)
    / normalization 1 nMics d0 d * nf.
Proof.
  unfold _freqBeamformer_Formulation1AkaClassic_CsmRemovedDiag.
  unfold _freqBeamformer_Formulation1AkaClassic_CsmRemovedDiag_steerVec.
  cbv beta iota zeta.
  change (normalization 1 nMics d0 d) with (INR nMics * INR nMics).
  f_equal. f_equal.
  apply reduce_CsmRemovedDiag_ext; [reflexivity|].
  intros m Hm. rewrite steering_vector_1, for_range_fill.
  rewrite (proj2 (Nat.ltb_lt m nMics) Hm). reflexivity.
Qed.

Lemma Formulation2_FullCSM_spec nMics csm d0 d k nf :
  _freqBeamformer_Formulation2AkaInverse_FullCSM float32 nMics csm d0 d k nf
  = reduce_FullCSM nMics csm (steering_vector float32 2 false k d0 d)
    / normalization 2 nMics d0 d * nf.
Proof.
  unfold _freqBeamformer_Formulation2AkaInverse_FullCSM.
  unfold _freqBeamformer_Formulation2AkaInverse_FullCSM_steerVec.
  cbv beta iota zeta.
  change (normalization 2 nMics d0 d) with ((INR nMics * d0) * (INR nMics * d0)).
  f_equal. f_equal.
  apply reduce_FullCSM_ext; [reflexivity|].
  intros m Hm. rewrite steering_vector_2, for_range_fill.
  rewrite (proj2 (Nat.ltb_lt m nMics) Hm). reflexivity.
Qed.

Lemma Formulation2_CsmRemovedDiag_spec nMics csm d0 d k nf :
  _freqBeamformer_Formulation2AkaInverse_CsmRemovedDiag float32 nMics csm d0 d k nf
  = reduce_CsmRemovedDiag nMics csm (steering_vector float32 2 false k d0 d)
    / normalization 2 nMics d0 d * nf.
Proof.
  unfold _freqBeamformer_Formulation2AkaInverse_CsmRemovedDiag.
  unfold _freqBeamformer_Formulation2AkaInverse_CsmRemovedDiag_steerVec.
  cbv beta iota zeta.
  change (normalization 2 nMics d0 d) with ((INR nMics * d0) * (INR nMics * d0)).
  f_equal. f_equal.
  apply reduce_CsmRemovedDiag_ext; [reflexivity|].
  intros m Hm. rewrite steering_vector_2, for_range_fill.
  rewrite (proj2 (Nat.ltb_lt m nMics) Hm). reflexivity.
Qed.

Lemma Formulation3_FullCSM_spec nMics csm d0 d k nf :
  _freqBeamformer_Formulation3AkaTrueLevel_FullCSM float32 nMics csm d0 d k nf
  = reduce_FullCSM nMics csm (steering_vector float32 3 false k d0 d)
    / normalization 3 nMics d0 d * nf.
Proof.
  unfold _freqBeamformer_Formulation3AkaTrueLevel_FullCSM.
  assert (E : _freqBeamformer_Formulation3AkaTrueLevel_FullCSM_steerVec float32 nMics d0 d k
              = (Rsum nMics (fun m => 1 / (d m * d m)),
                 for_range nMics (fun m a =>
                   upd1 a m (CdivR (expMinusJ (float32 (k * d m))) (d m)))
                   (fun _ => C0)))
    by exact (for_range_pair_fill nMics _ _ _).
  rewrite E.
  cbv beta iota zeta.
  change (normalization 3 nMics d0 d) with ((d0 * Rsum nMics (fun m => 1 / (d m * d m))) * (d0 * Rsum nMics (fun m => 1 / (d m * d m)))).
  f_equal. f_equal.
  apply reduce_FullCSM_ext; [reflexivity|].
  intros m Hm. rewrite steering_vector_3, for_range_fill.
  rewrite (proj2 (Nat.ltb_lt m nMics) Hm). reflexivity.
Qed.

Lemma Formulation3_CsmRemovedDiag_spec nMics csm d0 d k nf :
  _freqBeamformer_Formulation3AkaTrueLevel_CsmRemovedDiag float32 nMics csm d0 d k nf
  = reduce_CsmRemovedDiag nMics csm (steering_vector float32 3 false k d0 d)
    / normalization 3 nMics d0 d * nf.
Proof.
  unfold _freqBeamformer_Formulation3AkaTrueLevel_CsmRemovedDiag.
  assert (E : _freqBeamformer_Formulation3AkaTrueLevel_CsmRemovedDiag_steerVec float32 nMics d0 d k
              = (Rsum nMics (fun m => 1 / (d m * d m)),
                 for_range nMics (fun m a =>
                   upd1 a m (CdivR (expMinusJ (float32 (k * d m))) (d m)))
                   (fun _ => C0)))
    by exact (for_range_pair_fill nMics _ _ _).
  rewrite E.
  cbv beta iota zeta.
  change (normalization 3 nMics d0 d) with ((d0 * Rsum nMics (fun m => 1 / (d m * d m))) * (d0 * Rsum nMics (fun m => 1 / (d m * d m)))).
  f_equal. f_equal.
  apply reduce_CsmRemovedDiag_ext; [reflexivity|].
  intros m Hm. rewrite steering_vector_3, for_range_fill.
  rewrite (proj2 (Nat.ltb_lt m nMics) Hm). reflexivity.
Qed.

Lemma Formulation4_FullCSM_spec nMics csm d0 d k nf :
  _freqBeamformer_Formulation4AkaTrueLocation_FullCSM float32 nMics csm d0 d k nf
  = reduce_FullCSM nMics csm (steering_vector float32 4 false k d0 d)
    / normalization 4 nMics d0 d * nf.
Proof.
  unfold _freqBeamformer_Formulation4AkaTrueLocation_FullCSM.
  assert (E : _freqBeamformer_Formulation4AkaTrueLocation_FullCSM_steerVec float32 nMics d0 d k
              = (Rsum nMics (fun m => 1 / (d m * d m)),
                 for_range nMics (fun m a =>
                   upd1 a m (CdivR (expMinusJ (float32 (k * d m))) (d m)))
                   (fun _ => C0)))
    by exact (for_range_pair_fill nMics _ _ _).
  rewrite E.
  cbv beta iota zeta.
  change (normalization 4 nMics d0 d) with (INR nMics * Rsum nMics (fun m => 1 / (d m * d m))).
  f_equal. f_equal.
  apply reduce_FullCSM_ext; [reflexivity|].
  intros m Hm. rewrite steering_vector_4, for_range_fill.
  rewrite (proj2 (Nat.ltb_lt m nMics) Hm). reflexivity.
Qed.

Lemma Formulation4_CsmRemovedDiag_spec nMics csm d0 d k nf :
  _freqBeamformer_Formulation4AkaTrueLocation_CsmRemovedDiag float32 nMics csm d0 d k nf
  = reduce_CsmRemovedDiag nMics csm (steering_vector float32 4 false k d0 d)
    / normalization 4 nMics d0 d * nf.
Proof.
  unfold _freqBeamformer_Formulation4AkaTrueLocation_CsmRemovedDiag.
  assert (E : _freqBeamformer_Formulation4AkaTrueLocation_CsmRemovedDiag_steerVec float32 nMics d0 d k
              = (Rsum nMics (fun m => 1 / (d m * d m)),
                 for_range nMics (fun m a =>
                   upd1 a m (CdivR (expMinusJ (float32 (k * d m))) (d m)))
                   (fun _ => C0)))
    by exact (for_range_pair_fill nMics _ _ _).
  rewrite E.
  cbv beta iota zeta.
  change (normalization 4 nMics d0 d) with (INR nMics * Rsum nMics (fun m => 1 / (d m * d m))).
  f_equal. f_equal.
  apply reduce_CsmRemovedDiag_ext; [reflexivity|].
  intros m Hm. rewrite steering_vector_4, for_range_fill.
  rewrite (proj2 (Nat.ltb_lt m nMics) Hm). reflexivity.
Qed.

Lemma EigValProb_Formulation1_FullCSM_spec nEV nMics eigVal eigVec d0 d k nf :
  _freqBeamformer_EigValProb_Formulation1AkaClassic_FullCSM float32 nEV nMics eigVal eigVec d0 d k nf
  = reduce_EigValProb_FullCSM nEV nMics eigVal eigVec (steering_vector float32 1 false k d0 d)
    / normalization 1 nMics d0 d * nf.
Proof.
  unfold _freqBeamformer_EigValProb_Formulation1AkaClassic_FullCSM.
  unfold _freqBeamformer_EigValProb_Formulation1AkaClassic_FullCSM_steerVec.
  cbv beta iota zeta.
  change (normalization 1 nMics d0 d) with (INR nMics * INR nMics).
  f_equal. f_equal.
  apply reduce_EigValProb_FullCSM_ext.
  intros m Hm. rewrite steering_vector_1, for_range_fill.
  rewrite (proj2 (Nat.ltb_lt m nMics) Hm). reflexivity.
Qed.

Lemma EigValProb_Formulation1_CsmRemovedDiag_spec nEV nMics eigVal eigVec d0 d k nf :
  _freqBeamformer_EigValProb_Formulation1AkaClassic_CsmRemovedDiag float32 nEV nMics eigVal eigVec d0 d k nf
  = reduce_EigValProb_CsmRemovedDiag nEV nMics eigVal eigVec (steering_vector float32 1 true k d0 d)
    / normalization 1 nMics d0 d * nf.
Proof.
  unfold _freqBeamformer_EigValProb_Formulation1AkaClassic_CsmRemovedDiag.
  unfold _freqBeamformer_EigValProb_Formulation1AkaClassic_CsmRemovedDiag_steerVec.
  cbv beta iota zeta.
  change (normalization 1 nMics d0 d) with (INR nMics * INR nMics).
  f_equal. f_equal.
  apply reduce_EigValProb_CsmRemovedDiag_ext.
  intros m Hm. rewrite steering_vector_1, for_range_fill.
  rewrite (proj2 (Nat.ltb_lt m nMics) Hm). reflexivity.
Qed.

Lemma EigValProb_Formulation2_FullCSM_spec nEV nMics eigVal eigVec d0 d k nf :
  _freqBeamformer_EigValProb_Formulation2AkaInverse_FullCSM float32 nEV nMics eigVal eigVec d0 d k nf
  = reduce_EigValProb_FullCSM nEV nMics eigVal eigVec (steering_vector float32 2 true k d0 d)
    / normalization 2 nMics d0 d * nf.
Proof.
  unfold _freqBeamformer_EigValProb_Formulation2AkaInverse_FullCSM.
  unfold _freqBeamformer_EigValProb_Formulation2AkaInverse_FullCSM_steerVec.
  cbv beta iota zeta.
  change (normalization 2 nMics d0 d) with ((INR nMics * d0) * (INR nMics * d0)).
  f_equal. f_equal.
  apply reduce_EigValProb_FullCSM_ext.
  intros m Hm. rewrite steering_vector_2, for_range_fill.
  rewrite (proj2 (Nat.ltb_lt m nMics) Hm). reflexivity.
Qed.

Lemma EigValProb_Formulation2_CsmRemovedDiag_spec nEV nMics eigVal eigVec d0 d k nf :
  _freqBeamformer_EigValProb_Formulation2AkaInverse_CsmRemovedDiag float32 nEV nMics eigVal eigVec d0 d k nf
  = reduce_EigValProb_CsmRemovedDiag nEV nMics eigVal eigVec (steering_vector float32 2 true k d0 d)
    / normalization 2 nMics d0 d * nf.
Proof.
  unfold _freqBeamformer_EigValProb_Formulation2AkaInverse_CsmRemovedDiag.
  unfold _freqBeamformer_EigValProb_Formulation2AkaInverse_CsmRemovedDiag_steerVec.
  cbv beta iota zeta.
  change (normalization 2 nMics d0 d) with ((INR nMics * d0) * (INR nMics * d0)).
  f_equal. f_equal.
  apply reduce_EigValProb_CsmRemovedDiag_ext.
  intros m Hm. rewrite steering_vector_2, for_range_fill.
  rewrite (proj2 (Nat.ltb_lt m nMics) Hm). reflexivity.
Qed.

Lemma EigValProb_Formulation3_FullCSM_spec nEV nMics eigVal eigVec d0 d k nf :
  _freqBeamformer_EigValProb_Formulation3AkaTrueLevel_FullCSM float32 nEV nMics eigVal eigVec d0 d k nf
  = reduce_EigValProb_FullCSM nEV nMics eigVal eigVec (steering_vector float32 3 true k d0 d)
    / normalization 3 nMics d0 d * nf.
Proof.
  unfold _freqBeamformer_EigValProb_Formulation3AkaTrueLevel_FullCSM.
  assert (E : _freqBeamformer_EigValProb_Formulation3AkaTrueLevel_FullCSM_steerVec float32 nMics d0 d k
              = (Rsum nMics (fun m => 1 / (d m * d m)),
                 for_range nMics (fun m a =>
                   upd1 a m (CdivR (expMinusJ (float32 (k * (d m - d0)))) (d m)))
                   (fun _ => C0)))
    by exact (for_range_pair_fill nMics _ _ _).
  rewrite E.
  cbv beta iota zeta.
  change (normalization 3 nMics d0 d) with ((d0 * Rsum nMics (fun m => 1 / (d m * d m))) * (d0 * Rsum nMics (fun m => 1 / (d m * d m)))).
  f_equal. f_equal.
  apply reduce_EigValProb_FullCSM_ext.
  intros m Hm. rewrite steering_vector_3, for_range_fill.
  rewrite (proj2 (Nat.ltb_lt m nMics) Hm). reflexivity.
Qed.

Lemma EigValProb_Formulation3_CsmRemovedDiag_spec nEV nMics eigVal eigVec d0 d k nf :
  _freqBeamformer_EigValProb_Formulation3AkaTrueLevel_CsmRemovedDiag float32 nEV nMics eigVal eigVec d0 d k nf
  = reduce_EigValProb_CsmRemovedDiag nEV nMics eigVal eigVec (steering_vector float32 3 true k d0 d)
    / normalization 3 nMics d0 d * nf.
Proof.
  unfold _freqBeamformer_EigValProb_Formulation3AkaTrueLevel_CsmRemovedDiag.
  assert (E : _freqBeamformer_EigValProb_Formulation3AkaTrueLevel_CsmRemovedDiag_steerVec float32 nMics d0 d k
              = (Rsum nMics (fun m => 1 / (d m * d m)),
                 for_range nMics (fun m a =>
                   upd1 a m (CdivR (expMinusJ (float32 (k * (d m - d0)))) (d m)))
                   (fun _ => C0)))
    by exact (for_range_pair_fill nMics _ _ _).
  rewrite E.
  cbv beta iota zeta.
  change (normalization 3 nMics d0 d) with ((d0 * Rsum nMics (fun m => 1 / (d m * d m))) * (d0 * Rsum nMics (fun m => 1 / (d m * d m)))).
  f_equal. f_equal.
  apply reduce_EigValProb_CsmRemovedDiag_ext.
  intros m Hm. rewrite steering_vector_3, for_range_fill.
  rewrite (proj2 (Nat.ltb_lt m nMics) Hm). reflexivity.
Qed.

Lemma EigValProb_Formulation4_FullCSM_spec nEV nMics eigVal eigVec d0 d k nf :
  _freqBeamformer_EigValProb_Formulation4AkaTrueLocation_FullCSM float32 nEV nMics eigVal eigVec d0 d k nf
  = reduce_EigValProb_FullCSM nEV nMics eigVal eigVec (steering_vector float32 4 true k d0 d)
    / normalization 4 nMics d0 d * nf.
Proof.
  unfold _freqBeamformer_EigValProb_Formulation4AkaTrueLocation_FullCSM.
  assert (E : _freqBeamformer_EigValProb_Formulation4AkaTrueLocation_FullCSM_steerVec float32 nMics d0 d k
              = (Rsum nMics (fun m => 1 / (d m * d m)),
                 for_range nMics (fun m a =>
                   upd1 a m (CdivR (expMinusJ (float32 (k * (d m - d0)))) (d m)))
                   (fun _ => C0)))
    by exact (for_range_pair_fill nMics _ _ _).
  rewrite E.
  cbv beta iota zeta.
  change (normalization 4 nMics d0 d) with (INR nMics * Rsum nMics (fun m => 1 / (d m * d m))).
  f_equal. f_equal.
  apply reduce_EigValProb_FullCSM_ext.
  intros m Hm. rewrite steering_vector_4, for_range_fill.
  rewrite (proj2 (Nat.ltb_lt m nMics) Hm). reflexivity.
Qed.

Lemma EigValProb_Formulation4_CsmRemovedDiag_spec nEV nMics eigVal eigVec d0 d k nf :
  _freqBeamformer_EigValProb_Formulation4AkaTrueLocation_CsmRemovedDiag float32 nEV nMics eigVal eigVec d0 d k nf
  = reduce_EigValProb_CsmRemovedDiag nEV nMics eigVal eigVec (steering_vector float32 4 true k d0 d)
    / normalization 4 nMics d0 d * nf.
Proof.
  unfold _freqBeamformer_EigValProb_Formulation4AkaTrueLocation_CsmRemovedDiag.
  assert (E : _freqBeamformer_EigValProb_Formulation4AkaTrueLocation_CsmRemovedDiag_steerVec float32 nMics d0 d k
              = (Rsum nMics (fun m => 1 / (d m * d m)),
                 for_range nMics (fun m a =>
                   upd1 a m (CdivR (expMinusJ (float32 (k * (d m - d0)))) (d m)))
                   (fun _ => C0)))
    by exact (for_range_pair_fill nMics _ _ _).
  rewrite E.
  cbv beta iota zeta.
  change (normalization 4 nMics d0 d) with (INR nMics * Rsum nMics (fun m => 1 / (d m * d m))).
  f_equal. f_equal.
  apply reduce_EigValProb_CsmRemovedDiag_ext.
  intros m Hm. rewrite steering_vector_4, for_range_fill.
  rewrite (proj2 (Nat.ltb_lt m nMics) Hm). reflexivity.
Qed.


(** The dictionary of [beamformerFreq], read through these equations. *)
Lemma beamformerDict_Csm z rd f :
  beamformerDict float32 false (SteerInt z) rd = Some (Core_Csm f) ->
  forall nMics csm d0 d k nf,
    f nMics csm d0 d k nf
    = (if rd then reduce_CsmRemovedDiag else reduce_FullCSM) nMics csm
        (steering_vector float32 z false k d0 d)
      / normalization z nMics d0 d * nf.
Proof.
  intros H nMics csm d0 d k nf.
  destruct z as [|p|p]; try discriminate H.
  destruct p as [p|p|];
    [destruct p as [p|p|]
    |destruct p as [p|p|]; [ |destruct p as [p|p|]| ]| ];
    destruct rd; simpl in H; try discriminate H; injection H as <-.
  - apply Formulation3_CsmRemovedDiag_spec.
  - apply Formulation3_FullCSM_spec.
  - apply Formulation4_CsmRemovedDiag_spec.
  - apply Formulation4_FullCSM_spec.
  - apply Formulation2_CsmRemovedDiag_spec.
  - apply Formulation2_FullCSM_spec.
  - apply Formulation1_CsmRemovedDiag_spec.
  - apply Formulation1_FullCSM_spec.
Qed.

Lemma beamformerDict_Eig z rd f :
  beamformerDict float32 true (SteerInt z) rd = Some (Core_Eig f) ->
  forall nEV nMics eigVal eigVec d0 d k nf,
    f nEV nMics eigVal eigVec d0 d k nf
    = (if rd then reduce_EigValProb_CsmRemovedDiag
       else reduce_EigValProb_FullCSM) nEV nMics eigVal eigVec
        (steering_vector float32 z (EigValProb_centered z rd) k d0 d)
      / normalization z nMics d0 d * nf.
Proof.
  intros H nEV nMics eigVal eigVec d0 d k nf.
  destruct z as [|p|p]; try discriminate H.
  destruct p as [p|p|];
    [destruct p as [p|p|]
    |destruct p as [p|p|]; [ |destruct p as [p|p|]| ]| ];
    destruct rd; simpl in H; try discriminate H; injection H as <-.
  - apply EigValProb_Formulation3_CsmRemovedDiag_spec.
  - apply EigValProb_Formulation3_FullCSM_spec.
  - apply EigValProb_Formulation4_CsmRemovedDiag_spec.
  - apply EigValProb_Formulation4_FullCSM_spec.
  - apply EigValProb_Formulation2_CsmRemovedDiag_spec.
  - apply EigValProb_Formulation2_FullCSM_spec.
  - apply EigValProb_Formulation1_CsmRemovedDiag_spec.
  - apply EigValProb_Formulation1_FullCSM_spec.
Qed.

End KernelFacts.

(** ** Full csm, removed diagonal and spectral decomposition *)

Lemma real_diagonal_term (a h : complex128) :
  real (a * conjugate h * h)%C = real (CmulR a (Cnorm2 h)).
Proof. unfold Cnorm2. simpl. ring. Qed.

(** The full-csm loop is the removed-diagonal loop plus the diagonal. *)
Lemma reduce_FullCSM_diagonal n csm h :
  reduce_FullCSM n csm h
  = reduce_CsmRemovedDiag n csm h + real (diagonal_contribution n csm h).
Proof.
  rewrite reduce_FullCSM_sum, reduce_CsmRemovedDiag_sum.
  unfold diagonal_contribution. rewrite real_Csum, <- Rsum_add.
  apply Rsum_ext. intros c _. rewrite real_diagonal_term. reflexivity.
Qed.

Lemma diagonal_contribution_ext n csm csm' h :
  (forall m, (m < n)%nat -> csm' m m = csm m m) ->
  diagonal_contribution n csm' h = diagonal_contribution n csm h.
Proof.
  intros H. apply Csum_ext. intros m Hm. rewrite H by exact Hm. reflexivity.
Qed.

(** A real diagonal gives a real diagonal contribution. *)
Lemma diagonal_contribution_real n csm h :
  (forall m, (m < n)%nat -> imag (csm m m) = 0) ->
  imag (diagonal_contribution n csm h) = 0.
Proof.
  intros H. unfold diagonal_contribution. rewrite imag_Csum.
  apply Rsum_zero. intros m Hm. simpl. rewrite (H m Hm). ring.
Qed.

Lemma eig_diagonal_difference nEV nMics eigVal eigVec h :
  reduce_EigValProb_FullCSM nEV nMics eigVal eigVec h
  - reduce_EigValProb_CsmRemovedDiag nEV nMics eigVal eigVec h
  = eig_diagonal_contribution nEV nMics eigVal eigVec h.
Proof.
  rewrite reduce_EigValProb_FullCSM_sum, reduce_EigValProb_CsmRemovedDiag_sum.
  ring.
Qed.

Section Reconstruction.

Variables nEV nMics : nat.
Variable eigVal : nat -> R.
Variable eigVec : nat -> nat -> complex128.
Variable csm : nat -> nat -> complex128.

Hypothesis csm_reconstruction :
  forall r c, (r < nMics)%nat -> (c < nMics)%nat ->
    csm r c = spectral_reconstruction nEV eigVal eigVec r c.

Lemma quadratic_form_csm h :
  quadratic_form nMics csm h = RtoC (eig_power nEV nMics eigVal eigVec h).
Proof.
  rewrite <- quadratic_form_reconstruction.
  apply quadratic_form_ext. exact csm_reconstruction.
Qed.

Lemma reduce_FullCSM_reconstruction h :
  reduce_FullCSM nMics csm h = eig_power nEV nMics eigVal eigVec h.
Proof.
  rewrite (reduce_FullCSM_ext nMics
             (spectral_reconstruction nEV eigVal eigVec) csm h h)
    by (intros; try apply csm_reconstruction; try reflexivity; lia).
  pose proof (quadratic_form_completion nMics
                (spectral_reconstruction nEV eigVal eigVec) h) as HQ.
  rewrite (quadratic_form_ext nMics
             (spectral_reconstruction nEV eigVal eigVec)) in HQ
    by (intros; apply hermitian_completion_reconstruction).
  rewrite quadratic_form_reconstruction in HQ.
  apply (f_equal real) in HQ. simpl in HQ. symmetry. exact HQ.
Qed.

Lemma reduce_CsmRemovedDiag_reconstruction h :
  reduce_CsmRemovedDiag nMics csm h
  = eig_power nEV nMics eigVal eigVec h
    - eig_diagonal_contribution nEV nMics eigVal eigVec h.
Proof.
  pose proof (reduce_FullCSM_diagonal nMics csm h) as HD.
  rewrite reduce_FullCSM_reconstruction in HD.
  rewrite (diagonal_contribution_ext nMics
             (spectral_reconstruction nEV eigVal eigVec) csm h) in HD
    by (intros; apply csm_reconstruction; assumption).
  rewrite diagonal_reconstruction in HD. simpl in HD. lra.
Qed.

End Reconstruction.

(** ** The specification of the beamformer kernels *)

Section KernelClaims.

Variable float32 : R -> R.

(** C1. For [nMics >= 1] the direct full-csm kernel of Formulation I returns
    [steer^H . C . steer / nMics^2 * normFactor], where [C] is the Hermitian
    completion of the upper triangle of [csm] and
    [steer[m] = exp(-j float32(k distGridToAllMics[m]))]: the kernel's sum of
    [2 Re(csm[r,c] conj(steer[r]) steer[c])] over [r < c] plus the diagonal
    terms is the real part of the quadratic form; the quadratic form is that
    real number as soon as the diagonal of [csm] is real, as the diagonal of
    a Hermitian matrix is; and the kernel reads no entry [csm[r,c]] with
    [r > c], since two matrices with the same upper triangle give the same
    result. *)
Theorem Formulation1_FullCSM_quadratic_form
    nMics csm distGridToArrayCenter distGridToAllMics waveNumber normFactor :
  (1 <= nMics)%nat ->
  let steer := fun m =>
    Cexp (Ci * RtoC (- float32 (waveNumber * distGridToAllMics m))) in
  let C := hermitian_completion csm in
  let result :=
    _freqBeamformer_Formulation1AkaClassic_FullCSM float32 nMics csm
      distGridToArrayCenter distGridToAllMics waveNumber normFactor in
  result
    = real (quadratic_form nMics C steer) / (INR nMics * INR nMics) * normFactor
  /\ ((forall m, (m < nMics)%nat -> imag (csm m m) = 0) ->
      RtoC result
      = CmulR (CdivR (quadratic_form nMics C steer) (INR nMics * INR nMics))
          normFactor)
  /\ (forall csm',
        (forall r c, (r <= c)%nat -> (c < nMics)%nat -> csm' r c = csm r c) ->
        _freqBeamformer_Formulation1AkaClassic_FullCSM float32 nMics csm'
          distGridToArrayCenter distGridToAllMics waveNumber normFactor
        = result).
Proof.
  intros Hn steer C result.
  assert (Hspec : forall csm0,
    _freqBeamformer_Formulation1AkaClassic_FullCSM float32 nMics csm0
      distGridToArrayCenter distGridToAllMics waveNumber normFactor
    = reduce_FullCSM nMics csm0 steer / (INR nMics * INR nMics) * normFactor).
  { intros csm0. apply Formulation1_FullCSM_spec. }
  assert (HQ := quadratic_form_completion nMics csm steer). fold C in HQ.
  split; [|split].
  - unfold result. rewrite Hspec, HQ. reflexivity.
  - intros Hdiag. unfold result. rewrite Hspec, HQ.
    unfold RtoC, CmulR, CdivR. simpl. f_equal.
    rewrite Rsum_zero; [unfold Rdiv; ring|].
    intros c Hc. simpl. rewrite (Hdiag c Hc). ring.
  - intros csm' Hup. unfold result. rewrite !Hspec. f_equal. f_equal.
    apply reduce_FullCSM_ext; [exact Hup|reflexivity].
Qed.

(** C2. When the csm is the spectral reconstruction
    [sum_i eigVal[i] eigVec[:,i] eigVec[:,i]^H] of the eigenpairs handed to
    the eigenvalue kernel, the eigenvalue kernel and the direct kernel return
    the same number on the same steering vector and with the same treatment
    of the diagonal: for the caller-supplied steering vector with the full csm
    and with the diagonal removed, where
    [sum_i eigVal[i] |sum_m conj(eigVec[m,i]) steer[m]|^2] is the quadratic
    form [steer^H . C . steer], and for the full-csm kernels of Formulation I,
    which build the same steering vector. *)
Theorem EigValProb_equals_direct
    nEV nMics eigVal eigVec csm steerVec normFactor :
  (forall r c, (r < nMics)%nat -> (c < nMics)%nat ->
     csm r c = spectral_reconstruction nEV eigVal eigVec r c) ->
  _freqBeamformer_EigValProb_SpecificSteerVec_FullCSM nEV nMics eigVal eigVec
    steerVec normFactor
  = _freqBeamformer_SpecificSteerVec_FullCSM nMics csm steerVec normFactor
  /\ _freqBeamformer_EigValProb_SpecificSteerVec_CsmRemovedDiag nEV nMics
       eigVal eigVec steerVec normFactor
     = _freqBeamformer_SpecificSteerVec_CsmRemovedDiag nMics csm steerVec
         normFactor
  /\ RtoC (eig_power nEV nMics eigVal eigVec steerVec)
     = quadratic_form nMics csm steerVec
  /\ (forall distGridToArrayCenter distGridToAllMics waveNumber,
        _freqBeamformer_EigValProb_Formulation1AkaClassic_FullCSM float32
          nEV nMics eigVal eigVec distGridToArrayCenter distGridToAllMics
          waveNumber normFactor
        = _freqBeamformer_Formulation1AkaClassic_FullCSM float32 nMics csm
            distGridToArrayCenter distGridToAllMics waveNumber normFactor).
Proof.
  intros Hcsm. repeat split.
  - unfold _freqBeamformer_EigValProb_SpecificSteerVec_FullCSM,
      _freqBeamformer_SpecificSteerVec_FullCSM. cbv zeta.
    rewrite (reduce_FullCSM_reconstruction nEV nMics eigVal eigVec csm Hcsm).
    rewrite reduce_EigValProb_FullCSM_sum. reflexivity.
  - unfold _freqBeamformer_EigValProb_SpecificSteerVec_CsmRemovedDiag,
      _freqBeamformer_SpecificSteerVec_CsmRemovedDiag. cbv zeta.
    rewrite (reduce_CsmRemovedDiag_reconstruction nEV nMics eigVal eigVec csm Hcsm).
    rewrite reduce_EigValProb_CsmRemovedDiag_sum. reflexivity.
  - symmetry. apply quadratic_form_csm. exact Hcsm.
  - intros d0 d k.
    rewrite EigValProb_Formulation1_FullCSM_spec, Formulation1_FullCSM_spec.
    rewrite (reduce_FullCSM_reconstruction nEV nMics eigVal eigVec csm Hcsm).
    rewrite reduce_EigValProb_FullCSM_sum. reflexivity.
Qed.

(** C3. The result of a full-csm kernel minus the result of the
    removed-diagonal kernel of the same formulation on the same inputs is the
    contribution of the diagonal alone.  Direct kernels: the real number
    [sum_m csm[m,m] |steer[m]|^2] (the sum is that real number when the
    diagonal of [csm] is real), over the normalization of the formulation,
    times [normFactor]; this for the caller-supplied steering vector and for
    every pair of Formulations I to IV the dictionary holds.  Eigenvalue
    kernels: [sum_i eigVal[i] sum_m |conj(eigVec[m,i]) steer[m]|^2] under the
    same scaling, for the caller-supplied steering vector and for the pairs
    of II, III and IV, whose two variants build the same steering vector. *)
Theorem diagonal_removal_consistency
    nEV nMics csm eigVal eigVec steerVec
    distGridToArrayCenter distGridToAllMics waveNumber normFactor :
  _freqBeamformer_SpecificSteerVec_FullCSM nMics csm steerVec normFactor
  - _freqBeamformer_SpecificSteerVec_CsmRemovedDiag nMics csm steerVec normFactor
  = real (diagonal_contribution nMics csm steerVec) * normFactor
  /\ (forall z kFull kRemoved,
        beamformerDict float32 false (SteerInt z) false = Some (Core_Csm kFull) ->
        beamformerDict float32 false (SteerInt z) true
        = Some (Core_Csm kRemoved) ->
        kFull nMics csm distGridToArrayCenter distGridToAllMics waveNumber
          normFactor
        - kRemoved nMics csm distGridToArrayCenter distGridToAllMics waveNumber
            normFactor
        = real (diagonal_contribution nMics csm
                  (steering_vector float32 z false waveNumber
                     distGridToArrayCenter distGridToAllMics))
          / normalization z nMics distGridToArrayCenter distGridToAllMics
          * normFactor)
  /\ ((forall m, (m < nMics)%nat -> imag (csm m m) = 0) ->
      forall h, diagonal_contribution nMics csm h
                = RtoC (real (diagonal_contribution nMics csm h)))
  /\ _freqBeamformer_EigValProb_SpecificSteerVec_FullCSM nEV nMics eigVal
       eigVec steerVec normFactor
     - _freqBeamformer_EigValProb_SpecificSteerVec_CsmRemovedDiag nEV nMics
         eigVal eigVec steerVec normFactor
     = eig_diagonal_contribution nEV nMics eigVal eigVec steerVec * normFactor
  /\ (forall z kFull kRemoved,
        z <> 1%Z ->
        beamformerDict float32 true (SteerInt z) false = Some (Core_Eig kFull) ->
        beamformerDict float32 true (SteerInt z) true
        = Some (Core_Eig kRemoved) ->
        kFull nEV nMics eigVal eigVec distGridToArrayCenter distGridToAllMics
          waveNumber normFactor
        - kRemoved nEV nMics eigVal eigVec distGridToArrayCenter
            distGridToAllMics waveNumber normFactor
        = eig_diagonal_contribution nEV nMics eigVal eigVec
            (steering_vector float32 z true waveNumber
               distGridToArrayCenter distGridToAllMics)
          / normalization z nMics distGridToArrayCenter distGridToAllMics
          * normFactor).
Proof.
  split; [|split; [|split; [|split]]].
  - unfold _freqBeamformer_SpecificSteerVec_FullCSM,
      _freqBeamformer_SpecificSteerVec_CsmRemovedDiag. cbv zeta.
    rewrite reduce_FullCSM_diagonal. ring.
  - intros z kFull kRemoved HF HR.
    rewrite (beamformerDict_Csm float32 z false kFull HF).
    rewrite (beamformerDict_Csm float32 z true kRemoved HR).
    rewrite reduce_FullCSM_diagonal. unfold Rdiv. ring.
  - intros Hdiag h. apply C_eq; simpl; [reflexivity|].
    apply diagonal_contribution_real. exact Hdiag.
  - unfold _freqBeamformer_EigValProb_SpecificSteerVec_FullCSM,
      _freqBeamformer_EigValProb_SpecificSteerVec_CsmRemovedDiag. cbv zeta.
    rewrite <- eig_diagonal_difference. ring.
  - intros z kFull kRemoved Hz HF HR.
    rewrite (beamformerDict_Eig float32 z false kFull HF).
    rewrite (beamformerDict_Eig float32 z true kRemoved HR).
    unfold EigValProb_centered.
    rewrite (proj2 (Z.eqb_neq z 1) Hz). simpl.
    rewrite <- eig_diagonal_difference. unfold Rdiv. ring.
Qed.

End KernelClaims.

(** ** Steering vectors of the eigenvalue kernels, transfer function,
       wavenumber *)

(** Loops that store a row, or a slice, per index. *)
Lemma for_range_rows {A : Type} n (row : nat -> (nat -> A) -> nat -> A)
    (a : nat -> nat -> A) g :
  for_range n (fun k a => upd_row a k (row k (a k))) a g
  = if (g <? n)%nat then row g (a g) else a g.
Proof.
  induction n as [|n IH]; simpl.
  - reflexivity.
  - unfold upd_row at 1.
    destruct (Nat.eqb_spec g n) as [->|Hne].
    + rewrite IH, Nat.ltb_irrefl.
      rewrite (proj2 (Nat.ltb_lt n (S n))) by lia. reflexivity.
    + rewrite IH.
      destruct (Nat.ltb_spec g n), (Nat.ltb_spec g (S n)); try lia; reflexivity.
Qed.

Lemma for_range_slices {A : Type} n (slice : nat -> nat -> nat -> A)
    (a : nat -> nat -> nat -> A) f :
  for_range n (fun k a => upd_slice a k (slice k)) a f
  = if (f <? n)%nat then slice f else a f.
Proof.
  induction n as [|n IH]; simpl.
  - reflexivity.
  - unfold upd_slice at 1.
    destruct (Nat.eqb_spec f n) as [->|Hne].
    + rewrite (proj2 (Nat.ltb_lt n (S n))) by lia. reflexivity.
    + rewrite IH.
      destruct (Nat.ltb_spec f n), (Nat.ltb_spec f (S n)); try lia; reflexivity.
Qed.

Section SteeringClaims.

Variable float32 : R -> R.

(** C6, as the code has it.  Among the eigenvalue kernels of Formulation I
    it is the full-csm kernel whose steering vector has the phase
    [waveNumber * distGridToAllMics[m]], and the removed-diagonal kernel has
    the phase [waveNumber * (distGridToAllMics[m] - distGridToArrayCenter)],
    as have the eigenvalue kernels of Formulations II, III and IV. *)
Theorem EigValProb_steering_phase nMics d0 d k m :
  (m < nMics)%nat ->
  let plain := Cexp (Ci * RtoC (- float32 (k * d m))) in
  let centered := Cexp (Ci * RtoC (- float32 (k * (d m - d0)))) in
  _freqBeamformer_EigValProb_Formulation1AkaClassic_FullCSM_steerVec
    float32 nMics d0 d k m = plain
  /\ _freqBeamformer_EigValProb_Formulation1AkaClassic_CsmRemovedDiag_steerVec
       float32 nMics d0 d k m = centered
  /\ _freqBeamformer_EigValProb_Formulation2AkaInverse_FullCSM_steerVec
       float32 nMics d0 d k m = (centered * RtoC (d m))%C
  /\ _freqBeamformer_EigValProb_Formulation2AkaInverse_CsmRemovedDiag_steerVec
       float32 nMics d0 d k m = (centered * RtoC (d m))%C
  /\ snd (_freqBeamformer_EigValProb_Formulation3AkaTrueLevel_FullCSM_steerVec
            float32 nMics d0 d k) m = CdivR centered (d m)
  /\ snd (_freqBeamformer_EigValProb_Formulation3AkaTrueLevel_CsmRemovedDiag_steerVec
            float32 nMics d0 d k) m = CdivR centered (d m)
  /\ snd (_freqBeamformer_EigValProb_Formulation4AkaTrueLocation_FullCSM_steerVec
            float32 nMics d0 d k) m = CdivR centered (d m)
  /\ snd (_freqBeamformer_EigValProb_Formulation4AkaTrueLocation_CsmRemovedDiag_steerVec
            float32 nMics d0 d k) m = CdivR centered (d m).
Proof.
  intros Hm plain centered.
  assert (Hpair : forall K,
    K = for_range nMics (fun m '(s, a) =>
          (s + 1 / (d m * d m),
           upd1 a m (CdivR (expMinusJ (float32 (k * (d m - d0)))) (d m))))
          (0, fun _ => C0) ->
    snd K m = CdivR centered (d m)).
  { intros K ->. rewrite for_range_pair_fill. simpl.
    rewrite for_range_fill, (proj2 (Nat.ltb_lt m nMics) Hm).
    rewrite expMinusJ_exp. reflexivity. }
  repeat split; try (apply Hpair; reflexivity).
  - unfold _freqBeamformer_EigValProb_Formulation1AkaClassic_FullCSM_steerVec.
    cbv zeta. rewrite for_range_fill, (proj2 (Nat.ltb_lt m nMics) Hm).
    apply expMinusJ_exp.
  - unfold _freqBeamformer_EigValProb_Formulation1AkaClassic_CsmRemovedDiag_steerVec.
    cbv zeta. rewrite for_range_fill, (proj2 (Nat.ltb_lt m nMics) Hm).
    apply expMinusJ_exp.
  - unfold _freqBeamformer_EigValProb_Formulation2AkaInverse_FullCSM_steerVec.
    cbv zeta. rewrite for_range_fill, (proj2 (Nat.ltb_lt m nMics) Hm).
    rewrite expMinusJ_exp. reflexivity.
  - unfold _freqBeamformer_EigValProb_Formulation2AkaInverse_CsmRemovedDiag_steerVec.
    cbv zeta. rewrite for_range_fill, (proj2 (Nat.ltb_lt m nMics) Hm).
    rewrite expMinusJ_exp. reflexivity.
Qed.

(** C8. [transfer] returns, for every frequency [f], grid point [g] and
    microphone [m],
    [exp(-j k_f (dist[g,m] - distCenter[g])) * distCenter[g] / dist[g,m]],
    where [k_f] is the imaginary part of [wavenumber[f]] and the phase is
    rounded by [float32] before the exponential is taken. *)
Theorem transfer_entry nFreqs nGridPoints nMics
    distGridToArrayCenter distGridToAllMics wavenumber f g m :
  (f < nFreqs)%nat -> (g < nGridPoints)%nat -> (m < nMics)%nat ->
  transfer float32 nFreqs nGridPoints nMics distGridToArrayCenter
    distGridToAllMics wavenumber f g m
  = CdivR
      (Cexp (Ci * RtoC (- float32 (imag (wavenumber f)
                                   * (distGridToAllMics g m
                                      - distGridToArrayCenter g))))
       * RtoC (distGridToArrayCenter g))%C
      (distGridToAllMics g m).
Proof.
  intros Hf Hg Hm. unfold transfer.
  rewrite for_range_slices, (proj2 (Nat.ltb_lt f nFreqs) Hf).
  rewrite (for_range_rows nGridPoints
             (fun cntGrid row =>
                _transferCoreFunc float32 nMics (distGridToArrayCenter cntGrid)
                  (distGridToAllMics cntGrid) (imag (wavenumber f)) row)).
  rewrite (proj2 (Nat.ltb_lt g nGridPoints) Hg).
  unfold _transferCoreFunc. cbv zeta.
  rewrite for_range_fill, (proj2 (Nat.ltb_lt m nMics) Hm).
  rewrite expMinusJ_exp. reflexivity.
Qed.

(** C9. Two wavenumber arrays with the same imaginary parts give the same
    beamforming map, whatever the kernel the key selects (Formulations I to
    IV, direct or eigenvalue, full csm or removed diagonal; an unknown key
    fails for both), and the same transfer functions; the inputs of the
    caller-supplied steering vector hold no wavenumber at all. *)
Theorem wavenumber_real_part_unused nFreqs nGridPoints nMics nEV
    (wavenumber wavenumber' : nat -> complex128) :
  (forall f, (f < nFreqs)%nat -> imag (wavenumber f) = imag (wavenumber' f)) ->
  (forall boolIsEigValProb t boolRemovedDiagOfCSM normFactor
          distGridToArrayCenter distGridToAllMics csm,
     beamformerFreq float32 nFreqs nGridPoints nMics nEV boolIsEigValProb t
       boolRemovedDiagOfCSM normFactor
       (Input_Csm distGridToArrayCenter distGridToAllMics wavenumber csm)
     = beamformerFreq float32 nFreqs nGridPoints nMics nEV boolIsEigValProb t
         boolRemovedDiagOfCSM normFactor
         (Input_Csm distGridToArrayCenter distGridToAllMics wavenumber' csm))
  /\ (forall boolIsEigValProb t boolRemovedDiagOfCSM normFactor
          distGridToArrayCenter distGridToAllMics eigVal eigVec,
     beamformerFreq float32 nFreqs nGridPoints nMics nEV boolIsEigValProb t
       boolRemovedDiagOfCSM normFactor
       (Input_Eig distGridToArrayCenter distGridToAllMics wavenumber
          eigVal eigVec)
     = beamformerFreq float32 nFreqs nGridPoints nMics nEV boolIsEigValProb t
         boolRemovedDiagOfCSM normFactor
         (Input_Eig distGridToArrayCenter distGridToAllMics wavenumber'
            eigVal eigVec))
  /\ (forall distGridToArrayCenter distGridToAllMics,
     transfer float32 nFreqs nGridPoints nMics distGridToArrayCenter
       distGridToAllMics wavenumber
     = transfer float32 nFreqs nGridPoints nMics distGridToArrayCenter
         distGridToAllMics wavenumber').
Proof.
  intros Himag. split; [|split].
  - intros b t rd nf d0 d csm. unfold beamformerFreq.
    destruct (beamformerDict float32 b t rd) as [[k|k|k|k]|]; try reflexivity.
    f_equal. apply for_range_ext. intros f x Hf.
    rewrite (Himag f Hf). reflexivity.
  - intros b t rd nf d0 d eigVal eigVec. unfold beamformerFreq.
    destruct (beamformerDict float32 b t rd) as [[k|k|k|k]|]; try reflexivity.
    f_equal. apply for_range_ext. intros f x Hf.
    rewrite (Himag f Hf). reflexivity.
  - intros d0 d. unfold transfer. apply for_range_ext. intros f x Hf.
    rewrite (Himag f Hf). reflexivity.
Qed.

End SteeringClaims.

(** ** The kernel claims on example data *)

(** Formulation I on two microphones. *)
Lemma Formulation1_FullCSM_quadratic_form_witness :
  _freqBeamformer_Formulation1AkaClassic_FullCSM example_float32 2 example_csm
    1 example_dist 1 1
  = real (quadratic_form 2 (hermitian_completion example_csm)
            (fun m => Cexp (Ci * RtoC (- example_float32 (1 * example_dist m)))))
    / (INR 2 * INR 2) * 1.
Proof.
  apply (Formulation1_FullCSM_quadratic_form example_float32 2 example_csm
           1 example_dist 1 1).
  lia.
Defined.

(** One eigenpair on two microphones, the csm being its reconstruction. *)
Lemma EigValProb_equals_direct_witness :
  let csm := spectral_reconstruction 1 example_eigVal example_eigVec in
  _freqBeamformer_EigValProb_SpecificSteerVec_FullCSM 1 2 example_eigVal
    example_eigVec example_steerVec 1
  = _freqBeamformer_SpecificSteerVec_FullCSM 2 csm example_steerVec 1
  /\ _freqBeamformer_EigValProb_SpecificSteerVec_CsmRemovedDiag 1 2
       example_eigVal example_eigVec example_steerVec 1
     = _freqBeamformer_SpecificSteerVec_CsmRemovedDiag 2 csm example_steerVec 1.
Proof.
  pose proof (EigValProb_equals_direct example_float32 1 2 example_eigVal
                example_eigVec
                (spectral_reconstruction 1 example_eigVal example_eigVec)
                example_steerVec 1 (fun r c _ _ => eq_refl)) as H.
  split; [exact (proj1 H)|exact (proj1 (proj2 H))].
Defined.

(** The pair of Formulation III of the direct kernels and the pair of
    Formulation II of the eigenvalue kernels. *)
Lemma diagonal_removal_consistency_witness :
  _freqBeamformer_Formulation3AkaTrueLevel_FullCSM example_float32 2
    example_csm 1 example_dist 1 1
  - _freqBeamformer_Formulation3AkaTrueLevel_CsmRemovedDiag example_float32 2
      example_csm 1 example_dist 1 1
  = real (diagonal_contribution 2 example_csm
            (steering_vector example_float32 3 false 1 1 example_dist))
    / normalization 3 2 1 example_dist * 1
  /\ _freqBeamformer_EigValProb_Formulation2AkaInverse_FullCSM example_float32
       1 2 example_eigVal example_eigVec 1 example_dist 1 1
     - _freqBeamformer_EigValProb_Formulation2AkaInverse_CsmRemovedDiag
         example_float32 1 2 example_eigVal example_eigVec 1 example_dist 1 1
     = eig_diagonal_contribution 1 2 example_eigVal example_eigVec
         (steering_vector example_float32 2 true 1 1 example_dist)
       / normalization 2 2 1 example_dist * 1.
Proof.
  pose proof (diagonal_removal_consistency example_float32 1 2 example_csm
                example_eigVal example_eigVec example_steerVec
                1 example_dist 1 1) as H.
  split.
  - apply (proj1 (proj2 H) 3%Z); reflexivity.
  - apply (proj2 (proj2 (proj2 (proj2 H))) 2%Z); [discriminate|reflexivity|reflexivity].
Defined.

(** The steering vectors of the two eigenvalue kernels of Formulation I at
    the first of two microphones. *)
Lemma EigValProb_steering_phase_witness :
  _freqBeamformer_EigValProb_Formulation1AkaClassic_FullCSM_steerVec
    example_float32 2 1 example_dist 1 0
  = Cexp (Ci * RtoC (- example_float32 (1 * example_dist 0%nat)))
  /\ _freqBeamformer_EigValProb_Formulation1AkaClassic_CsmRemovedDiag_steerVec
       example_float32 2 1 example_dist 1 0
     = Cexp (Ci * RtoC (- example_float32 (1 * (example_dist 0%nat - 1)))).
Proof.
  pose proof (EigValProb_steering_phase example_float32 2 1 example_dist 1 0
                ltac:(lia)) as H.
  split; [exact (proj1 H)|exact (proj1 (proj2 H))].
Defined.

(** C6 as the specification states it fails at one microphone at distance 1 from the
    grid point, with the array center at distance 1 and wavenumber 1: the
    removed-diagonal kernel stores the phasor of phase [1 * (1 - 1) = 0],
    whose imaginary part is 0, and not the one of phase [1 * 1], whose
    imaginary part is [- sin 1 < 0]; the full-csm kernel stores the phasor of
    phase [1 * 1], and not the one of phase [1 * (1 - 1)]. *)
Lemma EigValProb_steering_phase_counterexample :
  imag (_freqBeamformer_EigValProb_Formulation1AkaClassic_CsmRemovedDiag_steerVec
          example_float32 1 1 (fun _ => 1) 1 0) = 0
  /\ imag (Cexp (Ci * RtoC (- example_float32 (1 * 1)))) < 0
  /\ imag (_freqBeamformer_EigValProb_Formulation1AkaClassic_FullCSM_steerVec
             example_float32 1 1 (fun _ => 1) 1 0) < 0
  /\ imag (Cexp (Ci * RtoC (- example_float32 (1 * (1 - 1))))) = 0.
Proof.
  assert (Hsin : 0 < sin 1).
  { apply sin_gt_0; [lra|]. pose proof PI2_1. lra. }
  unfold example_float32.
  replace (1 * (1 - 1)) with 0 by ring. replace (1 * 1) with 1 by ring.
  repeat split.
  - unfold _freqBeamformer_EigValProb_Formulation1AkaClassic_CsmRemovedDiag_steerVec.
    simpl. replace (1 * (1 - 1)) with 0 by ring. rewrite sin_0. ring.
  - simpl. replace (0 * -(1) - 1 * 0) with 0 by ring.
    replace (0 * 0 + 1 * -(1)) with (-(1)) by ring.
    rewrite exp_0, sin_neg. lra.
  - unfold _freqBeamformer_EigValProb_Formulation1AkaClassic_FullCSM_steerVec.
    simpl. replace (1 * 1) with 1 by ring. lra.
  - simpl. replace (0 * -0 - 1 * 0) with 0 by ring.
    replace (0 * 0 + 1 * -0) with 0 by ring.
    rewrite sin_0. ring.
Qed.

(** One frequency, one grid point, two microphones. *)
Lemma transfer_entry_witness :
  transfer example_float32 1 1 2 (fun _ => 1) (fun _ => example_dist)
    (fun _ => Cplx 0 1) 0 0 1
  = CdivR
      (Cexp (Ci * RtoC (- example_float32 (imag (Cplx 0 1)
                                           * (example_dist 1%nat - 1))))
       * RtoC 1)%C
      (example_dist 1%nat).
Proof.
  apply (transfer_entry example_float32 1 1 2 (fun _ => 1)
           (fun _ => example_dist) (fun _ => Cplx 0 1) 0 0 1); lia.
Defined.

(** The wavenumbers [5 + 2j] and [7 + 2j] give the same map for the direct
    full-csm kernel of Formulation I, and the same transfer functions. *)
Lemma wavenumber_real_part_unused_witness :
  beamformerFreq example_float32 1 1 2 1 false (SteerInt 1) false 1
    (Input_Csm (fun _ => 1) (fun _ => example_dist) (fun _ => Cplx 5 2)
       (fun _ => example_csm))
  = beamformerFreq example_float32 1 1 2 1 false (SteerInt 1) false 1
      (Input_Csm (fun _ => 1) (fun _ => example_dist) (fun _ => Cplx 7 2)
         (fun _ => example_csm))
  /\ transfer example_float32 1 1 2 (fun _ => 1) (fun _ => example_dist)
       (fun _ => Cplx 5 2)
     = transfer example_float32 1 1 2 (fun _ => 1) (fun _ => example_dist)
         (fun _ => Cplx 7 2).
Proof.
  pose proof (wavenumber_real_part_unused example_float32 1 1 2 1
                (fun _ => Cplx 5 2) (fun _ => Cplx 7 2)
                (fun f _ => eq_refl)) as H.
  split.
  - apply (proj1 H).
  - apply (proj2 (proj2 H)).
Defined.

(** ** Buffers, lookups and blocks *)

Section Buffers.

Import sources.

Lemma rows_S (out : nat -> list R) i :
  rows out (S i) = rows out i ++ [out i].
Proof. unfold rows. rewrite seq_S, map_app. reflexivity. Qed.

(** Writing row [i] does not change the block below it. *)
Lemma rows_upd1 (out : nat -> list R) i row :
  rows (upd1 out i row) i = rows out i.
Proof.
  unfold rows. apply map_ext_in. intros k Hk. apply in_seq in Hk.
  unfold upd1. destruct (Nat.eqb_spec k i); [lia|reflexivity].
Qed.

Lemma rows_upd1_S (out : nat -> list R) i row :
  rows (upd1 out i row) (S i) = rows out i ++ [row].
Proof.
  rewrite rows_S, rows_upd1. unfold upd1. rewrite Nat.eqb_refl. reflexivity.
Qed.



(** The blocks of the fixed source, put end to end, are the rows in the
    buffer followed by the rows still to come. *)
Lemma PointSource_loop_concat self num signal rm n :
  forall ind i out, (i < num)%nat ->
  concat (PointSource_loop self num signal rm n ind i out)
  = rows out i ++ PointSource_samples self signal rm n ind.
Proof.
  induction n as [|n IH]; intros ind i out Hi;
    cbn [PointSource_loop PointSource_samples].
  - simpl. rewrite app_nil_r. reflexivity.
  - destruct (lookup self signal ind) as [samples|];
      [|simpl; rewrite app_nil_r; reflexivity].
    rewrite (proj2 (Nat.ltb_lt i num) Hi).
    destruct (Nat.eqb_spec (S i) num) as [Heq|Hne].
    + simpl. rewrite IH by lia. rewrite <- Heq, rows_upd1_S.
      simpl. rewrite <- app_assoc. reflexivity.
    + rewrite IH by lia. rewrite rows_upd1_S, <- app_assoc. reflexivity.
Qed.



End Buffers.

(** ** The Newton-Raphson loop *)

Section Newton.

Import sources.

(** The conversion to [long] on both sides of zero. *)
Lemma to_long_nonneg x z :
  0 <= x -> IZR z <= x < IZR z + 1 -> to_long x = z.
Proof.
  intros Hx Hz. unfold to_long. destruct (Rle_dec 0 x) as [_|Hn]; [|lra].
  symmetry. apply Int_part_spec. lra.
Qed.


Variable self : MovingPointSource.
Variables epslim c0 : R.
Variable t : list R.

(** The loop runs its body when the test holds and an iteration is left. *)
Lemma newton_continue fuel rm eps te m :
  max_abs eps = Some m -> m > epslim ->
  newton self epslim c0 t (S fuel) rm eps te
  = let '(rm', eps', te') := newton_body self c0 t te in
    newton self epslim c0 t fuel (Some rm') eps' te'.
Proof.
  intros Hm Hgt. cbn [newton]. rewrite Hm.
  destruct (Rgt_dec m epslim) as [_|Hn]; [reflexivity|contradiction].
Qed.

(** It ends when the test fails. *)
Lemma newton_stop fuel rm eps te m :
  max_abs eps = Some m -> ~ m > epslim ->
  newton self epslim c0 t fuel rm eps te = Some (rm, eps, te).
Proof.
  intros Hm Hle. destruct fuel; cbn [newton]; rewrite Hm;
    destruct (Rgt_dec m epslim) as [Hgt|_]; try contradiction; reflexivity.
Qed.

(** It ends when no iteration is left. *)
Lemma newton_cap rm eps te m :
  max_abs eps = Some m ->
  newton self epslim c0 t 0 rm eps te = Some (rm, eps, te).
Proof.
  intros Hm. cbn [newton]. rewrite Hm.
  destruct (Rgt_dec m epslim); reflexivity.
Qed.

(** The state the loop ends in is the one it started in, or the result of
    a run of the body. *)
Lemma newton_last fuel :
  forall rm eps te r,
  newton self epslim c0 t fuel rm eps te = Some r ->
  r = (rm, eps, te)
  \/ exists te_prev rm' eps' te',
       newton_body self c0 t te_prev = (rm', eps', te')
       /\ r = (Some rm', eps', te').
Proof.
  induction fuel as [|fuel IH]; intros rm eps te r; cbn [newton].
  - destruct (max_abs eps) as [m|]; [|discriminate].
    destruct (Rgt_dec m epslim); intros H; injection H as <-; left; reflexivity.
  - destruct (max_abs eps) as [m|]; [|discriminate].
    destruct (Rgt_dec m epslim).
    + destruct (newton_body self c0 t te) as [[rm1 eps1] te1] eqn:Hb.
      intros H. apply IH in H. destruct H as [->|H].
      * right. exists te, rm1, eps1, te1. split; [exact Hb|reflexivity].
      * right. exact H.
    + intros H. injection H as <-. left. reflexivity.
Qed.

End Newton.

(** ** What the generators yield *)

Section Yields.

Import sources.

(** Every row of the fixed source is a lookup divided by [rm]. *)
Lemma PointSource_loop_rows self num signal rm n :
  let good := fun row => exists ind samples,
    lookup self signal ind = Some samples /\ row = map2 Rdiv samples rm in
  forall ind i out,
  Forall good (rows out i) ->
  Forall good (concat (PointSource_loop self num signal rm n ind i out)).
Proof.
  intros good.
  assert (Hbase : forall out i, Forall good (rows out i) ->
                    Forall good (concat [rows out i])).
  { intros out i H. simpl. rewrite app_nil_r. exact H. }
  induction n as [|n IH]; intros ind i out Hout; cbn [PointSource_loop].
  - apply Hbase, Hout.
  - destruct (lookup self signal ind) as [samples|] eqn:Hl; [|apply Hbase, Hout].
    destruct (i <? num)%nat; [|apply Hbase, Hout].
    assert (Hnew : Forall good (rows (upd1 out i (map2 Rdiv samples rm)) (S i))).
    { rewrite rows_upd1_S. apply Forall_app. split; [exact Hout|].
      constructor; [|constructor]. exists ind, samples. split; [exact Hl|reflexivity]. }
    destruct (Nat.eqb_spec (S i) num) as [Heq|Hne].
    + rewrite <- Heq at 1. rewrite concat_cons. apply Forall_app. split; [exact Hnew|].
      apply IH. constructor.
    + apply IH. exact Hnew.
Qed.

(** Every row of the moving source is a lookup at the emission times [te]
    the Newton-Raphson loop ends with, divided by the [rm] of the run of
    the body that produced these [te]. *)
Lemma MovingPointSource_loop_rows self num signal epslim c0 n :
  let good := fun row => exists t te_prev rm eps te samples,
    newton_body self c0 t te_prev = (rm, eps, te)
    /\ lookup self signal
         (map (fun x => (x - start_t self + start self) * sample_freq self) te)
       = Some samples
    /\ row = map2 Rdiv samples rm in
  forall t rm i out,
  (rm = None
   \/ exists m, max_abs (map (fun _ => 1) (mpos self)) = Some m /\ m > epslim) ->
  Forall good (rows out i) ->
  Forall good
    (concat (fst (MovingPointSource_loop self num signal epslim c0 n t rm i out))).
Proof.
  intros good.
  assert (Hbase : forall out i, Forall good (rows out i) ->
                    Forall good (concat [rows out i])).
  { intros out i H. simpl. rewrite app_nil_r. exact H. }
  induction n as [|n IH]; intros t rm i out Hinv Hout;
    cbn [MovingPointSource_loop].
  - apply Hbase, Hout.
  - destruct (newton self epslim c0 t 100 rm (map (fun _ => 1) (mpos self)) t)
      as [[[rm' eps] te]|] eqn:Hnewton; [|constructor].
    destruct (lookup self signal _) as [samples|] eqn:Hl; [|apply Hbase, Hout].
    destruct rm' as [rmv|]; [|constructor].
    destruct (i <? num)%nat; [|apply Hbase, Hout].
    (* the loop ran its body: the test holds on the initial [eps] *)
    assert (Hran : exists m,
               max_abs (map (fun _ => 1) (mpos self)) = Some m /\ m > epslim).
    { destruct Hinv as [->|H]; [|exact H].
      cbn [newton] in Hnewton.
      destruct (max_abs (map (fun _ => 1) (mpos self))) as [m|]; [|discriminate].
      destruct (Rgt_dec m epslim) as [Hgt|Hle].
      - exists m. split; [reflexivity|exact Hgt].
      - discriminate. }
    assert (Hbody : exists te_prev,
               newton_body self c0 t te_prev = (rmv, eps, te)).
    { destruct Hran as (m & Hm & Hgt).
      rewrite (newton_continue self epslim c0 t 99 rm _ t m Hm Hgt) in Hnewton.
      destruct (newton_body self c0 t t) as [[rm1 eps1] te1] eqn:Hb.
      apply newton_last in Hnewton.
      destruct Hnewton as [H|(te_prev & rm2 & eps2 & te2 & Hb2 & H)];
        injection H as -> -> ->.
      - exists t. exact Hb.
      - exists te_prev. exact Hb2. }
    destruct Hbody as (te_prev & Hbody).
    assert (Hnew : Forall good (rows (upd1 out i (map2 Rdiv samples rmv)) (S i))).
    { rewrite rows_upd1_S. apply Forall_app. split; [exact Hout|].
      constructor; [|constructor].
      exists t, te_prev, rmv, eps, te, samples. repeat split; assumption. }
    destruct (Nat.eqb_spec (S i) num) as [Heq|Hne].
    + specialize (IH (map (fun x => x + 1 / sample_freq self) t) (Some rmv) O
                     (upd1 out i (map2 Rdiv samples rmv)) (or_intror Hran)
                     (Forall_nil _)).
      destruct (MovingPointSource_loop self num signal epslim c0 n _ _ O _)
        as [blocks' e].
      cbv beta iota. cbn [fst] in *. rewrite <- Heq at 1.
      rewrite concat_cons. apply Forall_app. split; [exact Hnew|exact IH].
    + apply IH; [right; exact Hran|exact Hnew].
Qed.


End Yields.

(** ** The emission time *)

Section EmissionTime.

Import sources.

Lemma map2_length {A B C : Type} (f : A -> B -> C) l l' :
  List.length l = List.length l' ->
  List.length (map2 f l l') = List.length l.
Proof.
  revert l'. induction l as [|a l IH]; intros [|b l'] H; simpl in *;
    try discriminate; try reflexivity.
  rewrite IH by lia. reflexivity.
Qed.

Lemma map2_length_eq {A B C : Type} (f : A -> B -> C) l l' n :
  List.length l = n -> List.length l' = n -> List.length (map2 f l l') = n.
Proof. intros H H'. rewrite map2_length; congruence. Qed.

Lemma max_abs_Some eps :
  eps <> [] -> exists m, max_abs eps = Some m.
Proof. destruct eps as [|x xs]; [contradiction|]. intros _. eexists. reflexivity. Qed.

(** The initial [eps = ones(num_mics)] has maximum 1. *)
Lemma max_abs_ones {A : Type} (l : list A) :
  l <> [] -> max_abs (map (fun _ => 1) l) = Some 1.
Proof.
  destruct l as [|a l]; [contradiction|]. intros _. simpl. f_equal.
  rewrite Rabs_R1. induction l as [|b l IH]; simpl.
  - reflexivity.
  - rewrite Rabs_R1. unfold Rmax at 2.
    destruct (Rle_dec 1 1); exact IH.
Qed.

Variable self : MovingPointSource.
Variables epslim c0 : R.
Variable t : list R.

Hypothesis mics : mpos self <> [].
Hypothesis t_length : List.length t = List.length (mpos self).

Lemma newton_iterate_S k st :
  newton_iterate self c0 t (S k) st
  = newton_step self c0 t (newton_iterate self c0 t k st).
Proof. reflexivity. Qed.

Lemma newton_iterate_shift k st :
  newton_iterate self c0 t k (newton_step self c0 t st)
  = newton_iterate self c0 t (S k) st.
Proof.
  induction k as [|k IH].
  - reflexivity.
  - rewrite newton_iterate_S, IH. reflexivity.
Qed.

(** The body keeps one entry per microphone. *)
Lemma newton_body_length te :
  List.length te = List.length (mpos self) ->
  List.length (snd (fst (newton_body self c0 t te))) = List.length (mpos self)
  /\ List.length (snd (newton_body self c0 t te)) = List.length (mpos self).
Proof.
  intros Hte. unfold newton_body. cbn [fst snd].
  split; repeat (first [apply map2_length_eq | rewrite length_map]);
    first [assumption | reflexivity].
Qed.

(** The loop, as the iterates of its body: it ends with the first iterate
    within the tolerance, or with the 100th. *)
Lemma newton_iterates fuel :
  forall rm eps te,
  List.length eps = List.length (mpos self) ->
  List.length te = List.length (mpos self) ->
  exists k, (k <= fuel)%nat
    /\ newton self epslim c0 t fuel rm eps te
       = Some (newton_iterate self c0 t k (rm, eps, te))
    /\ ((k < fuel)%nat ->
        within_tolerance epslim (newton_iterate self c0 t k (rm, eps, te)))
    /\ (forall j, (j < k)%nat ->
        above_tolerance epslim (newton_iterate self c0 t j (rm, eps, te))).
Proof.
  induction fuel as [|fuel IH]; intros rm eps te Heps Hte.
  - destruct (max_abs_Some eps) as [m Hm].
    { intros ->. simpl in Heps. destruct (mpos self); [contradiction|discriminate]. }
    exists O. repeat split; try lia.
    apply (newton_cap self epslim c0 t rm eps te m Hm).
  - destruct (max_abs_Some eps) as [m Hm].
    { intros ->. simpl in Heps. destruct (mpos self); [contradiction|discriminate]. }
    destruct (Rgt_dec m epslim) as [Hgt|Hle].
    + rewrite (newton_continue self epslim c0 t fuel rm eps te m Hm Hgt).
      destruct (newton_body_length te Hte) as [Hl1 Hl2].
      destruct (newton_body self c0 t te) as [[rm1 eps1] te1] eqn:Hb.
      cbn [fst snd] in Hl1, Hl2.
      destruct (IH (Some rm1) eps1 te1 Hl1 Hl2) as (k & Hk & Hn & Hstop & Hrun).
      assert (Hstep : newton_step self c0 t (rm, eps, te) = (Some rm1, eps1, te1))
        by (unfold newton_step; rewrite Hb; reflexivity).
      rewrite <- Hstep in Hn, Hstop, Hrun.
      exists (S k). split; [lia|]. split; [|split].
      * rewrite <- newton_iterate_shift. exact Hn.
      * intros Hlt. rewrite <- newton_iterate_shift. apply Hstop. lia.
      * intros [|j] Hj.
        -- exists m. split; [exact Hm|exact Hgt].
        -- rewrite <- newton_iterate_shift. apply Hrun. lia.
    + exists O. split; [lia|]. split; [|split].
      * apply (newton_stop self epslim c0 t (S fuel) rm eps te m Hm Hle).
      * intros _. exists m. split; [exact Hm|lra].
      * intros j Hj. lia.
Qed.

(** A source at rest at [p]: whatever [te] is, one run of the body gives
    the distances [r] from [p] and the emission times [t - r / c0]. *)
Lemma newton_body_at_rest p :
  c0 <> 0 -> norm3 p <> 0 ->
  (forall te, location self te = p) ->
  (forall te, velocity self te = (0, 0, 0)) ->
  forall te, List.length te = List.length (mpos self) ->
  let r := map (fun mic => norm3 (sub3 p mic)) (mpos self) in
  exists eps,
    newton_body self c0 t te = (r, eps, map2 (fun x d => x - d / c0) t r).
Proof.
  intros Hc Hp Hloc Hvel te Hte r. unfold newton_body. eexists.
  rewrite (map_ext _ (fun _ => p) Hloc te).
  rewrite (@map_ext R vec3 _ (fun _ => (0, 0, 0)) Hvel te).
  assert (Hrm : map norm3 (map2 sub3 (map (fun _ => p) te) (mpos self)) = r).
  { unfold r. clear -Hte. revert te Hte.
    induction (mpos self) as [|mic L IH]; intros [|x te] Hte; simpl in *;
      try discriminate; try reflexivity.
    rewrite IH by lia. reflexivity. }
  rewrite Hrm. f_equal.
  unfold r. clear Hrm r. revert t t_length te Hte. clear -Hc Hp.
  induction (mpos self) as [|mic L IH]; intros [|y t] Ht [|x te] Hte;
    simpl in *; try discriminate; try reflexivity.
  rewrite IH by lia. f_equal.
  destruct p as [[p0 p1] p2]. simpl. simpl in Hp. field. split; assumption.
Qed.

Lemma newton_iterate_length k rm eps te :
  List.length te = List.length (mpos self) ->
  List.length (snd (newton_iterate self c0 t k (rm, eps, te)))
  = List.length (mpos self).
Proof.
  intros Hte. induction k as [|k IH].
  - exact Hte.
  - rewrite newton_iterate_S. unfold newton_step.
    destruct (newton_iterate self c0 t k (rm, eps, te)) as [[rm1 eps1] te1].
    cbn [snd] in IH. destruct (newton_body_length te1 IH) as [_ H].
    destruct (newton_body self c0 t te1) as [[rm2 eps2] te2]. exact H.
Qed.

(** The solver as the code has it.  For every output sample the emission
    times start as the receiving times [t] and [eps] as 1 for every
    microphone; the body [te := te - eps] of the Newton-Raphson loop, with
    [eps = (te + r/c - t)/(1 + Mr)], [r] the distance of the microphone from
    the position of the source at [te] and [Mr] the velocity of the source
    along the direction of its position, over [c], runs while the largest
    [|eps|] is above the tolerance and fewer than 100 runs were made, so the
    loop ends with the first iterate within the tolerance, or with the 100th
    whatever its [eps], and raises nothing; then [t] advances by
    [1/sample_freq].  When the tolerance is below 1, so that the body runs
    once at least, a source at rest away from the origin of the coordinates,
    with [c] not zero, ends with [te = t - r/c] exactly. *)
Theorem retarded_time_solver num signal rm :
  let ones := map (fun _ => 1) (mpos self) in
  (exists k, (k <= 100)%nat
     /\ newton self epslim c0 t 100 rm ones t
        = Some (newton_iterate self c0 t k (rm, ones, t))
     /\ ((k < 100)%nat ->
         within_tolerance epslim (newton_iterate self c0 t k (rm, ones, t)))
     /\ (forall j, (j < k)%nat ->
         above_tolerance epslim (newton_iterate self c0 t j (rm, ones, t))))
  /\ (forall te_prev rm' eps' te',
        newton_body self c0 t te_prev = (rm', eps', te') ->
        let position := map (location self) te_prev in
        let Mr :=
          map (fun x => x / c0)
            (map2 dot3 (map (velocity self) te_prev)
               (map (fun l => div3 l (norm3 l)) position)) in
        rm' = map norm3 (map2 sub3 position (mpos self))
        /\ eps'
           = map2 Rdiv
               (map2 Rminus (map2 Rplus te_prev (map (fun r => r / c0) rm')) t)
               (map (fun x => 1 + x) Mr)
        /\ te' = map2 Rminus te_prev eps')
  /\ (forall n i out rmv eps te samples,
        newton self epslim c0 t 100 rm ones t = Some (Some rmv, eps, te) ->
        lookup self signal
          (map (fun x => (x - start_t self + start self) * sample_freq self) te)
        = Some samples ->
        (S i < num)%nat ->
        MovingPointSource_loop self num signal epslim c0 (S n) t rm i out
        = MovingPointSource_loop self num signal epslim c0 n
            (map (fun x => x + 1 / sample_freq self) t) (Some rmv) (S i)
            (upd1 out i (map2 Rdiv samples rmv)))
  /\ (epslim < 1 -> c0 <> 0 ->
      forall p, norm3 p <> 0 ->
        (forall te, location self te = p) ->
        (forall te, velocity self te = (0, 0, 0)) ->
        let r := map (fun mic => norm3 (sub3 p mic)) (mpos self) in
        exists eps,
          newton self epslim c0 t 100 rm ones t
          = Some (Some r, eps, map2 (fun x d => x - d / c0) t r)).
Proof.
  intros ones.
  assert (Hones : List.length ones = List.length (mpos self))
    by (unfold ones; apply length_map).
  pose proof (newton_iterates 100 rm ones t Hones t_length) as Hiter.
  split; [exact Hiter|]. split; [|split].
  - intros te_prev rm' eps' te' Hb. unfold newton_body in Hb.
    injection Hb as <- <- <-. repeat split; reflexivity.
  - intros n i out rmv eps te samples Hn Hl Hi.
    cbn [MovingPointSource_loop]. fold ones. rewrite Hn, Hl.
    rewrite (proj2 (Nat.ltb_lt i num)) by lia.
    rewrite (proj2 (Nat.eqb_neq (S i) num)) by lia. reflexivity.
  - intros Heps Hc p Hp Hloc Hvel r.
    destruct Hiter as (k & Hk & Hn & Hstop & _).
    destruct k as [|k].
    + exfalso. destruct (Hstop ltac:(lia)) as (m & Hm & Hle).
      cbn [newton_iterate fst snd] in Hm. unfold ones in Hm.
      rewrite (max_abs_ones (mpos self) mics) in Hm. injection Hm as <-. lra.
    + rewrite Hn, newton_iterate_S. unfold newton_step.
      pose proof (newton_iterate_length k rm ones t t_length) as Hlen.
      destruct (newton_iterate self c0 t k (rm, ones, t)) as [[rm1 eps1] te1].
      cbn [snd] in Hlen.
      destruct (newton_body_at_rest p Hc Hp Hloc Hvel te1 Hlen) as [eps Hb].
      rewrite Hb. exists eps. reflexivity.
Qed.

End EmissionTime.

(** ** The rows of the generators, one by one *)

Section Rows.

Import sources.

Lemma shift_0 ind : map (fun x => x + INR 0) ind = ind.
Proof.
  rewrite <- (map_id ind) at 2. apply map_ext. intros x. simpl. ring.
Qed.

Lemma shift_S k ind :
  map (fun x => x + INR k) (map (fun x => x + 1) ind)
  = map (fun x => x + INR (S k)) ind.
Proof.
  rewrite map_map. apply map_ext. intros x. rewrite S_INR. ring.
Qed.

Lemma PointSource_samples_nth self signal rm n :
  forall ind k row,
  nth_error (PointSource_samples self signal rm n ind) k = Some row ->
  exists samples,
    lookup self signal (map (fun x => x + INR k) ind) = Some samples
    /\ row = map2 Rdiv samples rm.
Proof.
  induction n as [|n IH]; intros ind k row H.
  - destruct k; discriminate H.
  - cbn [PointSource_samples] in H.
    destruct (lookup self signal ind) as [samples|] eqn:Hl.
    + destruct k as [|k].
      * injection H as <-. exists samples. rewrite shift_0. auto.
      * cbn [nth_error] in H. destruct (IH _ _ _ H) as (s & Hs & Hrow).
        exists s. rewrite <- shift_S. auto.
    + destruct k; discriminate H.
Qed.

(** What a generator has yielded is a beginning of the rows in the buffer
    followed by the rows of the samples that remain. *)
Lemma PointSource_loop_prefix self num signal rm n :
  forall ind i out,
  exists rest,
    concat (PointSource_loop self num signal rm n ind i out) ++ rest
    = rows out i ++ PointSource_samples self signal rm n ind.
Proof.
  induction n as [|n IH]; intros ind i out;
    cbn [PointSource_loop PointSource_samples].
  - exists []. simpl. rewrite !app_nil_r. reflexivity.
  - destruct (lookup self signal ind) as [samples|].
    + destruct (i <? num)%nat.
      * cbv zeta. destruct (Nat.eqb_spec (S i) num) as [Heq|Hne].
        -- destruct (IH (map (fun x => x + 1) ind) O
                       (upd1 out i (map2 Rdiv samples rm))) as [rest Hrest].
           exists rest. cbn [concat]. rewrite <- app_assoc, Hrest.
           rewrite <- Heq, rows_upd1_S. cbn [rows seq map].
           rewrite <- app_assoc. reflexivity.
        -- destruct (IH (map (fun x => x + 1) ind) (S i)
                       (upd1 out i (map2 Rdiv samples rm))) as [rest Hrest].
           exists rest. rewrite Hrest, rows_upd1_S, <- app_assoc. reflexivity.
      * exists (map2 Rdiv samples rm
                :: PointSource_samples self signal rm n
                     (map (fun x => x + 1) ind)).
        simpl. rewrite app_nil_r. reflexivity.
    + exists []. simpl. rewrite !app_nil_r. reflexivity.
Qed.

Lemma MovingPointSource_loop_prefix (self : MovingPointSource)
    num signal epslim c0 n :
  forall t rm i out,
  exists rest,
    concat (fst (MovingPointSource_loop self num signal epslim c0 n t rm i out))
      ++ rest
    = rows out i ++ MovingPointSource_samples self signal epslim c0 n t rm.
Proof.
  induction n as [|n IH]; intros t rm i out;
    cbn [MovingPointSource_loop MovingPointSource_samples].
  - exists []. simpl. rewrite !app_nil_r. reflexivity.
  - cbv zeta.
    destruct (newton self epslim c0 t 100 rm (map (fun _ => 1) (mpos self)) t)
      as [[[rm' eps] te]|]; [|eexists; reflexivity].
    destruct (lookup self signal _) as [samples|].
    + destruct rm' as [rmv|]; [|eexists; reflexivity].
      destruct (i <? num)%nat.
      * destruct (Nat.eqb_spec (S i) num) as [Heq|Hne].
        -- destruct (IH (map (fun x => x + 1 / sample_freq self) t) (Some rmv) O
                       (upd1 out i (map2 Rdiv samples rmv))) as [rest Hrest].
           destruct (MovingPointSource_loop self num signal epslim c0 n
                       (map (fun x => x + 1 / sample_freq self) t) (Some rmv) O
                       (upd1 out i (map2 Rdiv samples rmv))) as [blocks e].
           exists rest. cbn [fst concat] in *. rewrite <- app_assoc, Hrest.
           rewrite <- Heq, rows_upd1_S. cbn [rows seq map].
           rewrite <- app_assoc. reflexivity.
        -- destruct (IH (map (fun x => x + 1 / sample_freq self) t) (Some rmv)
                       (S i) (upd1 out i (map2 Rdiv samples rmv)))
             as [rest Hrest].
           exists rest. rewrite Hrest, rows_upd1_S, <- app_assoc. reflexivity.
      * exists (map2 Rdiv samples rmv
                :: MovingPointSource_samples self signal epslim c0 n
                     (map (fun x => x + 1 / sample_freq self) t) (Some rmv)).
        simpl. rewrite app_nil_r. reflexivity.
    + exists []. simpl. destruct rm'; rewrite !app_nil_r; reflexivity.
Qed.

(** A row the generator has yielded is a row of the samples. *)
Lemma nth_error_prefix {A : Type} (l rest l' : list A) k x :
  l ++ rest = l' -> nth_error l k = Some x -> nth_error l' k = Some x.
Proof.
  intros <- H. rewrite nth_error_app1; [exact H|].
  apply nth_error_Some. rewrite H. discriminate.
Qed.

Lemma map2_minus_plus (a b : list R) :
  List.length a = List.length b -> map2 Rplus (map2 Rminus a b) b = a.
Proof.
  revert b. induction a as [|x a IH]; intros [|y b] H; simpl in *;
    try discriminate; try reflexivity.
  rewrite IH by lia. f_equal. ring.
Qed.

(** One pass of the Newton-Raphson loop that has bound [rm]: the tolerance
    is below one, the result is the same whatever [rm] was before, and the
    last run of the body started from [te + eps]. *)
Lemma newton_bound_rm (self : MovingPointSource) epslim c0 t rm_in rm eps te :
  List.length t = List.length (mpos self) ->
  rm_in = None \/ epslim < 1 ->
  newton self epslim c0 t 100 rm_in (map (fun _ => 1) (mpos self)) t
  = Some (Some rm, eps, te) ->
  epslim < 1
  /\ (forall rm_before,
        newton self epslim c0 t 100 rm_before (map (fun _ => 1) (mpos self)) t
        = Some (Some rm, eps, te))
  /\ newton_body self c0 t (map2 Rplus te eps) = (rm, eps, te).
Proof.
  intros Ht Hin Hn.
  assert (Hmics : mpos self <> []).
  { intros Hnil. rewrite Hnil in Hn. discriminate Hn. }
  pose proof (max_abs_ones (mpos self) Hmics) as Hones.
  assert (Heps : epslim < 1).
  { destruct (Rlt_dec epslim 1) as [H|H]; [exact H|].
    destruct Hin as [->|Hlt]; [|contradiction].
    rewrite (newton_stop self epslim c0 t 100 None _ t 1 Hones) in Hn by lra.
    discriminate Hn. }
  split; [exact Heps|]. split.
  - intros rm_before.
    rewrite (newton_continue self epslim c0 t 99 rm_before _ t 1 Hones) by lra.
    rewrite (newton_continue self epslim c0 t 99 rm_in _ t 1 Hones) in Hn by lra.
    exact Hn.
  - assert (Hlen1 : List.length (map (fun _ : vec3 => 1) (mpos self))
                    = List.length (mpos self)) by apply length_map.
    destruct (newton_iterates self epslim c0 t Hmics Ht 100 rm_in
                (map (fun _ => 1) (mpos self)) t Hlen1 Ht)
      as (k & Hk & Heq & Hstop & _).
    destruct k as [|k].
    + exfalso. assert (H100 : (0 < 100)%nat) by lia.
      destruct (Hstop H100) as (m & Hm & Hle).
      cbn [newton_iterate fst snd] in Hm. rewrite Hones in Hm.
      injection Hm as <-. lra.
    + rewrite Hn, newton_iterate_S in Heq. unfold newton_step in Heq.
      pose proof (newton_iterate_length self c0 t Ht k rm_in
                    (map (fun _ => 1) (mpos self)) t Ht) as Hlen.
      destruct (newton_iterate self c0 t k
                  (rm_in, map (fun _ => 1) (mpos self), t))
        as [[rm1 eps1] te1].
      cbn [snd] in Hlen.
      destruct (newton_body_length self c0 t Ht te1 Hlen) as [Hleps _].
      destruct (newton_body self c0 t te1) as [[rm2 eps2] te2] eqn:Hbody.
      cbn [fst snd] in Hleps.
      injection Heq as -> -> ->.
      assert (Hte : te2 = map2 Rminus te1 eps2)
        by (unfold newton_body in Hbody; injection Hbody as _ <- <-;
            reflexivity).
      rewrite Hte, map2_minus_plus by (rewrite Hlen, Hleps; reflexivity).
      rewrite <- Hte. exact Hbody.
Qed.

Lemma MovingPointSource_samples_nth (self : MovingPointSource)
    signal epslim c0 n :
  forall t rm_in k row,
  List.length t = List.length (mpos self) ->
  rm_in = None \/ epslim < 1 ->
  nth_error (MovingPointSource_samples self signal epslim c0 n t rm_in) k
  = Some row ->
  let received := Nat.iter k (map (fun x => x + 1 / sample_freq self)) t in
  exists rm eps te samples,
    (forall rm_before,
       newton self epslim c0 received 100 rm_before
         (map (fun _ => 1) (mpos self)) received
       = Some (Some rm, eps, te))
    /\ newton_body self c0 received (map2 Rplus te eps) = (rm, eps, te)
    /\ lookup self signal
         (map (fun x => (x - start_t self + start self) * sample_freq self) te)
       = Some samples
    /\ row = map2 Rdiv samples rm.
Proof.
  induction n as [|n IH]; intros t rm_in k row Ht Hin H.
  - destruct k; discriminate H.
  - cbn [MovingPointSource_samples] in H.
    destruct (newton self epslim c0 t 100 rm_in (map (fun _ => 1) (mpos self)) t)
      as [[[[rm|] eps] te]|] eqn:Hn;
      try (destruct k; discriminate H).
    destruct (newton_bound_rm self epslim c0 t rm_in rm eps te Ht Hin Hn)
      as (Heps & Hany & Hbody).
    cbv zeta in H.
    destruct (lookup self signal _) as [samples|] eqn:Hl;
      [|destruct k; discriminate H].
    destruct k as [|k].
    + injection H as <-. cbv zeta. cbn [Nat.iter].
      exists rm, eps, te, samples. auto.
    + cbn [nth_error] in H.
      assert (Ht' : List.length (map (fun x => x + 1 / sample_freq self) t)
                    = List.length (mpos self)) by (rewrite length_map; exact Ht).
      assert (Hin' : Some rm = None \/ epslim < 1) by (right; exact Heps).
      specialize (IH _ _ _ _ Ht' Hin' H). cbv zeta in IH |- *.
      rewrite Nat.iter_succ_r. exact IH.
Qed.

(** C10, as the code has it.  Every row a generator yields is, for each
    microphone, the sample looked up in the upsampled signal divided by
    [rm].  For the fixed source, row [k] is the lookup at the emission index
    [ind + k] divided by the distance [self.env.r] gives between the source
    location and the microphones.  For the moving source, row [k] comes from
    the pass of the Newton-Raphson loop at the receiving times
    [start + k/sample_freq]: the pass ends with [rm], [eps] and [te]
    (whatever [rm] was before), its last run of the body started from the
    emission times [te + eps], so [rm] is the distance between the
    microphones and the position of the source at [te + eps], while the
    sample is looked up at [te]. *)
Theorem samples_divided_by_distance (self : MovingPointSource) num empty :
  let signal := usignal self (up self) in
  let distance := env_r self (c self) (loc self) (mpos self) in
  let ind :=
    map (fun r => (- r / c self - start_t self + start self) * sample_freq self)
      distance in
  let epslim := 0.1 / IZR (up self) / sample_freq self in
  let ones := map (fun _ => 1) (mpos self) in
  let received := fun k =>
    Nat.iter k (map (fun x => x + 1 / sample_freq self))
      (map (fun _ => start self * 1) (mpos self)) in
  (forall k row,
     nth_error (concat (PointSource_result self num empty)) k = Some row ->
     exists samples,
       lookup self signal (map (fun x => x + INR k) ind) = Some samples
       /\ row = map2 Rdiv samples distance)
  /\ (forall k row,
        nth_error (concat (fst (MovingPointSource_result self num empty))) k
        = Some row ->
        exists rm eps te samples,
          (forall rm_before,
             newton self epslim (c self) (received k) 100 rm_before ones
               (received k)
             = Some (Some rm, eps, te))
          /\ newton_body self (c self) (received k) (map2 Rplus te eps)
             = (rm, eps, te)
          /\ rm = map norm3
                    (map2 sub3 (map (location self) (map2 Rplus te eps))
                       (mpos self))
          /\ lookup self signal
               (map (fun x => (x - start_t self + start self)
                              * sample_freq self) te)
             = Some samples
          /\ row = map2 Rdiv samples rm).
Proof.
  intros signal distance ind epslim ones received. split.
  - intros k row Hk.
    destruct (PointSource_loop_prefix self num signal distance
                (numsamples self) ind O empty) as [rest Hrest].
    apply (PointSource_samples_nth self signal distance (numsamples self)).
    exact (nth_error_prefix _ _ _ _ _ Hrest Hk).
  - intros k row Hk.
    unfold MovingPointSource_result in Hk. cbv zeta in Hk.
    destruct (up self =? 0)%Z; [destruct k; discriminate Hk|].
    destruct (Req_dec_T (sample_freq self) 0); [destruct k; discriminate Hk|].
    destruct (MovingPointSource_loop_prefix self num signal epslim (c self)
                (numsamples self) (map (fun _ => start self * 1) (mpos self))
                None O empty) as [rest Hrest].
    pose proof (nth_error_prefix _ _ _ _ _ Hrest Hk) as Hrow.
    cbn [rows seq map app] in Hrow.
    destruct (MovingPointSource_samples_nth self signal epslim (c self)
                (numsamples self) _ None k row (length_map _ _)
                (or_introl eq_refl) Hrow)
      as (rm & eps & te & samples & Hany & Hbody & Hl & Hr).
    exists rm, eps, te, samples.
    split; [exact Hany|]. split; [exact Hbody|]. split; [|split; assumption].
    unfold newton_body in Hbody. injection Hbody as <- _ _. reflexivity.
Qed.

End Rows.

(** ** The generators on example data *)

Section SourceExamples.

Import sources.

(** The distance of a point on the first axis from the origin. *)
Lemma norm3_axis x : 0 <= x -> norm3 (sub3 (x, 0, 0) (0, 0, 0)) = x.
Proof.
  intros Hx. unfold norm3, sub3, dot3. apply sqrt_lem_1; [nra|exact Hx|ring].
Qed.



Lemma norm3_axis' x : 0 <= x -> norm3 (x, 0, 0) = x.
Proof.
  intros Hx. unfold norm3, dot3. apply sqrt_lem_1; [nra|exact Hx|ring].
Qed.

(** The one run of the body of the loop on the moving example. *)
Lemma example_moving_body :
  newton_body example_moving 9 [0 * 1] [0 * 1] = ([5], [1 / 2], [- (1 / 2)]).
Proof.
  unfold newton_body.
  cbn [map map2 location velocity mpos base example_moving].
  replace (5 + 0 * 1) with 5 by ring.
  rewrite norm3_axis, norm3_axis' by lra.
  unfold div3, dot3. f_equal; [f_equal|]; f_equal; field.
Qed.

Lemma example_moving_newton :
  newton example_moving (0.1 / IZR 1 / (1 / 5)) 9 [0 * 1] 100 None [1] [0 * 1]
  = Some (Some [5], [1 / 2], [- (1 / 2)]).
Proof.
  rewrite (newton_continue _ _ _ _ 99 None [1] [0 * 1] (Rabs 1) eq_refl)
    by (rewrite Rabs_R1; lra).
  rewrite example_moving_body.
  apply (newton_stop _ _ _ _ 99 (Some [5]) [1 / 2] [- (1 / 2)] (Rabs (1 / 2))
           eq_refl).
  rewrite Rabs_pos_eq by lra. lra.
Qed.

(** The blocks of the moving source on the moving example: one row, the
    sample 45 over the distance 5. *)
Lemma example_moving_result :
  MovingPointSource_result example_moving 1 (fun _ => [])
  = ([[[45 / 5]]; []], None).
Proof.
  unfold MovingPointSource_result. cbv zeta.
  cbn [up base example_moving Z.eqb sample_freq].
  destruct (Req_dec_T (1 / 5) 0) as [H|_]; [lra|].
  cbn [numsamples c start mpos base example_moving map usignal].
  cbn [MovingPointSource_loop].
  cbn [mpos base example_moving map].
  rewrite example_moving_newton.
  unfold lookup. cbn [map start_t start sample_freq up base example_moving].
  assert (Hidx : to_long (0.5 + (- (1 / 2) - 0 + 0) * (1 / 5) * IZR 1) = 0%Z)
    by (apply to_long_nonneg; simpl; lra).
  rewrite Hidx. reflexivity.
Qed.

(** C10 as the specification states it fails for a source that moves away from the
    microphone: the loop ends after one run of its body with the emission
    time -1/2 and [rm = 5], the distance at the time 0 the run started from;
    the row yielded is 45/5, while the source was at distance 9/2 at the
    emission time, which gives 45/(9/2). *)
Lemma samples_divided_by_distance_counterexample :
  let self := example_moving in
  let epslim := 0.1 / IZR (up self) / sample_freq self in
  let t := map (fun _ => start self * 1) (mpos self) in
  newton self epslim (c self) t 100 None (map (fun _ => 1) (mpos self)) t
  = Some (Some [5], [1 / 2], [- (1 / 2)])
  /\ MovingPointSource_result self 1 (fun _ => []) = ([[[45 / 5]]; []], None)
  /\ norm3 (sub3 (location self (- (1 / 2))) (0, 0, 0)) = 9 / 2
  /\ 45 / 5 < 45 / (9 / 2).
Proof.
  cbv zeta. split; [exact example_moving_newton|]. split; [|split].
  - exact example_moving_result.
  - cbn [location example_moving].
    replace (5 + - (1 / 2)) with (9 / 2) by field.
    apply norm3_axis. lra.
  - lra.
Qed.

(** The one row of the moving example: the pass of the loop at the receiving
    time 0 ends with [rm], [eps] and [te], [rm] is the distance at
    [te + eps], and the row is the sample looked up at [te] over [rm]. *)
Lemma samples_divided_by_distance_witness :
  let self := example_moving in
  let t := map (fun _ => start self * 1) (mpos self) in
  exists rm eps te samples,
    newton self (0.1 / IZR (up self) / sample_freq self) (c self) t 100 None
      (map (fun _ => 1) (mpos self)) t
    = Some (Some rm, eps, te)
    /\ rm = map norm3
              (map2 sub3 (map (location self) (map2 Rplus te eps)) (mpos self))
    /\ lookup self (usignal self (up self))
         (map (fun x => (x - start_t self + start self) * sample_freq self) te)
       = Some samples
    /\ [45 / 5] = map2 Rdiv samples rm.
Proof.
  cbv zeta.
  assert (Hrow : nth_error
                   (concat (fst (MovingPointSource_result example_moving 1
                                   (fun _ => [])))) 0
                 = Some [45 / 5])
    by (rewrite example_moving_result; reflexivity).
  destruct (proj2 (samples_divided_by_distance example_moving 1 (fun _ => []))
              O [45 / 5] Hrow)
    as (rm & eps & te & samples & Hany & _ & Hrm & Hl & Hr).
  exists rm, eps, te, samples.
  split; [exact (Hany None)|]. split; [exact Hrm|]. split; [exact Hl|exact Hr].
Defined.

(** The loop on a source at rest, at 10 s per sample. *)
Lemma example_at_rest_newton :
  newton (example_at_rest (1 / 10)) (0.1 / IZR 1 / (1 / 10)) 1 [0 * 1] 100
    None [1] [0 * 1]
  = Some (None, [1], [0 * 1]).
Proof.
  apply (newton_stop _ _ _ _ 100 None [1] [0 * 1] (Rabs 1) eq_refl).
  rewrite Rabs_R1. lra.
Qed.

(** A source at rest at distance 5 from the microphone, at the sample rate
    1/10 and the upsampling factor 1: the tolerance is 1, the initial
    [eps = 1] is not above it and the body of the loop never runs, so the
    emission time stays the receiving time 0 and not [0 - 5/1]; [rm] is not
    bound then, and the generator ends with a [NameError]. *)
Lemma example_at_rest_coarse_tolerance :
  let self := example_at_rest (1 / 10) in
  let epslim := 0.1 / IZR (up self) / sample_freq self in
  let t := map (fun _ => start self * 1) (mpos self) in
  epslim = 1
  /\ newton self epslim (c self) t 100 None (map (fun _ => 1) (mpos self)) t
     = Some (None, [1], t)
  /\ map (fun mic => norm3 (sub3 (5, 0, 0) mic)) (mpos self) = [5]
  /\ MovingPointSource_result self 1 (fun _ => []) = ([], Some NameError).
Proof.
  cbv zeta. split; [|split; [|split]].
  - cbn [up sample_freq base example_at_rest]. lra.
  - exact example_at_rest_newton.
  - cbn [mpos base example_at_rest map]. rewrite norm3_axis by lra. reflexivity.
  - unfold MovingPointSource_result. cbv zeta.
    cbn [up base example_at_rest Z.eqb sample_freq].
    destruct (Req_dec_T (1 / 10) 0) as [H|_]; [lra|].
    cbn [numsamples c start mpos base example_at_rest map usignal].
    cbn [MovingPointSource_loop].
    cbn [mpos base example_at_rest map].
    rewrite example_at_rest_newton.
    unfold lookup. cbn [map start_t start sample_freq up base example_at_rest].
    assert (Hidx : to_long (0.5 + (0 * 1 - 0 + 0) * (1 / 10) * IZR 1) = 0%Z)
      by (apply to_long_nonneg; simpl; lra).
    rewrite Hidx. reflexivity.
Qed.

(** The loop on a source at rest, at one sample per second: the tolerance
    is 0.1 and the emission time is [0 - 5/1]. *)
Lemma example_at_rest_solved :
  exists eps,
    newton (example_at_rest 1) (0.1 / IZR 1 / 1) 1 [0] 100 None [1] [0]
    = Some (Some [norm3 (sub3 (5, 0, 0) (0, 0, 0))], eps,
            [0 - norm3 (sub3 (5, 0, 0) (0, 0, 0)) / 1]).
Proof.
  assert (Hmics : mpos (example_at_rest 1) <> []) by discriminate.
  assert (Hp : norm3 (5, 0, 0) <> 0) by (rewrite norm3_axis'; lra).
  apply (proj2 (proj2 (proj2
           (retarded_time_solver (example_at_rest 1) (0.1 / IZR 1 / 1) 1 [0]
              Hmics eq_refl 1 [1] None)))
           ltac:(lra) ltac:(lra) (5, 0, 0) Hp
           (fun _ => eq_refl) (fun _ => eq_refl)).
Qed.


(** The first run of the body of the loop on the passing source, from
    [te = t = 0]: the distance is 4, the unit vector of the position is
    [(3/5, 4/5, 0)] and [Mr = (5 * 3/5)/10 = 3/10]. *)
Lemma example_passing_body :
  newton_body example_passing 10 [0 * 1] [0 * 1]
  = ([4], [4 / 13], [0 * 1 - 4 / 13]).
Proof.
  unfold newton_body.
  cbn [map map2 location velocity mpos base example_passing].
  replace (3 + 5 * (0 * 1)) with 3 by ring.
  assert (Hr : norm3 (sub3 (3, 4, 0) (3, 0, 0)) = 4)
    by (unfold norm3, sub3, dot3; apply sqrt_lem_1; [nra|lra|ring]).
  assert (Hp : norm3 (3, 4, 0) = 5)
    by (unfold norm3, dot3; apply sqrt_lem_1; [nra|lra|ring]).
  rewrite Hr, Hp. unfold div3, dot3.
  assert (He : (0 * 1 + 4 / 10 - 0 * 1)
               / (1 + (5 * (3 / 5) + 0 * (4 / 5) + 0 * (0 / 5)) / 10)
               = 4 / 13) by field.
  rewrite He. reflexivity.
Qed.

(** C5.  The update of the solver is not the one of the specification when
    a microphone is away from the origin of the coordinates.  On the passing
    source the first run of the body gives [eps = 4/13]: the code divides
    the position of the source by its norm where its comments announce the
    distance unit vector, and takes the velocity along that direction.  The
    radial Mach number, along the line between the microphone and the source,
    is zero there, and the update of the specification is
    [eps = (0 + 4/10 - 0)/(1 + 0) = 2/5].  That run of the body is the first
    one the loop makes for the first sample. *)
Lemma radial_Mach_number_failing_input :
  let self := example_passing in
  let t := map (fun _ => start self * 1) (mpos self) in
  newton_body self (c self) t t = ([4], [4 / 13], [0 * 1 - 4 / 13])
  /\ newton self (0.1 / IZR (up self) / sample_freq self) (c self) t 100 None
       (map (fun _ => 1) (mpos self)) t
     = newton self (0.1 / IZR (up self) / sample_freq self) (c self) t 99
         (Some [4]) [4 / 13] [0 * 1 - 4 / 13]
  /\ radial_Mach_number (location self (0 * 1)) (velocity self (0 * 1))
       (3, 0, 0) (c self) = 0
  /\ (0 * 1 + 4 / c self - 0 * 1) / (1 + 0) = 2 / 5
  /\ 4 / 13 <> 2 / 5.
Proof.
  cbv zeta. split; [exact example_passing_body|]. split; [|split; [|split]].
  - cbn [up sample_freq c start mpos base example_passing map].
    rewrite (newton_continue _ _ _ _ 99 None [1] [0 * 1] (Rabs 1) eq_refl)
      by (rewrite Rabs_R1; lra).
    rewrite example_passing_body. reflexivity.
  - unfold radial_Mach_number.
    cbn [location velocity c base example_passing].
    replace (3 + 5 * (0 * 1)) with 3 by ring.
    assert (Hr : norm3 (sub3 (3, 4, 0) (3, 0, 0)) = 4)
      by (unfold norm3, sub3, dot3; apply sqrt_lem_1; [nra|lra|ring]).
    rewrite Hr. unfold sub3, div3, dot3. field.
  - cbn [c base example_passing]. field.
  - lra.
Qed.

End SourceExamples.

(** * Further properties of the kernels *)

(** ** Accumulated cross spectral matrices *)

Lemma ensemble_last spectra S :
  ensemble (spectra ++ [S]) (List.length spectra) = S.
Proof.
  unfold ensemble. rewrite app_nth2 by lia. rewrite Nat.sub_diag. reflexivity.
Qed.

Lemma ensemble_app spectra S e :
  (e < List.length spectra)%nat ->
  ensemble (spectra ++ [S]) e = ensemble spectra e.
Proof.
  intros He. unfold ensemble. rewrite app_nth1 by lia. reflexivity.
Qed.

(** The csm after a list of ensembles, entry by entry. *)
Lemma accumulate_entry nFreqs nMics spectra :
  forall csm f r c,
  accumulate nFreqs nMics csm spectra f r c
  = if (f <? nFreqs)%nat && (c <? nMics)%nat && (r <=? c)%nat
    then (csm f r c
          + Csum (List.length spectra) (fun e =>
              conjugate (ensemble spectra e f c) * ensemble spectra e f r))%C
    else csm f r c.
Proof.
  unfold accumulate.
  induction spectra as [|S spectra IH] using rev_ind; intros csm f r c.
  - simpl. destruct (_ && _ && _); [|reflexivity]. apply C_eq; simpl; ring.
  - rewrite fold_left_app. cbn [fold_left]. rewrite calcCSM_entry, IH.
    rewrite length_app. cbn [List.length]. rewrite Nat.add_1_r, Csum_S.
    destruct (_ && _ && _); [|reflexivity].
    rewrite ensemble_last.
    rewrite (Csum_ext (List.length spectra)
               (fun e => (conjugate (ensemble (spectra ++ [S]) e f c)
                          * ensemble (spectra ++ [S]) e f r)%C)
               (fun e => (conjugate (ensemble spectra e f c)
                          * ensemble spectra e f r)%C)).
    + ring.
    + intros e He. rewrite ensemble_app by lia. reflexivity.
Qed.

Lemma accumulate_cons nFreqs nMics csm S spectra :
  accumulate nFreqs nMics csm (S :: spectra)
  = accumulate nFreqs nMics (calcCSM nFreqs nMics csm S) spectra.
Proof. reflexivity. Qed.

(** Two accumulators that agree at an entry agree there after the same
    ensembles. *)
Lemma accumulate_ext nFreqs nMics csm csm' spectra f r c :
  csm f r c = csm' f r c ->
  accumulate nFreqs nMics csm spectra f r c
  = accumulate nFreqs nMics csm' spectra f r c.
Proof. intros H. rewrite !accumulate_entry, H. reflexivity. Qed.

Lemma calcCSM_swap nFreqs nMics csm S1 S2 f r c :
  calcCSM nFreqs nMics (calcCSM nFreqs nMics csm S1) S2 f r c
  = calcCSM nFreqs nMics (calcCSM nFreqs nMics csm S2) S1 f r c.
Proof.
  rewrite !calcCSM_entry. destruct (_ && _ && _); [ring|reflexivity].
Qed.

(** ** Squared moduli and sums of non-negative numbers *)

Lemma Cnorm2_nonneg a : 0 <= Cnorm2 a.
Proof. unfold Cnorm2. nra. Qed.

Lemma Cnorm2_mul a b : Cnorm2 (a * b)%C = Cnorm2 a * Cnorm2 b.
Proof. unfold Cnorm2. simpl. ring. Qed.

Lemma Cnorm2_conjugate a : Cnorm2 (conjugate a) = Cnorm2 a.
Proof. unfold Cnorm2. simpl. ring. Qed.

Lemma Cnorm2_expMinusJ x : Cnorm2 (expMinusJ x) = 1.
Proof.
  unfold Cnorm2, expMinusJ. simpl.
  pose proof (sin2_cos2 x) as H. unfold Rsqr in H. nra.
Qed.

Lemma Rsum_nonneg n f :
  (forall i, (i < n)%nat -> 0 <= f i) -> 0 <= Rsum n f.
Proof.
  induction n as [|n IH]; intros H.
  - unfold Rsum. simpl. lra.
  - rewrite Rsum_S.
    pose proof (IH (fun i Hi => H i (Nat.lt_lt_succ_r _ _ Hi))).
    pose proof (H n (Nat.lt_succ_diag_r n)). lra.
Qed.

Lemma eig_power_nonneg nEV nMics eigVal eigVec h :
  (forall i, (i < nEV)%nat -> 0 <= eigVal i) ->
  0 <= eig_power nEV nMics eigVal eigVec h.
Proof.
  intros H. unfold eig_power. apply Rsum_nonneg. intros i Hi.
  apply Rmult_le_pos; [apply H, Hi | apply Cnorm2_nonneg].
Qed.

(** The csm accumulated from zero is, on its upper triangle, the sum of the
    rank-one matrices of the ensembles. *)
Lemma accumulate_reconstruction nFreqs nMics spectra f r c :
  (f < nFreqs)%nat -> (r <= c)%nat -> (c < nMics)%nat ->
  accumulate nFreqs nMics zeros3 spectra f r c
  = spectral_reconstruction (List.length spectra) (fun _ => 1)
      (fun m e => ensemble spectra e f m) r c.
Proof.
  intros Hf Hr Hc. rewrite accumulate_entry.
  rewrite (proj2 (Nat.ltb_lt f nFreqs) Hf), (proj2 (Nat.ltb_lt c nMics) Hc),
    (proj2 (Nat.leb_le r c) Hr).
  cbn [andb]. unfold spectral_reconstruction, zeros3.
  rewrite (Csum_ext (List.length spectra)
             (fun i => (RtoC 1 * ensemble spectra i f r
                        * conjugate (ensemble spectra i f c))%C)
             (fun e => (conjugate (ensemble spectra e f c)
                        * ensemble spectra e f r)%C)).
  - apply C_eq; simpl; ring.
  - intros i Hi. apply C_eq; simpl; ring.
Qed.

Lemma reduce_FullCSM_accumulate nFreqs nMics spectra f h :
  (f < nFreqs)%nat ->
  reduce_FullCSM nMics (accumulate nFreqs nMics zeros3 spectra f) h
  = Rsum (List.length spectra) (fun e =>
      Cnorm2 (Csum nMics (fun m => (conjugate (ensemble spectra e f m) * h m)%C))).
Proof.
  intros Hf.
  rewrite (reduce_FullCSM_ext nMics
             (spectral_reconstruction (List.length spectra) (fun _ => 1)
                (fun m e => ensemble spectra e f m))
             (accumulate nFreqs nMics zeros3 spectra f) h h).
  - rewrite (reduce_FullCSM_reconstruction (List.length spectra) nMics
               (fun _ => 1) (fun m e => ensemble spectra e f m)) by reflexivity.
    unfold eig_power. apply Rsum_ext. intros e He. ring.
  - intros r c Hr Hc. apply accumulate_reconstruction; assumption.
  - reflexivity.
Qed.

(** The divisors of the four formulations are not negative. *)
Lemma normalization_nonneg z nMics d0 d : 0 <= normalization z nMics d0 d.
Proof.
  assert (HH : 0 <= Rsum nMics (fun m => 1 / (d m * d m))).
  { apply Rsum_nonneg. intros m _. unfold Rdiv. rewrite Rmult_1_l.
    destruct (Req_dec (d m * d m) 0) as [->|Hne].
    - rewrite Rinv_0. lra.
    - left. apply Rinv_0_lt_compat. nra. }
  pose proof (pos_INR nMics) as Hn.
  unfold normalization. cbv zeta.
  destruct z as [|p|p]; try lra.
  destruct p as [p|p|];
    [destruct p as [p|p|]
    |destruct p as [p|p|]; [ |destruct p as [p|p|]| ]| ]; try lra; try nra.
Qed.

(** ** Scaling the steering vector by a complex number *)

Lemma Rsum_mul_l n f x : x * Rsum n f = Rsum n (fun i => x * f i).
Proof.
  induction n as [|n IH].
  - unfold Rsum. simpl. ring.
  - rewrite !Rsum_S, <- IH. ring.
Qed.

Lemma scaled_term (u L h : complex128) :
  real (conjugate u * L * (u * h))%C = Cnorm2 u * real (L * h)%C.
Proof. unfold Cnorm2. simpl. ring. Qed.

Lemma scaled_row c csm u h :
  Csum c (fun r => (csm r c * conjugate (u * h r))%C)
  = (conjugate u * Csum c (fun r => (csm r c * conjugate (h r))%C))%C.
Proof.
  rewrite Csum_mul_l. apply Csum_ext. intros r _. rewrite conjugate_mul. ring.
Qed.

Lemma reduce_CsmRemovedDiag_scale n csm u h :
  reduce_CsmRemovedDiag n csm (fun m => (u * h m)%C)
  = Cnorm2 u * reduce_CsmRemovedDiag n csm h.
Proof.
  rewrite !reduce_CsmRemovedDiag_sum, Rsum_mul_l. apply Rsum_ext. intros c _.
  rewrite scaled_row, scaled_term. ring.
Qed.

Lemma reduce_FullCSM_scale n csm u h :
  reduce_FullCSM n csm (fun m => (u * h m)%C)
  = Cnorm2 u * reduce_FullCSM n csm h.
Proof.
  rewrite !reduce_FullCSM_sum, Rsum_mul_l. apply Rsum_ext. intros c _.
  rewrite scaled_row, scaled_term.
  replace (csm c c * conjugate (u * h c) * (u * h c))%C
    with (conjugate u * (csm c c * conjugate (h c)) * (u * h c))%C
    by (rewrite conjugate_mul; ring).
  rewrite scaled_term. ring.
Qed.

Lemma eig_power_scale nEV nMics eigVal eigVec u h :
  eig_power nEV nMics eigVal eigVec (fun m => (u * h m)%C)
  = Cnorm2 u * eig_power nEV nMics eigVal eigVec h.
Proof.
  unfold eig_power. rewrite Rsum_mul_l. apply Rsum_ext. intros i _.
  rewrite (Csum_ext nMics
             (fun m => (conjugate (eigVec m i) * (u * h m))%C)
             (fun m => (u * (conjugate (eigVec m i) * h m))%C))
    by (intros; ring).
  rewrite <- Csum_mul_l, Cnorm2_mul. ring.
Qed.

Lemma eig_diagonal_contribution_scale nEV nMics eigVal eigVec u h :
  eig_diagonal_contribution nEV nMics eigVal eigVec (fun m => (u * h m)%C)
  = Cnorm2 u * eig_diagonal_contribution nEV nMics eigVal eigVec h.
Proof.
  unfold eig_diagonal_contribution. rewrite Rsum_mul_l.
  apply Rsum_ext. intros i _.
  replace (Cnorm2 u * (eigVal i * Rsum nMics (fun m =>
             Cnorm2 (conjugate (eigVec m i) * h m)%C)))
    with (eigVal i * (Cnorm2 u * Rsum nMics (fun m =>
             Cnorm2 (conjugate (eigVec m i) * h m)%C))) by ring.
  f_equal. rewrite Rsum_mul_l. apply Rsum_ext. intros m _.
  rewrite !Cnorm2_mul. ring.
Qed.

Lemma reduce_EigValProb_FullCSM_scale nEV nMics eigVal eigVec u h :
  reduce_EigValProb_FullCSM nEV nMics eigVal eigVec (fun m => (u * h m)%C)
  = Cnorm2 u * reduce_EigValProb_FullCSM nEV nMics eigVal eigVec h.
Proof. rewrite !reduce_EigValProb_FullCSM_sum. apply eig_power_scale. Qed.

Lemma reduce_EigValProb_CsmRemovedDiag_scale nEV nMics eigVal eigVec u h :
  reduce_EigValProb_CsmRemovedDiag nEV nMics eigVal eigVec (fun m => (u * h m)%C)
  = Cnorm2 u * reduce_EigValProb_CsmRemovedDiag nEV nMics eigVal eigVec h.
Proof.
  rewrite !reduce_EigValProb_CsmRemovedDiag_sum, eig_power_scale,
    eig_diagonal_contribution_scale. ring.
Qed.

(** ** One microphone *)

Lemma reduce_CsmRemovedDiag_1 csm h : reduce_CsmRemovedDiag 1 csm h = 0.
Proof.
  rewrite reduce_CsmRemovedDiag_sum. unfold Rsum, Csum. simpl. ring.
Qed.

Lemma reduce_FullCSM_1 csm h :
  reduce_FullCSM 1 csm h = real (csm 0%nat 0%nat) * Cnorm2 (h 0%nat).
Proof.
  rewrite reduce_FullCSM_sum. unfold Rsum, Csum, Cnorm2. simpl. ring.
Qed.

Lemma reduce_EigValProb_CsmRemovedDiag_1 nEV eigVal eigVec h :
  reduce_EigValProb_CsmRemovedDiag nEV 1 eigVal eigVec h = 0.
Proof.
  rewrite reduce_EigValProb_CsmRemovedDiag_sum.
  unfold eig_power, eig_diagonal_contribution. rewrite <- Rsum_sub.
  apply Rsum_zero. intros i _. unfold Rsum, Csum, Cnorm2. simpl. ring.
Qed.

(** ** The phase relative to the array center, without rounding *)

Lemma Cexp_centered k d0 x :
  Cexp (Ci * RtoC (- (k * (x - d0))))
  = (Cexp (Ci * RtoC (k * d0)) * Cexp (Ci * RtoC (- (k * x))))%C.
Proof.
  unfold Cexp. apply C_eq; simpl.
  - replace (0 * (k * d0) - 1 * 0) with 0 by ring.
    replace (0 * - (k * x) - 1 * 0) with 0 by ring.
    replace (0 * - (k * (x - d0)) - 1 * 0) with 0 by ring.
    replace (0 * 0 + 1 * - (k * (x - d0))) with (k * d0 + - (k * x)) by ring.
    replace (0 * 0 + 1 * (k * d0)) with (k * d0) by ring.
    replace (0 * 0 + 1 * - (k * x)) with (- (k * x)) by ring.
    rewrite exp_0, cos_plus. ring.
  - replace (0 * (k * d0) - 1 * 0) with 0 by ring.
    replace (0 * - (k * x) - 1 * 0) with 0 by ring.
    replace (0 * - (k * (x - d0)) - 1 * 0) with 0 by ring.
    replace (0 * 0 + 1 * - (k * (x - d0))) with (k * d0 + - (k * x)) by ring.
    replace (0 * 0 + 1 * (k * d0)) with (k * d0) by ring.
    replace (0 * 0 + 1 * - (k * x)) with (- (k * x)) by ring.
    rewrite exp_0, sin_plus. ring.
Qed.

Lemma Cnorm2_Cexp_imaginary x : Cnorm2 (Cexp (Ci * RtoC x)) = 1.
Proof.
  unfold Cnorm2, Cexp. simpl.
  replace (0 * x - 1 * 0) with 0 by ring.
  replace (0 * 0 + 1 * x) with x by ring.
  rewrite exp_0. pose proof (sin2_cos2 x) as H. unfold Rsqr in H. nra.
Qed.

(** Without rounding, the steering vector with the phase relative to the
    array center is the one without, times a phasor that is the same for
    all microphones. *)
Lemma steering_vector_centered z k d0 d m :
  steering_vector (fun x => x) z true k d0 d m
  = (Cexp (Ci * RtoC (k * d0)) * steering_vector (fun x => x) z false k d0 d m)%C.
Proof.
  unfold steering_vector, phase_argument. cbv zeta.
  rewrite Cexp_centered.
  destruct z as [|p|p]; try reflexivity.
  destruct p as [p|p|];
    [destruct p as [p|p|]
    |destruct p as [p|p|]; [ |destruct p as [p|p|]| ]| ];
    try reflexivity; try ring; apply C_eq; simpl; unfold Rdiv; ring.
Qed.

(** ** The loops of [beamformerFreq] and [transfer] *)

Section Loops.

Variable float32 : R -> R.

(** The map [beamformerFreq] returns for a core that gives one number per
    frequency and grid point. *)
Lemma beamformOutput_entry nFreqs nGridPoints (core : nat -> nat -> R) f g :
  for_range nFreqs (fun cntFreqs beamformOutput =>
    let result := gufunc_loop nGridPoints (core cntFreqs) (fun _ => 0) in
    upd_row beamformOutput cntFreqs result) (fun _ _ => 0) f g
  = if (f <? nFreqs)%nat && (g <? nGridPoints)%nat then core f g else 0.
Proof.
  cbv zeta.
  rewrite (for_range_rows nFreqs
             (fun cntFreqs _ => gufunc_loop nGridPoints (core cntFreqs) (fun _ => 0))).
  destruct (f <? nFreqs)%nat; [|reflexivity].
  unfold gufunc_loop. rewrite for_range_fill. reflexivity.
Qed.

(** Every entry of the array [transfer] returns. *)
Lemma transferOutput_entry nFreqs nGridPoints nMics d0 d wavenumber f g m :
  transfer float32 nFreqs nGridPoints nMics d0 d wavenumber f g m
  = if (f <? nFreqs)%nat && (g <? nGridPoints)%nat && (m <? nMics)%nat
    then CdivR (expMinusJ (float32 (imag (wavenumber f) * (d g m - d0 g)))
                * RtoC (d0 g))%C (d g m)
    else C0.
Proof.
  unfold transfer. rewrite for_range_slices.
  destruct (f <? nFreqs)%nat; [|reflexivity].
  rewrite (for_range_rows nGridPoints
             (fun cntGrid row =>
                _transferCoreFunc float32 nMics (d0 cntGrid) (d cntGrid)
                  (imag (wavenumber f)) row)).
  destruct (g <? nGridPoints)%nat; [|reflexivity].
  unfold _transferCoreFunc. cbv zeta. rewrite for_range_fill.
  reflexivity.
Qed.

End Loops.

(** ** Truncated spectral decompositions *)

Lemma eig_power_le n n' nMics eigVal eigVec h :
  (n <= n')%nat ->
  (forall i, (n <= i < n')%nat -> 0 <= eigVal i) ->
  eig_power n nMics eigVal eigVec h <= eig_power n' nMics eigVal eigVec h.
Proof.
  intros Hle. induction Hle as [|n' Hle IH]; intros H.
  - lra.
  - unfold eig_power in *. rewrite Rsum_S.
    assert (H1 : forall i, (n <= i < n')%nat -> 0 <= eigVal i)
      by (intros i Hi; apply H; lia).
    specialize (IH H1).
    assert (H2 : 0 <= eigVal n') by (apply H; lia).
    pose proof (Cnorm2_nonneg
                  (Csum nMics (fun m => (conjugate (eigVec m n') * h m)%C))).
    nra.
Qed.

(** ** The keys of [beamformerDict] *)

Section Keys.

Variable float32 : R -> R.

Lemma beamformerDict_Csm_known z rd :
  (1 <= z <= 4)%Z ->
  exists k, beamformerDict float32 false (SteerInt z) rd = Some (Core_Csm k).
Proof.
  intros Hz.
  assert (Hc : z = 1%Z \/ z = 2%Z \/ z = 3%Z \/ z = 4%Z) by lia.
  destruct Hc as [H|[H|[H|H]]]; subst z; destruct rd; eexists; reflexivity.
Qed.

Lemma beamformerDict_Eig_known z rd :
  (1 <= z <= 4)%Z ->
  exists k, beamformerDict float32 true (SteerInt z) rd = Some (Core_Eig k).
Proof.
  intros Hz.
  assert (Hc : z = 1%Z \/ z = 2%Z \/ z = 3%Z \/ z = 4%Z) by lia.
  destruct Hc as [H|[H|[H|H]]]; subst z; destruct rd; eexists; reflexivity.
Qed.

Lemma beamformerDict_unknown_int b z rd :
  (z < 1 \/ 4 < z)%Z -> beamformerDict float32 b (SteerInt z) rd = None.
Proof.
  intros Hz.
  destruct z as [|p|p]; [destruct b, rd; reflexivity| |destruct b, rd; reflexivity].
  destruct p as [p|p|];
    [destruct p as [p|p|]
    |destruct p as [p|p|]; [ |destruct p as [p|p|]| ]| ];
    try lia; destruct b, rd; reflexivity.
Qed.

Lemma beamformerDict_unknown_str b s rd :
  s <> "specific"%string -> beamformerDict float32 b (SteerStr s) rd = None.
Proof.
  intros Hs. apply String.eqb_neq in Hs.
  destruct b, rd; simpl; rewrite Hs; reflexivity.
Qed.

End Keys.

(** ** Cross spectral matrices of several ensembles *)

(** X1. After [calcCSM] was called once for each spectrum of a list of
    ensembles, every entry [csm[f, r, c]] of the upper triangle
    ([r <= c < nMics], [f < nFreqs]) has gained the sum over the ensembles of
    [conj(spectrum[f, c]) * spectrum[f, r]], and every entry below the
    diagonal is what it was before the first call. *)
Theorem accumulate_ensembles nFreqs nMics csm spectra f r c :
  (f < nFreqs)%nat -> (c < nMics)%nat ->
  ((r <= c)%nat ->
     accumulate nFreqs nMics csm spectra f r c
     = (csm f r c
        + Csum (List.length spectra) (fun e =>
            conjugate (ensemble spectra e f c) * ensemble spectra e f r))%C)
  /\ ((c < r)%nat -> accumulate nFreqs nMics csm spectra f r c = csm f r c).
Proof.
  intros Hf Hc. rewrite accumulate_entry.
  rewrite (proj2 (Nat.ltb_lt f nFreqs) Hf), (proj2 (Nat.ltb_lt c nMics) Hc).
  cbn [andb]. split; intros Hr.
  - rewrite (proj2 (Nat.leb_le r c) Hr). reflexivity.
  - rewrite (proj2 (Nat.leb_gt r c) Hr). reflexivity.
Qed.

Lemma accumulate_ensembles_witness :
  let spectra := [example_spectrum_1; example_spectrum_2] in
  accumulate 1 2 zeros3 spectra 0 0 1
  = (zeros3 0 0 1
     + Csum 2 (fun e =>
         conjugate (ensemble spectra e 0 1) * ensemble spectra e 0 0))%C%nat
  /\ accumulate 1 2 zeros3 spectra 0 1 0 = (zeros3 0 1 0)%nat.
Proof.
  split.
  - apply (proj1 (accumulate_ensembles 1 2 zeros3
                    [example_spectrum_1; example_spectrum_2] 0 0 1
                    ltac:(lia) ltac:(lia))). lia.
  - apply (proj2 (accumulate_ensembles 1 2 zeros3
                    [example_spectrum_1; example_spectrum_2] 0 1 0
                    ltac:(lia) ltac:(lia))). lia.
Defined.

(** X2. The order in which the ensembles are passed to [calcCSM] does not
    matter: two lists of spectra that are permutations of each other leave
    the same cross spectral matrix. *)
Theorem accumulate_permutation nFreqs nMics spectra spectra' :
  Permutation spectra spectra' ->
  forall csm f r c,
    accumulate nFreqs nMics csm spectra f r c
    = accumulate nFreqs nMics csm spectra' f r c.
Proof.
  induction 1 as [|S l l' _ IH|S1 S2 l|l l' l'' _ IH1 _ IH2]; intros csm f r c.
  - reflexivity.
  - rewrite !accumulate_cons. apply IH.
  - rewrite !accumulate_cons. apply accumulate_ext, calcCSM_swap.
  - rewrite IH1. apply IH2.
Qed.

Lemma accumulate_permutation_witness :
  accumulate 1 2 zeros3 [example_spectrum_2; example_spectrum_1] 0 0 1
  = accumulate 1 2 zeros3 [example_spectrum_1; example_spectrum_2] 0%nat 0%nat 1%nat.
Proof.
  apply (accumulate_permutation 1 2 _ _
           (perm_swap example_spectrum_1 example_spectrum_2 [])).
Defined.

(** X3. On a cross spectral matrix accumulated from zero, the beamformer with
    a caller-supplied steering vector and full csm returns, at a frequency
    below [nFreqs], the sum over the ensembles of
    [|sum_m conj(spectrum[f, m]) * steerVec[m]|^2], times the normalization
    factor. *)
Theorem accumulated_csm_power nFreqs nMics spectra f steerVec nf :
  (f < nFreqs)%nat ->
  _freqBeamformer_SpecificSteerVec_FullCSM nMics
    (accumulate nFreqs nMics zeros3 spectra f) steerVec nf
  = Rsum (List.length spectra) (fun e =>
      Cnorm2 (Csum nMics (fun m =>
        (conjugate (ensemble spectra e f m) * steerVec m)%C))) * nf.
Proof.
  intros Hf. unfold _freqBeamformer_SpecificSteerVec_FullCSM. cbv zeta.
  rewrite (reduce_FullCSM_accumulate nFreqs nMics spectra f steerVec Hf).
  reflexivity.
Qed.

Lemma accumulated_csm_power_witness :
  let spectra := [example_spectrum_1; example_spectrum_2] in
  _freqBeamformer_SpecificSteerVec_FullCSM 2
    (accumulate 1 2 zeros3 spectra 0) example_steerVec 1
  = Rsum 2 (fun e =>
      Cnorm2 (Csum 2 (fun m =>
        (conjugate (ensemble spectra e 0 m) * example_steerVec m)%C))) * 1.
Proof.
  apply (accumulated_csm_power 1 2 [example_spectrum_1; example_spectrum_2]
           0 example_steerVec 1). lia.
Defined.

(** X4. On a cross spectral matrix accumulated from zero, no beamformer on
    the full csm returns a negative power when the normalization factor is
    not negative: neither the one with a caller-supplied steering vector nor
    those of Formulations I to IV (where the number the result is divided by
    is not zero). *)
Theorem accumulated_csm_nonnegative (float32 : R -> R) nFreqs nMics spectra f nf :
  (f < nFreqs)%nat -> 0 <= nf ->
  (forall steerVec,
     0 <= _freqBeamformer_SpecificSteerVec_FullCSM nMics
            (accumulate nFreqs nMics zeros3 spectra f) steerVec nf)
  /\ (forall z kernel d0 d k,
        beamformerDict float32 false (SteerInt z) false = Some (Core_Csm kernel) ->
        normalization z nMics d0 d <> 0 ->
        0 <= kernel nMics (accumulate nFreqs nMics zeros3 spectra f) d0 d k nf).
Proof.
  intros Hf Hnf.
  assert (Hpos : forall h,
            0 <= reduce_FullCSM nMics (accumulate nFreqs nMics zeros3 spectra f) h).
  { intros h. rewrite (reduce_FullCSM_accumulate nFreqs nMics spectra f h Hf).
    apply Rsum_nonneg. intros e _. apply Cnorm2_nonneg. }
  split.
  - intros steerVec. unfold _freqBeamformer_SpecificSteerVec_FullCSM. cbv zeta.
    apply Rmult_le_pos; [apply Hpos | exact Hnf].
  - intros z kernel d0 d k Hkey Hnorm.
    rewrite (beamformerDict_Csm float32 z false kernel Hkey).
    apply Rmult_le_pos; [|exact Hnf].
    unfold Rdiv. apply Rmult_le_pos; [apply Hpos|].
    pose proof (normalization_nonneg z nMics d0 d) as Hn.
    left. apply Rinv_0_lt_compat. lra.
Qed.

Lemma accumulated_csm_nonnegative_witness :
  let csm := accumulate 1 2 zeros3 [example_spectrum_1; example_spectrum_2] in
  0 <= _freqBeamformer_SpecificSteerVec_FullCSM 2 (csm 0%nat) example_steerVec 1
  /\ 0 <= _freqBeamformer_Formulation1AkaClassic_FullCSM example_float32 2
            (csm 0%nat) 1 example_dist 1 1.
Proof.
  assert (H0 : (0 < 1)%nat) by lia.
  assert (H1 : 0 <= 1) by lra.
  split.
  - apply (proj1 (accumulated_csm_nonnegative example_float32 1 2
                    [example_spectrum_1; example_spectrum_2] 0 1 H0 H1)).
  - apply (proj2 (accumulated_csm_nonnegative example_float32 1 2
                    [example_spectrum_1; example_spectrum_2] 0 1 H0 H1)
             1%Z _ 1 example_dist 1 eq_refl).
    unfold normalization. simpl. lra.
Defined.

(** ** One microphone *)

(** X5. With a single microphone every beamformer on the csm without its
    diagonal returns zero: the direct and the eigenvalue kernels of
    Formulations I to IV (where the number the result is divided by is not
    zero) and the two kernels with a caller-supplied steering vector. *)
Theorem single_microphone_removed_diagonal (float32 : R -> R)
    nEV csm eigVal eigVec d0 d k nf :
  (forall z kernel,
     beamformerDict float32 false (SteerInt z) true = Some (Core_Csm kernel) ->
     normalization z 1 d0 d <> 0 ->
     kernel 1%nat csm d0 d k nf = 0)
  /\ (forall z kernel,
        beamformerDict float32 true (SteerInt z) true = Some (Core_Eig kernel) ->
        normalization z 1 d0 d <> 0 ->
        kernel nEV 1%nat eigVal eigVec d0 d k nf = 0)
  /\ (forall steerVec,
        _freqBeamformer_SpecificSteerVec_CsmRemovedDiag 1 csm steerVec nf = 0)
  /\ (forall steerVec,
        _freqBeamformer_EigValProb_SpecificSteerVec_CsmRemovedDiag
          nEV 1 eigVal eigVec steerVec nf = 0).
Proof.
  split; [|split; [|split]].
  - intros z kernel Hkey _.
    rewrite (beamformerDict_Csm float32 z true kernel Hkey).
    rewrite reduce_CsmRemovedDiag_1. unfold Rdiv. ring.
  - intros z kernel Hkey _.
    rewrite (beamformerDict_Eig float32 z true kernel Hkey).
    rewrite reduce_EigValProb_CsmRemovedDiag_1. unfold Rdiv. ring.
  - intros steerVec. unfold _freqBeamformer_SpecificSteerVec_CsmRemovedDiag.
    cbv zeta. rewrite reduce_CsmRemovedDiag_1. ring.
  - intros steerVec.
    unfold _freqBeamformer_EigValProb_SpecificSteerVec_CsmRemovedDiag.
    cbv zeta. rewrite reduce_EigValProb_CsmRemovedDiag_1. ring.
Qed.

Lemma single_microphone_removed_diagonal_witness :
  _freqBeamformer_Formulation2AkaInverse_CsmRemovedDiag example_float32 1
    example_csm 1 example_dist 1 1 = 0
  /\ _freqBeamformer_EigValProb_Formulation3AkaTrueLevel_CsmRemovedDiag
       example_float32 2 1 example_eigVal example_eigVec 1 example_dist 1 1 = 0.
Proof.
  split.
  - apply (proj1 (single_microphone_removed_diagonal example_float32 2
                    example_csm example_eigVal example_eigVec 1 example_dist 1 1)
             2%Z _ eq_refl).
    unfold normalization. simpl. lra.
  - apply (proj1 (proj2 (single_microphone_removed_diagonal example_float32 2
                    example_csm example_eigVal example_eigVec 1 example_dist 1 1))
             3%Z _ eq_refl).
    unfold normalization, Rsum, example_dist. simpl. lra.
Defined.

(** X6. With a single microphone at a distance that is not zero, and a
    reference distance that is not zero, the four direct kernels on the full
    csm return the auto power [csm[0, 0].real] times the normalization factor
    (Formulations I and IV), and that times the squared ratio of the
    microphone distance to the reference distance (Formulations II and III);
    the rounded phase has no influence. *)
Theorem single_microphone_full_csm (float32 : R -> R) csm d0 d k nf :
  d0 <> 0 -> d 0%nat <> 0 ->
  _freqBeamformer_Formulation1AkaClassic_FullCSM float32 1 csm d0 d k nf
    = real (csm 0 0)%nat * nf
  /\ _freqBeamformer_Formulation2AkaInverse_FullCSM float32 1 csm d0 d k nf
     = real (csm 0 0)%nat * ((d 0%nat / d0) * (d 0%nat / d0)) * nf
  /\ _freqBeamformer_Formulation3AkaTrueLevel_FullCSM float32 1 csm d0 d k nf
     = real (csm 0 0)%nat * ((d 0%nat / d0) * (d 0%nat / d0)) * nf
  /\ _freqBeamformer_Formulation4AkaTrueLocation_FullCSM float32 1 csm d0 d k nf
     = real (csm 0 0)%nat * nf.
Proof.
  intros Hd0 Hd.
  rewrite Formulation1_FullCSM_spec, Formulation2_FullCSM_spec,
    Formulation3_FullCSM_spec, Formulation4_FullCSM_spec.
  rewrite !reduce_FullCSM_1.
  rewrite steering_vector_1, steering_vector_2, steering_vector_3,
    steering_vector_4.
  assert (H3 : forall x, Cnorm2 (CdivR (expMinusJ x) (d 0%nat))
                         = 1 / (d 0%nat * d 0%nat)).
  { intros x. pose proof (Cnorm2_expMinusJ x) as He.
    unfold Cnorm2 in *. unfold CdivR. cbn [real imag].
    replace (real (expMinusJ x) / d 0%nat * (real (expMinusJ x) / d 0%nat)
             + imag (expMinusJ x) / d 0%nat * (imag (expMinusJ x) / d 0%nat))
      with ((real (expMinusJ x) * real (expMinusJ x)
             + imag (expMinusJ x) * imag (expMinusJ x))
            / (d 0%nat * d 0%nat)) by (field; exact Hd).
    rewrite He. reflexivity. }
  assert (H2 : forall x, Cnorm2 (expMinusJ x * RtoC (d 0%nat))%C
                         = d 0%nat * d 0%nat).
  { intros x. rewrite Cnorm2_mul, Cnorm2_expMinusJ. unfold Cnorm2. simpl. ring. }
  rewrite H2, !H3, Cnorm2_expMinusJ.
  unfold normalization, Rsum. simpl.
  repeat split; field; auto.
Qed.

Lemma single_microphone_full_csm_witness :
  _freqBeamformer_Formulation1AkaClassic_FullCSM example_float32 1
    example_csm 2 example_dist 1 1 = real (example_csm 0 0)%nat * 1
  /\ _freqBeamformer_Formulation2AkaInverse_FullCSM example_float32 1
       example_csm 2 example_dist 1 1
     = real (example_csm 0 0)%nat
       * ((example_dist 0%nat / 2) * (example_dist 0%nat / 2)) * 1
  /\ _freqBeamformer_Formulation3AkaTrueLevel_FullCSM example_float32 1
       example_csm 2 example_dist 1 1
     = real (example_csm 0 0)%nat
       * ((example_dist 0%nat / 2) * (example_dist 0%nat / 2)) * 1
  /\ _freqBeamformer_Formulation4AkaTrueLocation_FullCSM example_float32 1
       example_csm 2 example_dist 1 1 = real (example_csm 0 0)%nat * 1.
Proof.
  apply (single_microphone_full_csm example_float32 example_csm 2
           example_dist 1 1).
  - lra.
  - unfold example_dist. simpl. lra.
Defined.

(** ** Eigenvalue kernels *)

(** X7. With eigenvalues that are not negative and a normalization factor
    that is not negative, the eigenvalue kernels on the full csm return a
    power that is not negative and does not decrease when more eigenpairs are
    kept: for the caller-supplied steering vector and for Formulations I to
    IV (where the number the result is divided by is not zero). *)
Theorem EigValProb_truncation (float32 : R -> R) n n' nMics eigVal eigVec nf :
  (n <= n')%nat -> (forall i, (i < n')%nat -> 0 <= eigVal i) -> 0 <= nf ->
  (forall steerVec,
     0 <= _freqBeamformer_EigValProb_SpecificSteerVec_FullCSM
            n nMics eigVal eigVec steerVec nf
       <= _freqBeamformer_EigValProb_SpecificSteerVec_FullCSM
            n' nMics eigVal eigVec steerVec nf)
  /\ (forall z kernel d0 d k,
        beamformerDict float32 true (SteerInt z) false = Some (Core_Eig kernel) ->
        normalization z nMics d0 d <> 0 ->
        0 <= kernel n nMics eigVal eigVec d0 d k nf
          <= kernel n' nMics eigVal eigVec d0 d k nf).
Proof.
  intros Hle Hval Hnf.
  assert (Hpos : forall h, 0 <= eig_power n nMics eigVal eigVec h).
  { intros h. apply eig_power_nonneg. intros i Hi. apply Hval. lia. }
  assert (Hmono : forall h, eig_power n nMics eigVal eigVec h
                            <= eig_power n' nMics eigVal eigVec h).
  { intros h. apply eig_power_le; [exact Hle|].
    intros i Hi. apply Hval. lia. }
  split.
  - intros steerVec.
    unfold _freqBeamformer_EigValProb_SpecificSteerVec_FullCSM. cbv zeta.
    rewrite !reduce_EigValProb_FullCSM_sum.
    specialize (Hpos steerVec). specialize (Hmono steerVec). nra.
  - intros z kernel d0 d k Hkey Hnorm.
    rewrite !(beamformerDict_Eig float32 z false kernel Hkey).
    rewrite !reduce_EigValProb_FullCSM_sum.
    set (h := steering_vector float32 z (EigValProb_centered z false) k d0 d).
    specialize (Hpos h). specialize (Hmono h).
    pose proof (normalization_nonneg z nMics d0 d) as Hn.
    assert (Hinv : 0 < / normalization z nMics d0 d)
      by (apply Rinv_0_lt_compat; lra).
    unfold Rdiv.
    assert (H1 : 0 <= eig_power n nMics eigVal eigVec h
                      * / normalization z nMics d0 d) by nra.
    assert (H2 : eig_power n nMics eigVal eigVec h * / normalization z nMics d0 d
                 <= eig_power n' nMics eigVal eigVec h
                    * / normalization z nMics d0 d) by nra.
    nra.
Qed.

Lemma EigValProb_truncation_witness :
  (0 <= _freqBeamformer_EigValProb_SpecificSteerVec_FullCSM
          1 2 example_eigVal example_eigVec example_steerVec 1
     <= _freqBeamformer_EigValProb_SpecificSteerVec_FullCSM
          2 2 example_eigVal example_eigVec example_steerVec 1)
  /\ (0 <= _freqBeamformer_EigValProb_Formulation1AkaClassic_FullCSM
             example_float32 1 2 example_eigVal example_eigVec 1 example_dist 1 1
        <= _freqBeamformer_EigValProb_Formulation1AkaClassic_FullCSM
             example_float32 2 2 example_eigVal example_eigVec 1 example_dist 1 1).
Proof.
  assert (Hle : (1 <= 2)%nat) by lia.
  assert (Hval : forall i, (i < 2)%nat -> 0 <= example_eigVal i)
    by (intros i _; unfold example_eigVal; lra).
  assert (Hnf : 0 <= 1) by lra.
  split.
  - apply (proj1 (EigValProb_truncation example_float32 1 2 2 example_eigVal
                    example_eigVec 1 Hle Hval Hnf)).
  - apply (proj2 (EigValProb_truncation example_float32 1 2 2 example_eigVal
                    example_eigVec 1 Hle Hval Hnf) 1%Z _ 1 example_dist 1 eq_refl).
    unfold normalization. simpl. lra.
Defined.

(** ** Steering vectors *)

(** X8. Multiplying a caller-supplied steering vector by one complex number
    [u] multiplies the result of each of the four kernels that take a
    steering vector by [|u|^2]; a factor of modulus one, such as a phase
    common to all microphones, changes nothing. *)
Theorem steering_vector_scaling nEV nMics csm eigVal eigVec u steerVec nf :
  let scaled := fun m => (u * steerVec m)%C in
  _freqBeamformer_SpecificSteerVec_FullCSM nMics csm scaled nf
    = Cnorm2 u * _freqBeamformer_SpecificSteerVec_FullCSM nMics csm steerVec nf
  /\ _freqBeamformer_SpecificSteerVec_CsmRemovedDiag nMics csm scaled nf
     = Cnorm2 u
       * _freqBeamformer_SpecificSteerVec_CsmRemovedDiag nMics csm steerVec nf
  /\ _freqBeamformer_EigValProb_SpecificSteerVec_FullCSM
       nEV nMics eigVal eigVec scaled nf
     = Cnorm2 u * _freqBeamformer_EigValProb_SpecificSteerVec_FullCSM
                    nEV nMics eigVal eigVec steerVec nf
  /\ _freqBeamformer_EigValProb_SpecificSteerVec_CsmRemovedDiag
       nEV nMics eigVal eigVec scaled nf
     = Cnorm2 u * _freqBeamformer_EigValProb_SpecificSteerVec_CsmRemovedDiag
                    nEV nMics eigVal eigVec steerVec nf.
Proof.
  cbv zeta.
  unfold _freqBeamformer_SpecificSteerVec_FullCSM,
    _freqBeamformer_SpecificSteerVec_CsmRemovedDiag,
    _freqBeamformer_EigValProb_SpecificSteerVec_FullCSM,
    _freqBeamformer_EigValProb_SpecificSteerVec_CsmRemovedDiag.
  cbv zeta.
  rewrite reduce_FullCSM_scale, reduce_CsmRemovedDiag_scale,
    reduce_EigValProb_FullCSM_scale, reduce_EigValProb_CsmRemovedDiag_scale.
  repeat split; ring.
Qed.

(** X9. If [np.float32] rounds nothing and the csm is the matrix
    [sum_i eigVal[i] * eigVec[:, i] * eigVec[:, i]^H], then for each of
    Formulations I to IV, with the full csm and with its diagonal removed,
    the eigenvalue kernel returns what the direct kernel returns: the phase
    [waveNumber * distGridToArrayCenter] that seven of the eight eigenvalue
    kernels subtract cancels out. *)
Theorem unrounded_EigValProb_agrees_with_direct
    nEV nMics eigVal eigVec csm d0 d k nf :
  (forall r c, (r < nMics)%nat -> (c < nMics)%nat ->
     csm r c = spectral_reconstruction nEV eigVal eigVec r c) ->
  forall z rd direct eigen,
    beamformerDict (fun x => x) false (SteerInt z) rd = Some (Core_Csm direct) ->
    beamformerDict (fun x => x) true (SteerInt z) rd = Some (Core_Eig eigen) ->
    eigen nEV nMics eigVal eigVec d0 d k nf = direct nMics csm d0 d k nf.
Proof.
  intros Hcsm z rd direct eigen Hd He.
  rewrite (beamformerDict_Csm _ z rd direct Hd).
  rewrite (beamformerDict_Eig _ z rd eigen He).
  f_equal. f_equal.
  assert (Hsteer :
            (if rd then reduce_EigValProb_CsmRemovedDiag
             else reduce_EigValProb_FullCSM) nEV nMics eigVal eigVec
              (steering_vector (fun x => x) z (EigValProb_centered z rd) k d0 d)
            = (if rd then reduce_EigValProb_CsmRemovedDiag
               else reduce_EigValProb_FullCSM) nEV nMics eigVal eigVec
                (steering_vector (fun x => x) z false k d0 d)).
  { destruct (EigValProb_centered z rd); [|reflexivity].
    set (u := Cexp (Ci * RtoC (k * d0))).
    set (h := steering_vector (fun x => x) z false k d0 d).
    assert (Hu : Cnorm2 u = 1) by apply Cnorm2_Cexp_imaginary.
    destruct rd.
    - rewrite (reduce_EigValProb_CsmRemovedDiag_ext nEV nMics eigVal eigVec
                 (fun m => (u * h m)%C)
                 (steering_vector (fun x => x) z true k d0 d))
        by (intros m _; apply steering_vector_centered).
      rewrite reduce_EigValProb_CsmRemovedDiag_scale, Hu. ring.
    - rewrite (reduce_EigValProb_FullCSM_ext nEV nMics eigVal eigVec
                 (fun m => (u * h m)%C)
                 (steering_vector (fun x => x) z true k d0 d))
        by (intros m _; apply steering_vector_centered).
      rewrite reduce_EigValProb_FullCSM_scale, Hu. ring. }
  rewrite Hsteer. destruct rd.
  - rewrite reduce_EigValProb_CsmRemovedDiag_sum.
    symmetry. apply reduce_CsmRemovedDiag_reconstruction. exact Hcsm.
  - rewrite reduce_EigValProb_FullCSM_sum.
    symmetry. apply reduce_FullCSM_reconstruction. exact Hcsm.
Qed.

Lemma unrounded_EigValProb_agrees_with_direct_witness :
  let csm := spectral_reconstruction 2 example_eigVal example_eigVec in
  _freqBeamformer_EigValProb_Formulation3AkaTrueLevel_CsmRemovedDiag
    (fun x => x) 2 3 example_eigVal example_eigVec 1 example_dist 1 1
  = _freqBeamformer_Formulation3AkaTrueLevel_CsmRemovedDiag
      (fun x => x) 3 csm 1 example_dist 1 1.
Proof.
  apply (unrounded_EigValProb_agrees_with_direct 2 3 example_eigVal
           example_eigVec (spectral_reconstruction 2 example_eigVal example_eigVec)
           1 example_dist 1 1 (fun r c _ _ => eq_refl) 3%Z true _ _
           eq_refl eq_refl).
Defined.

(** ** [transfer] *)

(** X10. Every entry of the array [transfer] returns has the squared modulus
    [(distGridToArrayCenter[g] / distGridToAllMics[g, m])^2], whatever the
    wavenumber and whatever [np.float32] does to the phase (for a microphone
    distance that is not zero). *)
Theorem transfer_modulus (float32 : R -> R) nFreqs nGridPoints nMics
    distGridToArrayCenter distGridToAllMics wavenumber f g m :
  (f < nFreqs)%nat -> (g < nGridPoints)%nat -> (m < nMics)%nat ->
  distGridToAllMics g m <> 0 ->
  Cnorm2 (transfer float32 nFreqs nGridPoints nMics distGridToArrayCenter
            distGridToAllMics wavenumber f g m)
  = (distGridToArrayCenter g / distGridToAllMics g m)
    * (distGridToArrayCenter g / distGridToAllMics g m).
Proof.
  intros Hf Hg Hm Hd. rewrite transferOutput_entry.
  rewrite (proj2 (Nat.ltb_lt f nFreqs) Hf), (proj2 (Nat.ltb_lt g nGridPoints) Hg),
    (proj2 (Nat.ltb_lt m nMics) Hm).
  cbn [andb].
  set (x := float32 (imag (wavenumber f)
                     * (distGridToAllMics g m - distGridToArrayCenter g))).
  pose proof (Cnorm2_expMinusJ x) as He.
  unfold Cnorm2 in *. unfold CdivR. cbn [real imag Cmul RtoC].
  set (a := real (expMinusJ x)) in *. set (b := imag (expMinusJ x)) in *.
  replace ((a * distGridToArrayCenter g - b * 0) / distGridToAllMics g m
           * ((a * distGridToArrayCenter g - b * 0) / distGridToAllMics g m)
           + (a * 0 + b * distGridToArrayCenter g) / distGridToAllMics g m
             * ((a * 0 + b * distGridToArrayCenter g) / distGridToAllMics g m))
    with ((a * a + b * b)
          * (distGridToArrayCenter g / distGridToAllMics g m
             * (distGridToArrayCenter g / distGridToAllMics g m)))
    by (field; exact Hd).
  rewrite He. ring.
Qed.

Lemma transfer_modulus_witness :
  Cnorm2 (transfer example_float32 1 1 2 (fun _ => 3) (fun _ => example_dist)
            (fun _ => Cplx 0 1) 0 0 1)
  = (3 / example_dist 1%nat) * (3 / example_dist 1%nat).
Proof.
  apply (transfer_modulus example_float32 1 1 2 (fun _ => 3)
           (fun _ => example_dist) (fun _ => Cplx 0 1) 0 0 1); try lia.
  unfold example_dist. simpl. lra.
Defined.

(** ** [beamformerFreq] *)

(** X11. A key that [beamformerDict] does not hold makes [beamformerFreq]
    fail, whatever the other arguments and the input tuple are: an integer
    [steerVecType] other than 1, 2, 3, 4, and a string other than
    ['specific']. *)
Theorem beamformerFreq_unknown_key (float32 : R -> R)
    nFreqs nGridPoints nMics nEV boolIsEigValProb boolRemovedDiagOfCSM
    normFactor inputTuple :
  (forall z, (z < 1 \/ 4 < z)%Z ->
     beamformerFreq float32 nFreqs nGridPoints nMics nEV boolIsEigValProb
       (SteerInt z) boolRemovedDiagOfCSM normFactor inputTuple = None)
  /\ (forall s, s <> "specific"%string ->
        beamformerFreq float32 nFreqs nGridPoints nMics nEV boolIsEigValProb
          (SteerStr s) boolRemovedDiagOfCSM normFactor inputTuple = None).
Proof.
  split.
  - intros z Hz. unfold beamformerFreq.
    rewrite (beamformerDict_unknown_int float32 _ z _ Hz). reflexivity.
  - intros s Hs. unfold beamformerFreq.
    rewrite (beamformerDict_unknown_str float32 _ s _ Hs). reflexivity.
Qed.

Lemma beamformerFreq_unknown_key_witness :
  beamformerFreq example_float32 1 1 2 2 false (SteerInt 5) false 1
    (Input_Csm (fun _ => 1) (fun _ => example_dist) (fun _ => Cplx 0 1)
       (fun _ => example_csm)) = None
  /\ beamformerFreq example_float32 1 1 2 2 true (SteerStr "Specific") true 1
       (Input_Specific_Eig (fun _ _ => example_steerVec) (fun _ => example_eigVal)
          (fun _ => example_eigVec)) = None.
Proof.
  split.
  - apply (proj1 (beamformerFreq_unknown_key example_float32 1 1 2 2 false false 1
                    (Input_Csm (fun _ => 1) (fun _ => example_dist)
                       (fun _ => Cplx 0 1) (fun _ => example_csm))) 5%Z).
    lia.
  - apply (proj2 (beamformerFreq_unknown_key example_float32 1 1 2 2 true true 1
                    (Input_Specific_Eig (fun _ _ => example_steerVec)
                       (fun _ => example_eigVal) (fun _ => example_eigVec)))
             "Specific"%string).
    discriminate.
Defined.

(** X12. For each of the twenty keys and the input tuple that goes with the
    key, [beamformerFreq] returns a map, and the entry of the map at
    frequency [f] and grid point [g] is: for Formulations I to IV, the loop
    of the kernel (full csm or removed diagonal) on [csm[f]], resp. on
    [eigVal[f]] and [eigVec[f]], with the steering vector of the formulation
    at the wavenumber [wavenumber[f].imag] and the distances of [g], divided
    by the normalization of the formulation and multiplied by [normFactor];
    for ['specific'], that loop with the steering vector [steerVec[f, g]]
    times [normFactor]. *)
Theorem beamformerFreq_map (float32 : R -> R)
    nFreqs nGridPoints nMics nEV normFactor :
  (forall z rd d0 d wavenumber csm, (1 <= z <= 4)%Z ->
     exists out,
       beamformerFreq float32 nFreqs nGridPoints nMics nEV false (SteerInt z) rd
         normFactor (Input_Csm d0 d wavenumber csm) = Some out
       /\ forall f g, (f < nFreqs)%nat -> (g < nGridPoints)%nat ->
            out f g
            = (if rd then reduce_CsmRemovedDiag else reduce_FullCSM) nMics (csm f)
                (steering_vector float32 z false (imag (wavenumber f))
                   (d0 g) (d g))
              / normalization z nMics (d0 g) (d g) * normFactor)
  /\ (forall z rd d0 d wavenumber eigVal eigVec, (1 <= z <= 4)%Z ->
        exists out,
          beamformerFreq float32 nFreqs nGridPoints nMics nEV true (SteerInt z) rd
            normFactor (Input_Eig d0 d wavenumber eigVal eigVec) = Some out
          /\ forall f g, (f < nFreqs)%nat -> (g < nGridPoints)%nat ->
               out f g
               = (if rd then reduce_EigValProb_CsmRemovedDiag
                  else reduce_EigValProb_FullCSM) nEV nMics (eigVal f) (eigVec f)
                   (steering_vector float32 z (EigValProb_centered z rd)
                      (imag (wavenumber f)) (d0 g) (d g))
                 / normalization z nMics (d0 g) (d g) * normFactor)
  /\ (forall rd steerVec csm,
        exists out,
          beamformerFreq float32 nFreqs nGridPoints nMics nEV false
            (SteerStr "specific") rd normFactor (Input_Specific_Csm steerVec csm)
          = Some out
          /\ forall f g, (f < nFreqs)%nat -> (g < nGridPoints)%nat ->
               out f g
               = (if rd then reduce_CsmRemovedDiag else reduce_FullCSM) nMics
                   (csm f) (steerVec f g) * normFactor)
  /\ (forall rd steerVec eigVal eigVec,
        exists out,
          beamformerFreq float32 nFreqs nGridPoints nMics nEV true
            (SteerStr "specific") rd normFactor
            (Input_Specific_Eig steerVec eigVal eigVec)
          = Some out
          /\ forall f g, (f < nFreqs)%nat -> (g < nGridPoints)%nat ->
               out f g
               = (if rd then reduce_EigValProb_CsmRemovedDiag
                  else reduce_EigValProb_FullCSM) nEV nMics (eigVal f) (eigVec f)
                   (steerVec f g) * normFactor).
Proof.
  split; [|split; [|split]].
  - intros z rd d0 d wavenumber csm Hz.
    destruct (beamformerDict_Csm_known float32 z rd Hz) as [kernel Hkey].
    unfold beamformerFreq. rewrite Hkey. eexists. split; [reflexivity|].
    intros f g Hf Hg. rewrite beamformOutput_entry.
    rewrite (proj2 (Nat.ltb_lt f nFreqs) Hf),
      (proj2 (Nat.ltb_lt g nGridPoints) Hg).
    cbn [andb]. apply (beamformerDict_Csm float32 z rd kernel Hkey).
  - intros z rd d0 d wavenumber eigVal eigVec Hz.
    destruct (beamformerDict_Eig_known float32 z rd Hz) as [kernel Hkey].
    unfold beamformerFreq. rewrite Hkey. eexists. split; [reflexivity|].
    intros f g Hf Hg. rewrite beamformOutput_entry.
    rewrite (proj2 (Nat.ltb_lt f nFreqs) Hf),
      (proj2 (Nat.ltb_lt g nGridPoints) Hg).
    cbn [andb]. apply (beamformerDict_Eig float32 z rd kernel Hkey).
  - intros rd steerVec csm. destruct rd.
    + eexists. split; [reflexivity|].
      intros f g Hf Hg. rewrite beamformOutput_entry.
      rewrite (proj2 (Nat.ltb_lt f nFreqs) Hf),
        (proj2 (Nat.ltb_lt g nGridPoints) Hg).
      reflexivity.
    + eexists. split; [reflexivity|].
      intros f g Hf Hg. rewrite beamformOutput_entry.
      rewrite (proj2 (Nat.ltb_lt f nFreqs) Hf),
        (proj2 (Nat.ltb_lt g nGridPoints) Hg).
      reflexivity.
  - intros rd steerVec eigVal eigVec. destruct rd.
    + eexists. split; [reflexivity|].
      intros f g Hf Hg. rewrite beamformOutput_entry.
      rewrite (proj2 (Nat.ltb_lt f nFreqs) Hf),
        (proj2 (Nat.ltb_lt g nGridPoints) Hg).
      reflexivity.
    + eexists. split; [reflexivity|].
      intros f g Hf Hg. rewrite beamformOutput_entry.
      rewrite (proj2 (Nat.ltb_lt f nFreqs) Hf),
        (proj2 (Nat.ltb_lt g nGridPoints) Hg).
      reflexivity.
Qed.

Lemma beamformerFreq_map_witness :
  exists out,
    beamformerFreq example_float32 1 1 2 2 false (SteerInt 2) true 1
      (Input_Csm (fun _ => 1) (fun _ => example_dist) (fun _ => Cplx 0 1)
         (fun _ => example_csm)) = Some out
    /\ out 0%nat 0%nat
       = reduce_CsmRemovedDiag 2 example_csm
           (steering_vector example_float32 2 false 1 1 example_dist)
         / normalization 2 2 1 example_dist * 1.
Proof.
  destruct (proj1 (beamformerFreq_map example_float32 1 1 2 2 1)
              2%Z true (fun _ => 1) (fun _ => example_dist) (fun _ => Cplx 0 1)
              (fun _ => example_csm) ltac:(lia)) as [out [Hout Hentry]].
  exists out. split; [exact Hout|].
  apply (Hentry 0%nat 0%nat); lia.
Defined.

(** ** The diagonal *)

(** X13. A cross spectral matrix accumulated from zero has, at every
    frequency below [nFreqs], a diagonal of real numbers that are not
    negative, the sums over the ensembles of [|spectrum[f, m]|^2], and a
    strict lower triangle of zeros: [calcCSM] leaves the Hermitian completion
    to its caller. *)
Theorem accumulated_csm_diagonal nFreqs nMics spectra f r :
  (f < nFreqs)%nat -> (r < nMics)%nat ->
  accumulate nFreqs nMics zeros3 spectra f r r
  = RtoC (Rsum (List.length spectra) (fun e => Cnorm2 (ensemble spectra e f r)))
  /\ 0 <= real (accumulate nFreqs nMics zeros3 spectra f r r)
  /\ (forall c, (c < r)%nat ->
        accumulate nFreqs nMics zeros3 spectra f r c = C0).
Proof.
  intros Hf Hr.
  assert (Hdiag : accumulate nFreqs nMics zeros3 spectra f r r
                  = RtoC (Rsum (List.length spectra)
                            (fun e => Cnorm2 (ensemble spectra e f r)))).
  { rewrite accumulate_entry.
    rewrite (proj2 (Nat.ltb_lt f nFreqs) Hf), (proj2 (Nat.ltb_lt r nMics) Hr),
      Nat.leb_refl.
    cbn [andb]. unfold zeros3. apply C_eq.
    - cbn [real Cadd C0 RtoC]. rewrite real_Csum, Rplus_0_l.
      apply Rsum_ext. intros e _. unfold Cnorm2. simpl. ring.
    - cbn [imag Cadd C0 RtoC]. rewrite imag_Csum, Rplus_0_l.
      apply Rsum_zero. intros e _. simpl. ring. }
  split; [exact Hdiag|]. split.
  - rewrite Hdiag. cbn [real RtoC]. apply Rsum_nonneg. intros e _.
    apply Cnorm2_nonneg.
  - intros c Hc. rewrite accumulate_entry.
    rewrite (proj2 (Nat.leb_gt r c) Hc), andb_false_r. reflexivity.
Qed.

Lemma accumulated_csm_diagonal_witness :
  let spectra := [example_spectrum_1; example_spectrum_2] in
  (accumulate 1 2 zeros3 spectra 0 0 0
   = RtoC (Rsum 2 (fun e => Cnorm2 (ensemble spectra e 0 0)))%nat
   /\ 0 <= real (accumulate 1 2 zeros3 spectra 0 0 0)%nat)
  /\ (accumulate 1 2 zeros3 spectra 0 1 1
      = RtoC (Rsum 2 (fun e => Cnorm2 (ensemble spectra e 0 1)))%nat
      /\ 0 <= real (accumulate 1 2 zeros3 spectra 0 1 1)%nat
      /\ accumulate 1 2 zeros3 spectra 0 1 0 = C0).
Proof.
  cbv zeta.
  assert (H0 : (0 < 1)%nat) by lia.
  assert (H02 : (0 < 2)%nat) by lia.
  assert (H12 : (1 < 2)%nat) by lia.
  destruct (accumulated_csm_diagonal 1 2
              [example_spectrum_1; example_spectrum_2] 0 0 H0 H02)
    as (Hd0 & Hp0 & _).
  destruct (accumulated_csm_diagonal 1 2
              [example_spectrum_1; example_spectrum_2] 0 1 H0 H12)
    as (Hd1 & Hp1 & Hl1).
  split; [split; [exact Hd0|exact Hp0]|].
  split; [exact Hd1|]. split; [exact Hp1|]. apply Hl1. lia.
Defined.

(** X14. With eigenvalues that are not negative and a normalization factor
    that is not negative, removing the diagonal never raises the result of
    an eigenvalue kernel: the removed-diagonal kernel returns at most what
    the full-csm kernel returns, for the caller-supplied steering vector and
    for Formulations II, III and IV (where the number the result is divided
    by is not zero). *)
Theorem EigValProb_removed_diagonal_le_full (float32 : R -> R)
    nEV nMics eigVal eigVec nf :
  (forall i, (i < nEV)%nat -> 0 <= eigVal i) -> 0 <= nf ->
  (forall steerVec,
     _freqBeamformer_EigValProb_SpecificSteerVec_CsmRemovedDiag
       nEV nMics eigVal eigVec steerVec nf
     <= _freqBeamformer_EigValProb_SpecificSteerVec_FullCSM
          nEV nMics eigVal eigVec steerVec nf)
  /\ (forall z full removed d0 d k,
        (2 <= z <= 4)%Z ->
        beamformerDict float32 true (SteerInt z) false = Some (Core_Eig full) ->
        beamformerDict float32 true (SteerInt z) true = Some (Core_Eig removed) ->
        normalization z nMics d0 d <> 0 ->
        removed nEV nMics eigVal eigVec d0 d k nf
        <= full nEV nMics eigVal eigVec d0 d k nf).
Proof.
  intros Hval Hnf.
  assert (Hdiag : forall h,
            0 <= eig_diagonal_contribution nEV nMics eigVal eigVec h).
  { intros h. unfold eig_diagonal_contribution. apply Rsum_nonneg. intros i Hi.
    apply Rmult_le_pos; [apply Hval, Hi|].
    apply Rsum_nonneg. intros m _. apply Cnorm2_nonneg. }
  split.
  - intros steerVec.
    unfold _freqBeamformer_EigValProb_SpecificSteerVec_CsmRemovedDiag,
      _freqBeamformer_EigValProb_SpecificSteerVec_FullCSM.
    cbv zeta.
    pose proof (eig_diagonal_difference nEV nMics eigVal eigVec steerVec).
    specialize (Hdiag steerVec). nra.
  - intros z full removed d0 d k Hz Hfull Hremoved Hnorm.
    rewrite (beamformerDict_Eig float32 z false full Hfull).
    rewrite (beamformerDict_Eig float32 z true removed Hremoved).
    assert (Hcentered : EigValProb_centered z false = EigValProb_centered z true).
    { unfold EigValProb_centered. destruct (Z.eqb_spec z 1); [lia|reflexivity]. }
    rewrite Hcentered.
    set (h := steering_vector float32 z (EigValProb_centered z true) k d0 d).
    pose proof (eig_diagonal_difference nEV nMics eigVal eigVec h) as Hdiff.
    specialize (Hdiag h).
    pose proof (normalization_nonneg z nMics d0 d) as Hn.
    assert (Hinv : 0 < / normalization z nMics d0 d)
      by (apply Rinv_0_lt_compat; lra).
    unfold Rdiv.
    assert (H1 : reduce_EigValProb_CsmRemovedDiag nEV nMics eigVal eigVec h
                 * / normalization z nMics d0 d
                 <= reduce_EigValProb_FullCSM nEV nMics eigVal eigVec h
                    * / normalization z nMics d0 d) by nra.
    nra.
Qed.

Lemma EigValProb_removed_diagonal_le_full_witness :
  _freqBeamformer_EigValProb_SpecificSteerVec_CsmRemovedDiag
    2 2 example_eigVal example_eigVec example_steerVec 1
  <= _freqBeamformer_EigValProb_SpecificSteerVec_FullCSM
       2 2 example_eigVal example_eigVec example_steerVec 1
  /\ _freqBeamformer_EigValProb_Formulation2AkaInverse_CsmRemovedDiag
       example_float32 2 2 example_eigVal example_eigVec 1 example_dist 1 1
     <= _freqBeamformer_EigValProb_Formulation2AkaInverse_FullCSM
          example_float32 2 2 example_eigVal example_eigVec 1 example_dist 1 1.
Proof.
  assert (Hval : forall i, (i < 2)%nat -> 0 <= example_eigVal i)
    by (intros i _; unfold example_eigVal; lra).
  assert (Hnf : 0 <= 1) by lra.
  split.
  - apply (proj1 (EigValProb_removed_diagonal_le_full example_float32 2 2
                    example_eigVal example_eigVec 1 Hval Hnf)).
  - apply (proj2 (EigValProb_removed_diagonal_le_full example_float32 2 2
                    example_eigVal example_eigVec 1 Hval Hnf)
             2%Z _ _ 1 example_dist 1); try reflexivity; try lia.
    unfold normalization. simpl. lra.
Defined.

(** ** The csm as an argument of the direct kernels *)

Lemma reduce_CsmRemovedDiag_linear n (csm1 csm2 : nat -> nat -> complex128) a b h :
  reduce_CsmRemovedDiag n
    (fun r c => (RtoC a * csm1 r c + RtoC b * csm2 r c)%C) h
  = a * reduce_CsmRemovedDiag n csm1 h + b * reduce_CsmRemovedDiag n csm2 h.
Proof.
  rewrite !reduce_CsmRemovedDiag_sum, !Rsum_mul_l, <- Rsum_add.
  apply Rsum_ext. intros c _.
  rewrite (Csum_ext c
             (fun r => ((RtoC a * csm1 r c + RtoC b * csm2 r c)
                        * conjugate (h r))%C)
             (fun r => (RtoC a * (csm1 r c * conjugate (h r))
                        + RtoC b * (csm2 r c * conjugate (h r)))%C))
    by (intros; ring).
  rewrite Csum_add, <- !Csum_mul_l. simpl. ring.
Qed.

Lemma reduce_FullCSM_linear n (csm1 csm2 : nat -> nat -> complex128) a b h :
  reduce_FullCSM n (fun r c => (RtoC a * csm1 r c + RtoC b * csm2 r c)%C) h
  = a * reduce_FullCSM n csm1 h + b * reduce_FullCSM n csm2 h.
Proof.
  rewrite !reduce_FullCSM_diagonal, reduce_CsmRemovedDiag_linear.
  unfold diagonal_contribution. rewrite !real_Csum.
  assert (H : Rsum n (fun i =>
                real (CmulR (RtoC a * csm1 i i + RtoC b * csm2 i i)%C
                        (Cnorm2 (h i))))
              = a * Rsum n (fun i => real (CmulR (csm1 i i) (Cnorm2 (h i))))
                + b * Rsum n (fun i => real (CmulR (csm2 i i) (Cnorm2 (h i))))).
  { rewrite !Rsum_mul_l, <- Rsum_add. apply Rsum_ext. intros i _. simpl. ring. }
  rewrite H. ring.
Qed.

(** ** Distances in another unit of length *)

Lemma Cnorm2_RtoC x : Cnorm2 (RtoC x) = x * x.
Proof. unfold Cnorm2. simpl. ring. Qed.

Lemma CdivR_rescaled a lam x :
  CdivR a (lam * x) = (RtoC (/ lam) * CdivR a x)%C.
Proof.
  unfold CdivR, Rdiv. rewrite Rinv_mult. apply C_eq; simpl; ring.
Qed.

Lemma steering_vector_rescaled (float32 : R -> R) z centered lam k d0 d m :
  lam <> 0 ->
  steering_vector float32 z centered (k / lam) (lam * d0)
    (fun m => lam * d m) m
  = (RtoC (length_factor z lam) * steering_vector float32 z centered k d0 d m)%C.
Proof.
  intros Hlam. unfold steering_vector, phase_argument. cbv zeta.
  assert (Hphase : k / lam * (if centered then lam * d m - lam * d0 else lam * d m)
                   = k * (if centered then d m - d0 else d m))
    by (destruct centered; field; exact Hlam).
  rewrite Hphase.
  destruct z as [|p|p]; try (apply C_eq; simpl; ring).
  destruct p as [p|p|];
    [destruct p as [p|p|]
    |destruct p as [p|p|]; [ |destruct p as [p|p|]| ]| ];
    try (apply C_eq; simpl; ring);
    apply CdivR_rescaled.
Qed.

Lemma normalization_rescaled z nMics lam d0 d :
  lam <> 0 -> (forall m, (m < nMics)%nat -> d m <> 0) ->
  normalization z nMics (lam * d0) (fun m => lam * d m)
  = length_factor z lam * length_factor z lam * normalization z nMics d0 d.
Proof.
  intros Hlam Hd. unfold normalization. cbv zeta.
  assert (HH : Rsum nMics (fun m => 1 / (lam * d m * (lam * d m)))
               = / lam * / lam * Rsum nMics (fun m => 1 / (d m * d m))).
  { rewrite Rsum_mul_l. apply Rsum_ext. intros m Hm. field.
    split; [apply Hd, Hm|exact Hlam]. }
  rewrite HH. unfold length_factor.
  destruct z as [|p|p]; try ring.
  destruct p as [p|p|];
    [destruct p as [p|p|]
    |destruct p as [p|p|]; [ |destruct p as [p|p|]| ]| ];
    try ring; field; exact Hlam.
Qed.

Lemma length_factor_neq_0 z lam : lam <> 0 -> length_factor z lam <> 0.
Proof.
  intros Hlam. unfold length_factor.
  destruct z as [|p|p]; try apply R1_neq_R0.
  destruct p as [p|p|];
    [destruct p as [p|p|]
    |destruct p as [p|p|]; [ |destruct p as [p|p|]| ]| ];
    try apply R1_neq_R0; try exact Hlam; apply Rinv_neq_0_compat; exact Hlam.
Qed.

(** ** What the direct kernels read of the csm *)

(** X15. No direct kernel reads the csm below its diagonal, and no direct
    kernel for the removed diagonal reads the diagonal either: two matrices
    that agree above the diagonal, and on it when the full csm is asked for,
    give the same result, for Formulations I to IV and for the
    caller-supplied steering vector. *)
Theorem direct_kernels_read_upper_triangle (float32 : R -> R)
    nMics (csm csm' : nat -> nat -> complex128) nf :
  (forall r c, (r < c)%nat -> (c < nMics)%nat -> csm' r c = csm r c) ->
  (forall z kernel d0 d k,
     beamformerDict float32 false (SteerInt z) true = Some (Core_Csm kernel) ->
     kernel nMics csm' d0 d k nf = kernel nMics csm d0 d k nf)
  /\ (forall steerVec,
        _freqBeamformer_SpecificSteerVec_CsmRemovedDiag nMics csm' steerVec nf
        = _freqBeamformer_SpecificSteerVec_CsmRemovedDiag nMics csm steerVec nf)
  /\ ((forall m, (m < nMics)%nat -> csm' m m = csm m m) ->
      (forall z kernel d0 d k,
         beamformerDict float32 false (SteerInt z) false
         = Some (Core_Csm kernel) ->
         kernel nMics csm' d0 d k nf = kernel nMics csm d0 d k nf)
      /\ (forall steerVec,
            _freqBeamformer_SpecificSteerVec_FullCSM nMics csm' steerVec nf
            = _freqBeamformer_SpecificSteerVec_FullCSM nMics csm steerVec nf)).
Proof.
  intros Hupper.
  assert (Hremoved : forall h,
            reduce_CsmRemovedDiag nMics csm' h = reduce_CsmRemovedDiag nMics csm h)
    by (intros h; apply reduce_CsmRemovedDiag_ext; [exact Hupper|reflexivity]).
  split; [|split].
  - intros z kernel d0 d k Hkey.
    rewrite !(beamformerDict_Csm float32 z true kernel Hkey), Hremoved.
    reflexivity.
  - intros steerVec. unfold _freqBeamformer_SpecificSteerVec_CsmRemovedDiag.
    cbv zeta. rewrite Hremoved. reflexivity.
  - intros Hdiag.
    assert (Hfull : forall h,
              reduce_FullCSM nMics csm' h = reduce_FullCSM nMics csm h).
    { intros h. apply reduce_FullCSM_ext; [|reflexivity].
      intros r c Hr Hc. destruct (Nat.eq_dec r c) as [->|Hne].
      - apply Hdiag, Hc.
      - apply Hupper; lia. }
    split.
    + intros z kernel d0 d k Hkey.
      rewrite !(beamformerDict_Csm float32 z false kernel Hkey), Hfull.
      reflexivity.
    + intros steerVec. unfold _freqBeamformer_SpecificSteerVec_FullCSM.
      cbv zeta. rewrite Hfull. reflexivity.
Qed.

Lemma direct_kernels_read_upper_triangle_witness :
  _freqBeamformer_Formulation3AkaTrueLevel_CsmRemovedDiag example_float32 2
    (hermitian_completion example_csm) 1 example_dist 1 1
  = _freqBeamformer_Formulation3AkaTrueLevel_CsmRemovedDiag example_float32 2
      example_csm 1 example_dist 1 1
  /\ _freqBeamformer_SpecificSteerVec_FullCSM 2
       (hermitian_completion example_csm) example_steerVec 1
     = _freqBeamformer_SpecificSteerVec_FullCSM 2 example_csm example_steerVec 1.
Proof.
  assert (Hupper : forall r c, (r < c)%nat -> (c < 2)%nat ->
            hermitian_completion example_csm r c = example_csm r c).
  { intros r c Hr _. unfold hermitian_completion.
    rewrite (proj2 (Nat.leb_le r c)) by lia. reflexivity. }
  assert (Hdiag : forall m, (m < 2)%nat ->
            hermitian_completion example_csm m m = example_csm m m).
  { intros m _. unfold hermitian_completion. rewrite Nat.leb_refl. reflexivity. }
  split.
  - apply (proj1 (direct_kernels_read_upper_triangle example_float32 2
                    example_csm (hermitian_completion example_csm) 1 Hupper)
             3%Z _ 1 example_dist 1 eq_refl).
  - apply (proj2 (proj2 (proj2 (direct_kernels_read_upper_triangle
                                  example_float32 2 example_csm
                                  (hermitian_completion example_csm) 1 Hupper))
                    Hdiag)).
Defined.

(** ** Linearity *)

(** X16. Every direct kernel is linear in the csm: on the matrix
    [a * csm1 + b * csm2], with real [a] and [b], it returns [a] times its
    result on [csm1] plus [b] times its result on [csm2], for Formulations I
    to IV and the caller-supplied steering vector, full csm and removed
    diagonal; so beamforming an averaged csm gives the average of the
    beamforming results. *)
Theorem direct_kernels_linear_in_csm (float32 : R -> R)
    nMics (csm1 csm2 : nat -> nat -> complex128) a b nf :
  let csm := fun r c => (RtoC a * csm1 r c + RtoC b * csm2 r c)%C in
  (forall z rd kernel d0 d k,
     beamformerDict float32 false (SteerInt z) rd = Some (Core_Csm kernel) ->
     kernel nMics csm d0 d k nf
     = a * kernel nMics csm1 d0 d k nf + b * kernel nMics csm2 d0 d k nf)
  /\ (forall steerVec,
        _freqBeamformer_SpecificSteerVec_FullCSM nMics csm steerVec nf
        = a * _freqBeamformer_SpecificSteerVec_FullCSM nMics csm1 steerVec nf
          + b * _freqBeamformer_SpecificSteerVec_FullCSM nMics csm2 steerVec nf)
  /\ (forall steerVec,
        _freqBeamformer_SpecificSteerVec_CsmRemovedDiag nMics csm steerVec nf
        = a * _freqBeamformer_SpecificSteerVec_CsmRemovedDiag nMics csm1
                steerVec nf
          + b * _freqBeamformer_SpecificSteerVec_CsmRemovedDiag nMics csm2
                  steerVec nf).
Proof.
  cbv zeta. split; [|split].
  - intros z rd kernel d0 d k Hkey.
    rewrite !(beamformerDict_Csm float32 z rd kernel Hkey).
    destruct rd.
    + rewrite reduce_CsmRemovedDiag_linear. unfold Rdiv. ring.
    + rewrite reduce_FullCSM_linear. unfold Rdiv. ring.
  - intros steerVec. unfold _freqBeamformer_SpecificSteerVec_FullCSM. cbv zeta.
    rewrite reduce_FullCSM_linear. ring.
  - intros steerVec. unfold _freqBeamformer_SpecificSteerVec_CsmRemovedDiag.
    cbv zeta. rewrite reduce_CsmRemovedDiag_linear. ring.
Qed.

Lemma direct_kernels_linear_in_csm_witness :
  _freqBeamformer_Formulation4AkaTrueLocation_FullCSM example_float32 2
    (fun r c => (RtoC (1 / 2) * example_csm r c
                 + RtoC (1 / 2) * hermitian_completion example_csm r c)%C)
    1 example_dist 1 1
  = 1 / 2 * _freqBeamformer_Formulation4AkaTrueLocation_FullCSM example_float32 2
              example_csm 1 example_dist 1 1
    + 1 / 2 * _freqBeamformer_Formulation4AkaTrueLocation_FullCSM
                example_float32 2 (hermitian_completion example_csm)
                1 example_dist 1 1.
Proof.
  apply (proj1 (direct_kernels_linear_in_csm example_float32 2 example_csm
                  (hermitian_completion example_csm) (1 / 2) (1 / 2) 1)
           4%Z false _ 1 example_dist 1 eq_refl).
Defined.

(** ** Invariance under a change of the unit of length *)

(** X17. The kernels of Formulations I to IV do not depend on the unit of
    length: multiplying the reference distance and all microphone distances
    by a number [lam] that is not zero and dividing the wavenumber by it
    leaves the result of every direct and every eigenvalue kernel unchanged
    (for microphone distances that are not zero and a normalization that is
    not zero). *)
Theorem unit_of_length (float32 : R -> R)
    nEV nMics csm eigVal eigVec lam d0 d k nf :
  lam <> 0 -> (forall m, (m < nMics)%nat -> d m <> 0) ->
  (forall z rd kernel,
     beamformerDict float32 false (SteerInt z) rd = Some (Core_Csm kernel) ->
     normalization z nMics d0 d <> 0 ->
     kernel nMics csm (lam * d0) (fun m => lam * d m) (k / lam) nf
     = kernel nMics csm d0 d k nf)
  /\ (forall z rd kernel,
        beamformerDict float32 true (SteerInt z) rd = Some (Core_Eig kernel) ->
        normalization z nMics d0 d <> 0 ->
        kernel nEV nMics eigVal eigVec (lam * d0) (fun m => lam * d m)
          (k / lam) nf
        = kernel nEV nMics eigVal eigVec d0 d k nf).
Proof.
  intros Hlam Hd. split.
  - intros z rd kernel Hkey Hnorm.
    rewrite !(beamformerDict_Csm float32 z rd kernel Hkey).
    rewrite (normalization_rescaled z nMics lam d0 d Hlam Hd).
    pose proof (length_factor_neq_0 z lam Hlam) as Hg.
    set (g := length_factor z lam) in *.
    set (h := steering_vector float32 z false k d0 d).
    assert (Hscale :
              (if rd then reduce_CsmRemovedDiag else reduce_FullCSM) nMics csm
                (steering_vector float32 z false (k / lam) (lam * d0)
                   (fun m => lam * d m))
              = g * g * (if rd then reduce_CsmRemovedDiag else reduce_FullCSM)
                          nMics csm h).
    { destruct rd.
      - rewrite (reduce_CsmRemovedDiag_ext nMics csm csm
                   (fun m => (RtoC g * h m)%C)
                   (steering_vector float32 z false (k / lam) (lam * d0)
                      (fun m => lam * d m)))
          by (try reflexivity; intros m _;
              apply steering_vector_rescaled; exact Hlam).
        rewrite reduce_CsmRemovedDiag_scale, Cnorm2_RtoC. reflexivity.
      - rewrite (reduce_FullCSM_ext nMics csm csm
                   (fun m => (RtoC g * h m)%C)
                   (steering_vector float32 z false (k / lam) (lam * d0)
                      (fun m => lam * d m)))
          by (try reflexivity; intros m _;
              apply steering_vector_rescaled; exact Hlam).
        rewrite reduce_FullCSM_scale, Cnorm2_RtoC. reflexivity. }
    rewrite Hscale. field. split; assumption.
  - intros z rd kernel Hkey Hnorm.
    rewrite !(beamformerDict_Eig float32 z rd kernel Hkey).
    rewrite (normalization_rescaled z nMics lam d0 d Hlam Hd).
    pose proof (length_factor_neq_0 z lam Hlam) as Hg.
    set (g := length_factor z lam) in *.
    set (h := steering_vector float32 z (EigValProb_centered z rd) k d0 d).
    assert (Hscale :
              (if rd then reduce_EigValProb_CsmRemovedDiag
               else reduce_EigValProb_FullCSM) nEV nMics eigVal eigVec
                (steering_vector float32 z (EigValProb_centered z rd) (k / lam)
                   (lam * d0) (fun m => lam * d m))
              = g * g * (if rd then reduce_EigValProb_CsmRemovedDiag
                         else reduce_EigValProb_FullCSM) nEV nMics eigVal eigVec h).
    { destruct rd.
      - rewrite (reduce_EigValProb_CsmRemovedDiag_ext nEV nMics eigVal eigVec
                   (fun m => (RtoC g * h m)%C)
                   (steering_vector float32 z (EigValProb_centered z true)
                      (k / lam) (lam * d0) (fun m => lam * d m)))
          by (intros m _; apply steering_vector_rescaled; exact Hlam).
        rewrite reduce_EigValProb_CsmRemovedDiag_scale, Cnorm2_RtoC.
        reflexivity.
      - rewrite (reduce_EigValProb_FullCSM_ext nEV nMics eigVal eigVec
                   (fun m => (RtoC g * h m)%C)
                   (steering_vector float32 z (EigValProb_centered z false)
                      (k / lam) (lam * d0) (fun m => lam * d m)))
          by (intros m _; apply steering_vector_rescaled; exact Hlam).
        rewrite reduce_EigValProb_FullCSM_scale, Cnorm2_RtoC. reflexivity. }
    rewrite Hscale. field. split; assumption.
Qed.

Lemma unit_of_length_witness :
  _freqBeamformer_Formulation3AkaTrueLevel_FullCSM example_float32 2
    example_csm (1000 * 1) (fun m => 1000 * example_dist m) (1 / 1000) 1
  = _freqBeamformer_Formulation3AkaTrueLevel_FullCSM example_float32 2
      example_csm 1 example_dist 1 1.
Proof.
  assert (Hlam : 1000 <> 0) by lra.
  assert (Hd : forall m, (m < 2)%nat -> example_dist m <> 0).
  { intros m _. unfold example_dist. pose proof (pos_INR m). lra. }
  apply (proj1 (unit_of_length example_float32 2 2 example_csm example_eigVal
                  example_eigVec 1000 1 example_dist 1 1 Hlam Hd)
           3%Z false _ eq_refl).
  unfold normalization, Rsum, example_dist. simpl. lra.
Defined.

(** * Further properties of the point sources *)

Section Generators.

Import sources.

(** ** The conversion to [long] *)

Lemma to_long_bounds x :
  (0 <= x -> IZR (to_long x) <= x < IZR (to_long x) + 1)
  /\ (x < 0 -> IZR (to_long x) - 1 < x <= IZR (to_long x)).
Proof.
  unfold to_long. destruct (Rle_dec 0 x) as [Hx|Hx].
  - split; [|lra]. intros _. pose proof (base_Int_part x). lra.
  - split; [lra|]. intros _. rewrite opp_IZR.
    pose proof (base_Int_part (- x)). lra.
Qed.

(** ** Blocks *)

Lemma rows_length (out : nat -> list R) i : List.length (rows out i) = i.
Proof. unfold rows. rewrite length_map, length_seq. reflexivity. Qed.

Lemma PointSource_loop_blocks self num signal rm n :
  forall ind i out, (i < num)%nat ->
  exists full last,
    PointSource_loop self num signal rm n ind i out = full ++ [last]
    /\ Forall (fun block => List.length block = num) full
    /\ (List.length last < num)%nat.
Proof.
  induction n as [|n IH]; intros ind i out Hi.
  - exists [], (rows out i). rewrite rows_length. auto.
  - cbn [PointSource_loop].
    destruct (lookup self signal ind) as [samples|].
    + rewrite (proj2 (Nat.ltb_lt i num) Hi). cbv zeta.
      destruct (Nat.eqb_spec (S i) num) as [He|Hne].
      * destruct (IH (map (fun x => x + 1) ind) O
                    (upd1 out i (map2 Rdiv samples rm)) ltac:(lia))
          as (full & last & Heq & Hfull & Hlast).
        exists (rows (upd1 out i (map2 Rdiv samples rm)) num :: full), last.
        rewrite Heq. split; [reflexivity|]. split; [|exact Hlast].
        constructor; [apply rows_length | exact Hfull].
      * apply IH. lia.
    + exists [], (rows out i). rewrite rows_length. auto.
Qed.

Lemma MovingPointSource_loop_blocks (self : MovingPointSource)
    num signal epslim c0 n :
  forall t rm i out blocks e, (i < num)%nat ->
  MovingPointSource_loop self num signal epslim c0 n t rm i out = (blocks, e) ->
  exists full,
    Forall (fun block => List.length block = num) full
    /\ ((e = None
         /\ exists last, blocks = full ++ [last] /\ (List.length last < num)%nat)
        \/ (e <> None /\ blocks = full)).
Proof.
  induction n as [|n IH]; intros t rm i out blocks e Hi Hloop.
  - cbn [MovingPointSource_loop] in Hloop. injection Hloop as <- <-.
    exists []. split; [constructor|]. left. split; [reflexivity|].
    exists (rows out i). rewrite rows_length. auto.
  - cbn [MovingPointSource_loop] in Hloop. cbv zeta in Hloop.
    destruct (newton self epslim c0 t 100 rm (map (fun _ => 1) (mpos self)) t)
      as [[[rm' eps'] te']|].
    2:{ injection Hloop as <- <-. exists []. split; [constructor|].
        right. split; [discriminate|reflexivity]. }
    destruct (lookup self signal _) as [samples|].
    2:{ injection Hloop as <- <-. exists []. split; [constructor|].
        left. split; [reflexivity|].
        exists (rows out i). rewrite rows_length. auto. }
    destruct rm' as [rmv|].
    2:{ injection Hloop as <- <-. exists []. split; [constructor|].
        right. split; [discriminate|reflexivity]. }
    rewrite (proj2 (Nat.ltb_lt i num) Hi) in Hloop.
    destruct (Nat.eqb_spec (S i) num) as [He|Hne].
    + destruct (MovingPointSource_loop self num signal epslim c0 n
                  (map (fun x => x + 1 / sample_freq self) t) (Some rmv) O
                  (upd1 out i (map2 Rdiv samples rmv))) as [blocks' e'] eqn:Hrec.
      injection Hloop as <- <-.
      assert (H0 : (0 < num)%nat) by lia.
      destruct (IH _ _ _ _ _ _ H0 Hrec) as (full & Hfull & Hcase).
      exists (rows (upd1 out i (map2 Rdiv samples rmv)) num :: full).
      split; [constructor; [apply rows_length | exact Hfull]|].
      destruct Hcase as [(-> & last & -> & Hlast)|(Hex & ->)].
      * left. split; [reflexivity|]. exists last. auto.
      * right. auto.
    + assert (HS : (S i < num)%nat) by lia.
      apply (IH _ _ _ _ _ _ HS Hloop).
Qed.

(** ** Rows of the fixed source *)

Lemma take_length signal idx samples :
  take signal idx = Some samples -> List.length samples = List.length idx.
Proof.
  revert samples. induction idx as [|i idx IH]; intros samples H.
  - injection H as <-. reflexivity.
  - cbn [take] in H. destruct (getitem signal i); [|discriminate].
    destruct (take signal idx) as [xs|]; [|discriminate].
    injection H as <-. cbn [List.length]. rewrite (IH xs eq_refl). reflexivity.
Qed.

Lemma lookup_length self signal ind samples :
  lookup self signal ind = Some samples ->
  List.length samples = List.length ind.
Proof.
  unfold lookup. intros H. apply take_length in H.
  rewrite length_map in H. exact H.
Qed.

Lemma PointSource_samples_length self signal rm n :
  forall ind,
  let rows := PointSource_samples self signal rm n ind in
  (List.length rows <= n)%nat
  /\ ((List.length rows < n)%nat ->
      lookup self signal (map (fun x => x + INR (List.length rows)) ind) = None).
Proof.
  induction n as [|n IH]; intros ind; cbv zeta.
  - cbn. split; [lia|]. intros H. lia.
  - cbn [PointSource_samples].
    destruct (lookup self signal ind) as [samples|] eqn:Hl.
    + cbn [List.length]. destruct (IH (map (fun x => x + 1) ind)) as [Hle Hstop].
      split; [lia|]. intros Hlt. rewrite <- shift_S. apply Hstop. lia.
    + cbn [List.length]. split; [lia|]. intros _. rewrite shift_0. exact Hl.
Qed.

(** ** The Newton-Raphson loop inside the generator *)

(** With at least one microphone the loop test never raises, and the loop
    leaves [rm] bound when it was bound before or when the tolerance is
    below one. *)
Lemma newton_returns (self : MovingPointSource) epslim c0 t rm :
  mpos self <> [] -> List.length t = List.length (mpos self) ->
  exists rm' eps' te',
    newton self epslim c0 t 100 rm (map (fun _ => 1) (mpos self)) t
    = Some (rm', eps', te')
    /\ (rm <> None \/ epslim < 1 -> rm' <> None).
Proof.
  intros Hmics Ht.
  assert (Hones : List.length (map (fun _ : vec3 => 1) (mpos self))
                  = List.length (mpos self)) by apply length_map.
  destruct (newton_iterates self epslim c0 t Hmics Ht 100 rm
              (map (fun _ => 1) (mpos self)) t Hones Ht)
    as (k & Hk & Hn & Hstop & _).
  rewrite Hn. destruct k as [|k].
  - cbn [newton_iterate]. exists rm, (map (fun _ => 1) (mpos self)), t.
    split; [reflexivity|]. intros [Hrm|Heps]; [exact Hrm|].
    exfalso. assert (H100 : (0 < 100)%nat) by lia.
    destruct (Hstop H100) as (m & Hm & Hle).
    cbn [newton_iterate fst snd] in Hm.
    rewrite (max_abs_ones (mpos self) Hmics) in Hm. injection Hm as <-. lra.
  - rewrite newton_iterate_S. unfold newton_step.
    destruct (newton_iterate self c0 t k (rm, map (fun _ => 1) (mpos self), t))
      as [[rm1 eps1] te1].
    destruct (newton_body self c0 t te1) as [[rm2 eps2] te2].
    exists (Some rm2), eps2, te2. split; [reflexivity|]. intros _. discriminate.
Qed.

Lemma MovingPointSource_loop_no_exception (self : MovingPointSource)
    num signal epslim c0 n :
  mpos self <> [] ->
  forall t rm i out,
  List.length t = List.length (mpos self) ->
  rm <> None \/ epslim < 1 ->
  snd (MovingPointSource_loop self num signal epslim c0 n t rm i out) = None.
Proof.
  intros Hmics. induction n as [|n IH]; intros t rm i out Ht Hrm.
  - reflexivity.
  - cbn [MovingPointSource_loop]. cbv zeta.
    destruct (newton_returns self epslim c0 t rm Hmics Ht)
      as (rm' & eps' & te' & Hn & Hbound).
    rewrite Hn. specialize (Hbound Hrm).
    destruct rm' as [rmv|]; [|contradiction].
    destruct (lookup self signal _) as [samples|]; [|reflexivity].
    destruct (i <? num)%nat; [|reflexivity].
    assert (Ht' : List.length (map (fun x => x + 1 / sample_freq self) t)
                  = List.length (mpos self)) by (rewrite length_map; exact Ht).
    assert (Hrm' : Some rmv <> None \/ epslim < 1) by (left; discriminate).
    destruct (S i =? num)%nat.
    + pose proof (IH (map (fun x => x + 1 / sample_freq self) t) (Some rmv) O
                    (upd1 out i (map2 Rdiv samples rmv)) Ht' Hrm') as Hrec.
      destruct (MovingPointSource_loop self num signal epslim c0 n
                  (map (fun x => x + 1 / sample_freq self) t) (Some rmv) O
                  (upd1 out i (map2 Rdiv samples rmv))) as [blocks e].
      exact Hrec.
    + apply IH; assumption.
Qed.

(** ** A trajectory that stays at one point *)

Lemma newton_at_rest (self : MovingPointSource) epslim c0 t rm p :
  mpos self <> [] -> List.length t = List.length (mpos self) ->
  epslim < 1 -> c0 <> 0 -> norm3 p <> 0 ->
  (forall te, location self te = p) ->
  (forall te, velocity self te = (0, 0, 0)) ->
  let r := map (fun mic => norm3 (sub3 p mic)) (mpos self) in
  exists eps,
    newton self epslim c0 t 100 rm (map (fun _ => 1) (mpos self)) t
    = Some (Some r, eps, map2 (fun x d => x - d / c0) t r).
Proof.
  intros Hmics Ht Heps Hc Hp Hloc Hvel r.
  assert (Hones : List.length (map (fun _ : vec3 => 1) (mpos self))
                  = List.length (mpos self)) by apply length_map.
  destruct (newton_iterates self epslim c0 t Hmics Ht 100 rm
              (map (fun _ => 1) (mpos self)) t Hones Ht)
    as (k & Hk & Hn & Hstop & _).
  destruct k as [|k].
  - exfalso. assert (H100 : (0 < 100)%nat) by lia.
    destruct (Hstop H100) as (m & Hm & Hle).
    cbn [newton_iterate fst snd] in Hm.
    rewrite (max_abs_ones (mpos self) Hmics) in Hm. injection Hm as <-. lra.
  - rewrite Hn, newton_iterate_S. unfold newton_step.
    pose proof (newton_iterate_length self c0 t Ht k rm
                  (map (fun _ => 1) (mpos self)) t Ht) as Hlen.
    destruct (newton_iterate self c0 t k (rm, map (fun _ => 1) (mpos self), t))
      as [[rm1 eps1] te1].
    cbn [snd] in Hlen.
    destruct (newton_body_at_rest self c0 t Ht p Hc Hp Hloc Hvel te1 Hlen)
      as [eps Hb].
    rewrite Hb. exists eps. reflexivity.
Qed.

Lemma map_map2 {A B C D : Type} (g : C -> D) (f : A -> B -> C) l l' :
  map g (map2 f l l') = map2 (fun a b => g (f a b)) l l'.
Proof.
  revert l'. induction l as [|a l IH]; intros [|b l']; simpl; try reflexivity.
  rewrite IH. reflexivity.
Qed.

Lemma map2_map_l {A A' B C : Type} (f : A' -> B -> C) (g : A -> A') l l' :
  map2 f (map g l) l' = map2 (fun a b => f (g a) b) l l'.
Proof.
  revert l'. induction l as [|a l IH]; intros [|b l']; simpl; try reflexivity.
  rewrite IH. reflexivity.
Qed.

Lemma map2_ext {A B C : Type} (f g : A -> B -> C) l l' :
  (forall a b, f a b = g a b) -> map2 f l l' = map2 g l l'.
Proof.
  intros H. revert l'.
  induction l as [|a l IH]; intros [|b l']; simpl; try reflexivity.
  rewrite H, IH. reflexivity.
Qed.

(** The loop of the fixed source reads [self] for the upsampling factor
    only. *)
Lemma PointSource_loop_up self self' num signal rm n :
  up self = up self' ->
  forall ind i out,
  PointSource_loop self num signal rm n ind i out
  = PointSource_loop self' num signal rm n ind i out.
Proof.
  intros Hup. induction n as [|n IH]; intros ind i out.
  - reflexivity.
  - cbn [PointSource_loop]. unfold lookup. rewrite Hup.
    destruct (take signal _) as [samples|]; [|reflexivity].
    cbv zeta. rewrite !IH. reflexivity.
Qed.

(** The loop of the moving source whose trajectory stays at [p] is the loop
    of the fixed source at the distances to [p], when the sample indices of
    the two agree at the start. *)
Lemma MovingPointSource_loop_at_rest (self : MovingPointSource)
    num signal epslim p n :
  mpos self <> [] -> epslim < 1 -> c self <> 0 -> sample_freq self <> 0 ->
  norm3 p <> 0 ->
  (forall te, location self te = p) ->
  (forall te, velocity self te = (0, 0, 0)) ->
  let r := map (fun mic => norm3 (sub3 p mic)) (mpos self) in
  forall t rm i out,
  List.length t = List.length (mpos self) ->
  MovingPointSource_loop self num signal epslim (c self) n t rm i out
  = (PointSource_loop self num signal r n
       (map2 (fun x d => (x - d / c self - start_t self + start self)
                         * sample_freq self) t r) i out,
     None).
Proof.
  intros Hmics Heps Hc Hsf Hp Hloc Hvel r.
  induction n as [|n IH]; intros t rm i out Ht.
  - reflexivity.
  - cbn [MovingPointSource_loop PointSource_loop]. cbv zeta.
    destruct (newton_at_rest self epslim (c self) t rm p Hmics Ht Heps Hc Hp
                Hloc Hvel) as [eps Hn].
    fold r in Hn. rewrite Hn. rewrite map_map2.
    assert (Hnext :
              map (fun x => x + 1)
                (map2 (fun x d => (x - d / c self - start_t self + start self)
                                  * sample_freq self) t r)
              = map2 (fun x d => (x - d / c self - start_t self + start self)
                                 * sample_freq self)
                  (map (fun x => x + 1 / sample_freq self) t) r).
    { rewrite map_map2, map2_map_l. apply map2_ext. intros a b.
      field. repeat split; assumption. }
    assert (Ht' : List.length (map (fun x => x + 1 / sample_freq self) t)
                  = List.length (mpos self)) by (rewrite length_map; exact Ht).
    destruct (lookup self signal _) as [samples|]; [|reflexivity].
    destruct (i <? num)%nat; [|reflexivity].
    rewrite Hnext.
    destruct (S i =? num)%nat.
    + rewrite (IH _ (Some r) O _ Ht'). reflexivity.
    + apply IH. exact Ht'.
Qed.

(** ** The buffer [out] *)

Lemma rows_ext (out out' : nat -> list R) i :
  (forall j, (j < i)%nat -> out j = out' j) -> rows out i = rows out' i.
Proof.
  intros H. unfold rows. apply map_ext_in. intros j Hj.
  apply in_seq in Hj. apply H. lia.
Qed.

Lemma upd1_agree (out out' : nat -> list R) i row :
  (forall j, (j < i)%nat -> out j = out' j) ->
  forall j, (j < S i)%nat -> upd1 out i row j = upd1 out' i row j.
Proof.
  intros H j Hj. unfold upd1. destruct (Nat.eqb_spec j i) as [->|Hne].
  - reflexivity.
  - apply H. lia.
Qed.

(** The loops read the buffer below [i] only. *)
Lemma PointSource_loop_buffer self num signal rm n :
  forall ind i out out',
  (forall j, (j < i)%nat -> out j = out' j) ->
  PointSource_loop self num signal rm n ind i out
  = PointSource_loop self num signal rm n ind i out'.
Proof.
  induction n as [|n IH]; intros ind i out out' H.
  - cbn [PointSource_loop]. rewrite (rows_ext out out' i H). reflexivity.
  - cbn [PointSource_loop].
    destruct (lookup self signal ind) as [samples|];
      [|rewrite (rows_ext out out' i H); reflexivity].
    destruct (i <? num)%nat;
      [|rewrite (rows_ext out out' i H); reflexivity].
    cbv zeta.
    pose proof (upd1_agree out out' i (map2 Rdiv samples rm) H) as H'.
    destruct (Nat.eqb_spec (S i) num) as [He|Hne].
    + subst num. rewrite (rows_ext _ _ (S i) H'). f_equal.
      apply IH. intros j Hj. lia.
    + apply IH. exact H'.
Qed.

Lemma MovingPointSource_loop_buffer (self : MovingPointSource)
    num signal epslim c0 n :
  forall t rm i out out',
  (forall j, (j < i)%nat -> out j = out' j) ->
  MovingPointSource_loop self num signal epslim c0 n t rm i out
  = MovingPointSource_loop self num signal epslim c0 n t rm i out'.
Proof.
  induction n as [|n IH]; intros t rm i out out' H.
  - cbn [MovingPointSource_loop]. rewrite (rows_ext out out' i H). reflexivity.
  - cbn [MovingPointSource_loop]. cbv zeta.
    destruct (newton self epslim c0 t 100 rm (map (fun _ => 1) (mpos self)) t)
      as [[[rm' eps'] te']|]; [|reflexivity].
    destruct (lookup self signal _) as [samples|];
      [|rewrite (rows_ext out out' i H); reflexivity].
    destruct rm' as [rmv|]; [|reflexivity].
    destruct (i <? num)%nat;
      [|rewrite (rows_ext out out' i H); reflexivity].
    pose proof (upd1_agree out out' i (map2 Rdiv samples rmv) H) as H'.
    destruct (Nat.eqb_spec (S i) num) as [He|Hne].
    + subst num. rewrite (rows_ext _ _ (S i) H').
      rewrite (IH (map (fun x => x + 1 / sample_freq self) t) (Some rmv) O
                 (upd1 out i (map2 Rdiv samples rmv))
                 (upd1 out' i (map2 Rdiv samples rmv)))
        by (intros j Hj; lia).
      reflexivity.
    + apply IH. exact H'.
Qed.

End Generators.

Section GeneratorFacts.

Import sources.

(** ** The sample index *)

(** X18. The index [array(0.5+x, dtype=long)] is the integer nearest to [x]
    (a half is rounded up) for [x >= -1/2]; for [x < -1/2] the conversion
    cuts towards zero and the index is the integer nearest to [x + 1], a
    half rounded down: one sample later than the nearest one. *)
Theorem sample_index_rounding x :
  let i := IZR (to_long (0.5 + x)) in
  (- (1 / 2) <= x -> i - 1 / 2 <= x < i + 1 / 2)
  /\ (x < - (1 / 2) -> i - 1 - 1 / 2 < x <= i - 1 / 2).
Proof.
  cbv zeta. destruct (to_long_bounds (0.5 + x)) as [Hpos Hneg].
  split; intros Hx.
  - assert (H0 : 0 <= 0.5 + x) by lra. specialize (Hpos H0). lra.
  - assert (H0 : 0.5 + x < 0) by lra. specialize (Hneg H0). lra.
Qed.

Lemma sample_index_rounding_witness :
  (IZR (to_long (0.5 + 2)) - 1 / 2 <= 2 < IZR (to_long (0.5 + 2)) + 1 / 2)
  /\ (IZR (to_long (0.5 + - (2))) - 1 - 1 / 2 < - (2)
      <= IZR (to_long (0.5 + - (2))) - 1 / 2).
Proof.
  split.
  - apply (proj1 (sample_index_rounding 2)). lra.
  - apply (proj2 (sample_index_rounding (- (2)))). lra.
Defined.

(** ** Blocks *)

(** X19. For a block size [num >= 1] the generator of the fixed source yields
    blocks of exactly [num] rows followed by one last block of fewer than
    [num] rows (which may be empty).  The generator of the moving source
    does the same when it ends without an exception, and has yielded only
    blocks of exactly [num] rows when an exception ends it. *)
Theorem blocks_of_num_rows (self : MovingPointSource) num empty :
  (1 <= num)%nat ->
  (exists full last,
     PointSource_result self num empty = full ++ [last]
     /\ Forall (fun block => List.length block = num) full
     /\ (List.length last < num)%nat)
  /\ (exists full,
        Forall (fun block => List.length block = num) full
        /\ ((snd (MovingPointSource_result self num empty) = None
             /\ exists last,
                  fst (MovingPointSource_result self num empty) = full ++ [last]
                  /\ (List.length last < num)%nat)
            \/ (snd (MovingPointSource_result self num empty) <> None
                /\ fst (MovingPointSource_result self num empty) = full))).
Proof.
  intros Hnum. split.
  - unfold PointSource_result. cbv zeta. apply PointSource_loop_blocks. lia.
  - unfold MovingPointSource_result. cbv zeta.
    destruct (up self =? 0)%Z.
    { exists []. split; [constructor|]. right. split; [discriminate|reflexivity]. }
    destruct (Req_dec_T (sample_freq self) 0).
    { exists []. split; [constructor|]. right. split; [discriminate|reflexivity]. }
    destruct (MovingPointSource_loop self num (usignal self (up self))
                (0.1 / IZR (up self) / sample_freq self) (c self)
                (numsamples self) (map (fun _ => start self * 1) (mpos self))
                None O empty) as [blocks e] eqn:Hloop.
    assert (H0 : (0 < num)%nat) by lia.
    destruct (MovingPointSource_loop_blocks self num _ _ _ _ _ _ _ _ _ _ H0 Hloop)
      as (full & Hfull & Hcase).
    exists full. split; [exact Hfull|]. exact Hcase.
Qed.

Lemma blocks_of_num_rows_witness :
  (exists full last,
     PointSource_result example_moving 1 (fun _ => []) = full ++ [last]
     /\ Forall (fun block => List.length block = 1%nat) full
     /\ (List.length last < 1)%nat)
  /\ (exists full,
        Forall (fun block => List.length block = 1%nat) full
        /\ ((snd (MovingPointSource_result example_moving 1 (fun _ => [])) = None
             /\ exists last,
                  fst (MovingPointSource_result example_moving 1 (fun _ => []))
                  = full ++ [last]
                  /\ (List.length last < 1)%nat)
            \/ (snd (MovingPointSource_result example_moving 1 (fun _ => []))
                <> None
                /\ fst (MovingPointSource_result example_moving 1 (fun _ => []))
                   = full))).
Proof.
  apply (blocks_of_num_rows example_moving 1 (fun _ => [])). lia.
Defined.

(** ** The rows of the fixed source *)

(** X20. For a block size [num >= 1], the rows the fixed source yields, all
    blocks taken together, are: row [k] holds, for each microphone, the
    upsampled signal at the index of the emission sample [ind + k], divided
    by the distance [rm] of the microphone, one entry per distance; there
    are at most [numsamples] rows, and fewer only if the lookup for the row
    after the last one fails. *)
Theorem PointSource_rows (self : PointSource) num empty :
  (1 <= num)%nat ->
  let signal := usignal self (up self) in
  let rm := env_r self (c self) (loc self) (mpos self) in
  let ind :=
    map (fun r => (- r / c self - start_t self + start self) * sample_freq self)
      rm in
  let yielded := concat (PointSource_result self num empty) in
  (List.length yielded <= numsamples self)%nat
  /\ ((List.length yielded < numsamples self)%nat ->
      lookup self signal (map (fun x => x + INR (List.length yielded)) ind)
      = None)
  /\ (forall k row, nth_error yielded k = Some row ->
        List.length row = List.length rm
        /\ exists samples,
             lookup self signal (map (fun x => x + INR k) ind) = Some samples
             /\ row = map2 Rdiv samples rm).
Proof.
  intros Hnum signal rm ind yielded.
  assert (Hy : yielded
               = PointSource_samples self signal rm (numsamples self) ind).
  { unfold yielded, PointSource_result. cbv zeta.
    rewrite PointSource_loop_concat by lia. reflexivity. }
  rewrite Hy.
  destruct (PointSource_samples_length self signal rm (numsamples self) ind)
    as [Hle Hstop].
  split; [exact Hle|]. split; [exact Hstop|].
  intros k row Hk.
  destruct (PointSource_samples_nth self signal rm _ _ _ _ Hk)
    as (samples & Hl & Hrow).
  split; [|exists samples; auto].
  rewrite Hrow. apply map2_length_eq; [|reflexivity].
  rewrite (lookup_length _ _ _ _ Hl). unfold ind. rewrite !length_map.
  reflexivity.
Qed.

Lemma PointSource_rows_witness :
  let self := example_fixed in
  let signal := usignal self (up self) in
  let rm := env_r self (c self) (loc self) (mpos self) in
  let ind :=
    map (fun r => (- r / c self - start_t self + start self) * sample_freq self)
      rm in
  let yielded := concat (PointSource_result self 1 (fun _ => [])) in
  (List.length yielded <= numsamples self)%nat
  /\ (List.length yielded = numsamples self
      \/ lookup self signal (map (fun x => x + INR (List.length yielded)) ind)
         = None).
Proof.
  cbv zeta.
  assert (H1 : (1 <= 1)%nat) by lia.
  destruct (PointSource_rows example_fixed 1 (fun _ => []) H1)
    as (Hle & Hstop & _).
  split; [exact Hle|].
  destruct (Nat.eq_dec
              (List.length (concat (PointSource_result example_fixed 1
                                      (fun _ => []))))
              (numsamples example_fixed)) as [He|Hne].
  - left. exact He.
  - right. apply Hstop. lia.
Defined.

(** ** Exceptions of the moving source *)

(** X21. The generator of the moving source ends with a
    [ZeroDivisionError], before it yields anything, when the upsampling
    factor or the sample rate is zero, and with a [ValueError], before it
    yields anything, when there is no microphone and at least one sample is
    asked for; with at least one microphone and a tolerance
    [0.1/up/sample_freq] below one no exception leaves it. *)
Theorem MovingPointSource_exceptions (self : MovingPointSource) num empty :
  (up self = 0%Z \/ sample_freq self = 0 ->
   MovingPointSource_result self num empty = ([], Some ZeroDivisionError))
  /\ (up self <> 0%Z -> sample_freq self <> 0 -> mpos self = [] ->
      (1 <= numsamples self)%nat ->
      MovingPointSource_result self num empty = ([], Some ValueError))
  /\ (up self <> 0%Z -> sample_freq self <> 0 -> mpos self <> [] ->
      0.1 / IZR (up self) / sample_freq self < 1 ->
      snd (MovingPointSource_result self num empty) = None).
Proof.
  unfold MovingPointSource_result. cbv zeta. split; [|split].
  - intros [Hup|Hsf].
    + rewrite Hup. reflexivity.
    + destruct (up self =? 0)%Z; [reflexivity|].
      destruct (Req_dec_T (sample_freq self) 0); [reflexivity|contradiction].
  - intros Hup Hsf Hmics Hn.
    rewrite (proj2 (Z.eqb_neq (up self) 0) Hup).
    destruct (Req_dec_T (sample_freq self) 0); [contradiction|].
    destruct (numsamples self) as [|ns]; [lia|].
    cbn [MovingPointSource_loop]. rewrite Hmics. reflexivity.
  - intros Hup Hsf Hmics Heps.
    rewrite (proj2 (Z.eqb_neq (up self) 0) Hup).
    destruct (Req_dec_T (sample_freq self) 0); [contradiction|].
    apply MovingPointSource_loop_no_exception.
    + exact Hmics.
    + apply length_map.
    + right. exact Heps.
Qed.

Lemma MovingPointSource_exceptions_witness :
  MovingPointSource_result (example_at_rest 0) 1 (fun _ => [])
    = ([], Some ZeroDivisionError)
  /\ snd (MovingPointSource_result (example_at_rest 1) 1 (fun _ => [])) = None.
Proof.
  split.
  - apply (proj1 (MovingPointSource_exceptions (example_at_rest 0) 1
                    (fun _ => []))).
    right. reflexivity.
  - apply (proj2 (proj2 (MovingPointSource_exceptions (example_at_rest 1) 1
                           (fun _ => [])))).
    + discriminate.
    + apply R1_neq_R0.
    + discriminate.
    + cbn [up sample_freq base example_at_rest]. lra.
Defined.

(** X22. With at least one microphone and a tolerance [0.1/up/sample_freq]
    of one or more, the moving source never yields a sample: the loop of the
    Newton iteration is not entered, and the first pass either fails its
    lookup and ends the generator with one empty block, or ends it with a
    [NameError] for the distance [rm] that was never computed. *)
Theorem MovingPointSource_coarse_tolerance (self : MovingPointSource) num empty :
  up self <> 0%Z -> sample_freq self <> 0 -> mpos self <> [] ->
  1 <= 0.1 / IZR (up self) / sample_freq self ->
  (1 <= numsamples self)%nat ->
  let t := map (fun _ => start self * 1) (mpos self) in
  let ind :=
    map (fun x => (x - start_t self + start self) * sample_freq self) t in
  (lookup self (usignal self (up self)) ind = None ->
   MovingPointSource_result self num empty = ([[]], None))
  /\ (lookup self (usignal self (up self)) ind <> None ->
      MovingPointSource_result self num empty = ([], Some NameError)).
Proof.
  intros Hup Hsf Hmics Heps Hn t ind.
  unfold MovingPointSource_result. cbv zeta.
  rewrite (proj2 (Z.eqb_neq (up self) 0) Hup).
  destruct (Req_dec_T (sample_freq self) 0); [contradiction|].
  destruct (numsamples self) as [|ns]; [lia|].
  cbn [MovingPointSource_loop]. cbv zeta. fold t.
  rewrite (newton_stop self _ (c self) t 100 None
             (map (fun _ => 1) (mpos self)) t 1
             (max_abs_ones (mpos self) Hmics)) by lra.
  fold ind. split; intros Hl.
  - rewrite Hl. reflexivity.
  - destruct (lookup self (usignal self (up self)) ind); [reflexivity|].
    contradiction.
Qed.

Lemma MovingPointSource_coarse_tolerance_witness :
  let self := example_at_rest (1 / 10) in
  let t := map (fun _ => start self * 1) (mpos self) in
  let ind :=
    map (fun x => (x - start_t self + start self) * sample_freq self) t in
  (lookup self (usignal self (up self)) ind = None
   /\ MovingPointSource_result self 1 (fun _ => []) = ([[]], None))
  \/ (lookup self (usignal self (up self)) ind <> None
      /\ MovingPointSource_result self 1 (fun _ => []) = ([], Some NameError)).
Proof.
  cbv zeta.
  assert (Hup : up (example_at_rest (1 / 10)) <> 0%Z) by discriminate.
  assert (Hsf : sample_freq (example_at_rest (1 / 10)) <> 0)
    by (cbn [sample_freq base example_at_rest]; lra).
  assert (Hmics : mpos (example_at_rest (1 / 10)) <> []) by discriminate.
  assert (Heps : 1 <= 0.1 / IZR (up (example_at_rest (1 / 10)))
                      / sample_freq (example_at_rest (1 / 10)))
    by (cbn [up sample_freq base example_at_rest]; lra).
  assert (Hn : (1 <= numsamples (example_at_rest (1 / 10)))%nat)
    by (cbn [numsamples base example_at_rest]; lia).
  destruct (MovingPointSource_coarse_tolerance (example_at_rest (1 / 10)) 1
              (fun _ => []) Hup Hsf Hmics Heps Hn) as [Hnone Hsome].
  destruct (lookup (example_at_rest (1 / 10))
              (usignal (example_at_rest (1 / 10))
                 (up (example_at_rest (1 / 10))))
              (map (fun x => (x - start_t (example_at_rest (1 / 10))
                              + start (example_at_rest (1 / 10)))
                             * sample_freq (example_at_rest (1 / 10)))
                 (map (fun _ => start (example_at_rest (1 / 10)) * 1)
                    (mpos (example_at_rest (1 / 10)))))) as [samples|] eqn:Hl.
  - right. split; [discriminate|]. apply Hsome. discriminate.
  - left. split; [reflexivity|]. apply Hnone. reflexivity.
Defined.

(** ** A moving source that does not move *)

(** X23. A moving source whose trajectory stays at the point [loc] (not the
    origin, velocity zero), in a medium where the distance [env.r] is the
    Euclidean one, with at least one microphone, a tolerance below one and
    speed of sound, sample rate and upsampling factor not zero, yields
    exactly the blocks of the fixed source at [loc] whose sample start time
    is [2 * start], and ends without an exception: the moving source counts
    [start] twice, so the two generators agree as they are only for
    [start = 0]. *)
Theorem MovingPointSource_at_rest (self : MovingPointSource) num empty :
  up self <> 0%Z -> sample_freq self <> 0 -> c self <> 0 -> mpos self <> [] ->
  0.1 / IZR (up self) / sample_freq self < 1 ->
  norm3 (loc self) <> 0 ->
  (forall te, location self te = loc self) ->
  (forall te, velocity self te = (0, 0, 0)) ->
  env_r self (c self) (loc self) (mpos self)
  = map (fun mic => norm3 (sub3 (loc self) mic)) (mpos self) ->
  MovingPointSource_result self num empty
  = (PointSource_result (with_start self (2 * start self)) num empty, None)
  /\ (start self = 0 ->
      MovingPointSource_result self num empty
      = (PointSource_result self num empty, None)).
Proof.
  intros Hup Hsf Hc Hmics Heps Hp Hloc Hvel Henv.
  assert (Hind :
            map2 (fun x d => (x - d / c self - start_t self + start self)
                             * sample_freq self)
              (map (fun _ => start self * 1) (mpos self))
              (map (fun mic => norm3 (sub3 (loc self) mic)) (mpos self))
            = map (fun r => (- r / c self - start_t self + 2 * start self)
                            * sample_freq self)
                (map (fun mic => norm3 (sub3 (loc self) mic)) (mpos self))).
  { clear Hmics Henv.
    induction (mpos self) as [|mic L IH]; [reflexivity|].
    cbn [map map2]. rewrite IH. f_equal. field. exact Hc. }
  assert (Hmoving :
            MovingPointSource_result self num empty
            = (PointSource_loop self num (usignal self (up self))
                 (map (fun mic => norm3 (sub3 (loc self) mic)) (mpos self))
                 (numsamples self)
                 (map2 (fun x d => (x - d / c self - start_t self + start self)
                                   * sample_freq self)
                    (map (fun _ => start self * 1) (mpos self))
                    (map (fun mic => norm3 (sub3 (loc self) mic)) (mpos self)))
                 O empty, None)).
  { unfold MovingPointSource_result. cbv zeta.
    rewrite (proj2 (Z.eqb_neq (up self) 0) Hup).
    destruct (Req_dec_T (sample_freq self) 0); [contradiction|].
    apply MovingPointSource_loop_at_rest; try assumption.
    apply length_map. }
  rewrite Hmoving. split.
  - f_equal. unfold PointSource_result. cbv zeta.
    cbn [with_start usignal up env_r c loc mpos start_t start sample_freq
           numsamples].
    rewrite Henv.
    rewrite (PointSource_loop_up (with_start self (2 * start self)) self)
      by reflexivity.
    rewrite Hind. reflexivity.
  - intros Hstart. f_equal. unfold PointSource_result. cbv zeta.
    rewrite Henv.
    rewrite Hind. f_equal. apply map_ext. intros r. rewrite Hstart. ring.
Qed.

Lemma MovingPointSource_at_rest_witness :
  let self := example_at_rest 1 in
  MovingPointSource_result self 1 (fun _ => [])
  = (PointSource_result (with_start self (2 * start self)) 1 (fun _ => []), None)
  /\ MovingPointSource_result self 1 (fun _ => [])
     = (PointSource_result self 1 (fun _ => []), None).
Proof.
  cbv zeta.
  assert (Hup : up (example_at_rest 1) <> 0%Z) by discriminate.
  assert (Hsf : sample_freq (example_at_rest 1) <> 0) by apply R1_neq_R0.
  assert (Hc : c (example_at_rest 1) <> 0) by apply R1_neq_R0.
  assert (Hmics : mpos (example_at_rest 1) <> []) by discriminate.
  assert (Heps : 0.1 / IZR (up (example_at_rest 1))
                 / sample_freq (example_at_rest 1) < 1)
    by (cbn [up sample_freq base example_at_rest]; lra).
  assert (Hp : norm3 (loc (example_at_rest 1)) <> 0).
  { cbn [loc base example_at_rest]. rewrite norm3_axis' by lra. lra. }
  destruct (MovingPointSource_at_rest (example_at_rest 1) 1 (fun _ => [])
              Hup Hsf Hc Hmics Heps Hp (fun _ => eq_refl) (fun _ => eq_refl)
              eq_refl) as [Hdouble Hsame].
  split; [exact Hdouble|]. apply Hsame. reflexivity.
Defined.

(** ** Nothing to yield *)

(** X24. A generator that is asked for no sample ([numsamples = 0]) yields
    one empty block and ends: the fixed source always, the moving source
    once [0.1/up/sample_freq] is computed; and so does the fixed source that
    is asked for blocks of no rows ([num = 0]), whatever [numsamples] is,
    because the first row does not fit into the buffer. *)
Theorem nothing_to_yield (self : MovingPointSource) empty :
  (forall num, numsamples self = O -> PointSource_result self num empty = [[]])
  /\ PointSource_result self 0 empty = [[]]
  /\ (forall num, numsamples self = O ->
        up self <> 0%Z -> sample_freq self <> 0 ->
        MovingPointSource_result self num empty = ([[]], None)).
Proof.
  split; [|split].
  - intros num Hn. unfold PointSource_result. cbv zeta. rewrite Hn. reflexivity.
  - unfold PointSource_result. cbv zeta.
    destruct (numsamples self) as [|ns]; [reflexivity|].
    cbn [PointSource_loop]. destruct (lookup _ _ _); reflexivity.
  - intros num Hn Hup Hsf. unfold MovingPointSource_result. cbv zeta.
    rewrite (proj2 (Z.eqb_neq (up self) 0) Hup).
    destruct (Req_dec_T (sample_freq self) 0); [contradiction|].
    rewrite Hn. reflexivity.
Qed.

Lemma nothing_to_yield_witness :
  PointSource_result example_moving 0 (fun _ => []) = [[]].
Proof.
  apply (proj1 (proj2 (nothing_to_yield example_moving (fun _ => [])))).
Defined.

(** ** The buffer *)

(** X25. What the buffer [empty((num, numchannels))] holds before the first
    row is written never reaches the caller: the blocks of the fixed source,
    and the blocks and the exception of the moving source, are the same for
    any two contents of the fresh buffer. *)
Theorem buffer_content_never_yielded (self : MovingPointSource) num empty empty' :
  PointSource_result self num empty = PointSource_result self num empty'
  /\ MovingPointSource_result self num empty
     = MovingPointSource_result self num empty'.
Proof.
  split.
  - unfold PointSource_result. cbv zeta. apply PointSource_loop_buffer.
    intros j Hj. lia.
  - unfold MovingPointSource_result. cbv zeta.
    destruct (up self =? 0)%Z; [reflexivity|].
    destruct (Req_dec_T (sample_freq self) 0); [reflexivity|].
    apply MovingPointSource_loop_buffer. intros j Hj. lia.
Qed.

End GeneratorFacts.
